(** * okteto: job translation pipeline (package [jobs]) and SSH tunnel pool
      (package [ssh])

    A shallow embedding of [pkg/k8s/jobs] ([get], [CreateDevJob],
    [translate]) and of [pkg/ssh] ([getConn], [getTCPConnection],
    [pool.keepAlive], [pool.stop]).  Go code that reads or writes the
    outside world (the cluster client, the clock, the heap of objects
    reached through pointers, the network, the log) is written in a state
    monad over an explicit world; Go's [(value, error)] results and
    run-time panics are the three cases of [Go.outcome].

    After the properties of these, the rest of the two packages
    ([retryNewClientConn]) and the image names and the cache handler of
    [pkg/cmd/build] ([GetRepoNameWithoutTag], [GetImageTag],
    [GetDevImageTag], [translateCacheHandler]), with Go strings as
    sequences of bytes. *)

From stdpp Require Import gmap strings list fin_maps pretty.
From Stdlib Require Import Ascii.

Open Scope string_scope.
Open Scope list_scope.
Open Scope stdpp_scope.

(** Go's [map[string]string].  A map value is either [nil] ([None]) or a
    map ([Some m]); reading and [delete] accept [nil], assignment panics. *)
Abbreviation smap := (gmap string string).
Abbreviation gomap := (option (gmap string string)).

(** ** Go run time: errors, panics, results *)
Module Go.

(** An [error] value: [ErrorS] is built by [errors.New] or by
    [fmt.Errorf] without [%w] (and stands for the errors of libraries
    too); [ErrorW] by [fmt.Errorf] with [%w], keeping the wrapped cause. *)
Inductive error : Type :=
| ErrorS (msg : string)
| ErrorW (msg : string) (cause : error).

(** [err.Error()] *)
Definition Error (e : error) : string :=
  match e with ErrorS m => m | ErrorW m _ => m end.

(** [fmt.Errorf(format, args...)] once the verbs are substituted. *)
Definition Errorf (msg : string) : error := ErrorS msg.

(** [fmt.Errorf(prefix + "%w", err)] *)
Definition Errorf_w (prefix : string) (err : error) : error :=
  ErrorW (prefix +:+ Error err) err.

(** What a call gives back: a value, a non-nil [error], or a panic. *)
Inductive outcome (A : Type) : Type :=
| Ok (a : A)
| Err (e : error)
| Panic (msg : string).
Global Arguments Ok {A} a.
Global Arguments Err {A} e.
Global Arguments Panic {A} msg.

Definition nil_map_write : string := "assignment to entry in nil map".
Definition nil_deref : string :=
  "invalid memory address or nil pointer dereference".
Definition index_out_of_range : string := "index out of range".

(** State monad with errors and panics over a world [W]. *)
Definition M (W A : Type) : Type := W → outcome A * W.

Definition ret {W A} (a : A) : M W A := λ w, (Ok a, w).

Definition bind {W A B} (m : M W A) (k : A → M W B) : M W B :=
  λ w, match m w with
       | (Ok a, w') => k a w'
       | (Err e, w') => (Err e, w')
       | (Panic s, w') => (Panic s, w')
       end.

Definition throw {W A} (e : error) : M W A := λ w, (Err e, w).
Definition panic {W A} (s : string) : M W A := λ w, (Panic s, w).
Definition gets {W A} (f : W → A) : M W A := λ w, (Ok (f w), w).
Definition modify {W} (f : W → W) : M W unit := λ w, (Ok tt, f w).

Global Instance M_ret W : MRet (M W) := @ret W.
Global Instance M_bind W : MBind (M W) := λ A B k m, bind m k.

End Go.
Export Go.

(** ** Kubernetes API types (k8s.io/api), the fields the package touches *)
Module K8s.

Record ObjectMeta : Type := {
  Name : string;
  Namespace : string;
  ResourceVersion : string;
  Labels : gomap;
  Annotations : gomap
}.

Record Toleration : Type := {
  Key : string; Operator : string; Value : string; Effect : string
}.

Record VolumeMount : Type := { MountName : string; MountPath : string }.

Record Container : Type := {
  ContainerName : string;
  Image : string;
  Command : list string;
  Args : list string;
  Env : list (string * string);
  VolumeMounts : list VolumeMount
}.

Record Volume : Type := { VolumeName : string; SecretName : option string }.

Record PodSecurityContext : Type := {
  RunAsUser : option Z; RunAsGroup : option Z; FSGroup : option Z
}.

Record PodSpec : Type := {
  Volumes : list Volume;
  InitContainers : list Container;
  Containers : list Container;
  Tolerations : list Toleration;
  Affinity : option string;
  SecurityContext : option PodSecurityContext
}.

Record PodTemplateSpec : Type := {
  TemplateMeta : ObjectMeta;
  TemplateSpec : PodSpec
}.

Record LabelSelector : Type := { MatchLabels : gomap }.

Record JobSpec : Type := {
  Selector : option LabelSelector;
  Template : PodTemplateSpec
}.

Record JobStatus : Type := { Active : Z; Succeeded : Z; Failed : Z }.

(** [batchv1.JobStatus{}] *)
Definition JobStatus_zero : JobStatus :=
  {| Active := 0; Succeeded := 0; Failed := 0 |}.

Record Job : Type := {
  Meta : ObjectMeta;
  Spec : JobSpec;
  Status : JobStatus
}.

(** Field assignments. *)
Definition set_Name (n : string) (m : ObjectMeta) : ObjectMeta :=
  {| Name := n; Namespace := Namespace m;
     ResourceVersion := ResourceVersion m;
     Labels := Labels m; Annotations := Annotations m |}.
Definition set_ResourceVersion (v : string) (m : ObjectMeta) : ObjectMeta :=
  {| Name := Name m; Namespace := Namespace m; ResourceVersion := v;
     Labels := Labels m; Annotations := Annotations m |}.
Definition set_Labels (l : gomap) (m : ObjectMeta) : ObjectMeta :=
  {| Name := Name m; Namespace := Namespace m;
     ResourceVersion := ResourceVersion m;
     Labels := l; Annotations := Annotations m |}.
Definition set_Annotations (a : gomap) (m : ObjectMeta) : ObjectMeta :=
  {| Name := Name m; Namespace := Namespace m;
     ResourceVersion := ResourceVersion m;
     Labels := Labels m; Annotations := a |}.
Definition set_Tolerations (ts : list Toleration) (s : PodSpec) : PodSpec :=
  {| Volumes := Volumes s; InitContainers := InitContainers s;
     Containers := Containers s; Tolerations := ts;
     Affinity := Affinity s; SecurityContext := SecurityContext s |}.

Definition with_Meta (f : ObjectMeta → ObjectMeta) (j : Job) : Job :=
  {| Meta := f (Meta j); Spec := Spec j; Status := Status j |}.
Definition set_Status (s : JobStatus) (j : Job) : Job :=
  {| Meta := Meta j; Spec := Spec j; Status := s |}.
Definition set_Selector (s : option LabelSelector) (j : Job) : Job :=
  {| Meta := Meta j;
     Spec := {| Selector := s; Template := Template (Spec j) |};
     Status := Status j |}.
Definition with_Template (f : PodTemplateSpec → PodTemplateSpec) (j : Job)
  : Job :=
  {| Meta := Meta j;
     Spec := {| Selector := Selector (Spec j);
                Template := f (Template (Spec j)) |};
     Status := Status j |}.
Definition with_TemplateMeta (f : ObjectMeta → ObjectMeta) : Job → Job :=
  with_Template (λ p, {| TemplateMeta := f (TemplateMeta p);
                         TemplateSpec := TemplateSpec p |}).
Definition with_TemplateSpec (f : PodSpec → PodSpec) : Job → Job :=
  with_Template (λ p, {| TemplateMeta := TemplateMeta p;
                         TemplateSpec := f (TemplateSpec p) |}).

(** [job.Spec.Template.GetObjectMeta()], [&job.Spec.Template.Spec] *)
Definition TMeta (j : Job) : ObjectMeta := TemplateMeta (Template (Spec j)).
Definition TSpec (j : Job) : PodSpec := TemplateSpec (Template (Spec j)).

(** The client of the cluster API, [c.BatchV1().Jobs(namespace)], as an
    interface over the client's own state.  [inl] is a nil error. *)
Class JobsClient (C : Type) : Type := {
  Jobs_Get : string → string → C → (Job + error) * C;
  Jobs_List : string → string → C → (list Job + error) * C;
  Jobs_Create : string → Job → C → (Job + error) * C
}.

End K8s.

(** ** Package [model]: the manifest and the translation request *)
Module Model.
Import K8s.

(** Modelled from the spec: [model.Dev] is declared in package [model];
    this is the DevManifest of the data model (name, namespace, label
    set, annotation and toleration overrides, and the container and image
    of its override), with the fields package [jobs] reads. *)
Record Dev : Type := {
  dev_Name : string;
  dev_Namespace : string;
  dev_Container : string;
  dev_Image : string;
  dev_Labels : gomap;
  dev_Annotations : gomap;
  dev_Tolerations : list Toleration
}.

(** Modelled from the spec: [model.TranslationRule] is declared in package
    [model]; this is the TranslationRule of the data model.  Package
    [jobs] reads the target container, the security context, the secrets
    and the tooling marker. *)
Record TranslationRule : Type := {
  rule_Container : string;
  rule_Image : string;
  rule_Environment : list (string * string);
  rule_SecurityContext : option PodSecurityContext;
  rule_Secrets : list string;
  rule_Volumes : list VolumeMount;
  rule_Marker : string
}.

(** Modelled from the spec: [model.Translation] is declared in package
    [model]; the fields are those [CreateDevJob] fills in.  [t_Job] is a
    pointer ([*batchv1.Job]): an address in the heap of the world. *)
Record Translation : Type := {
  t_Name : string;
  t_Interactive : bool;
  t_Version : string;
  t_Job : nat;
  t_Annotations : gomap;
  t_Tolerations : list Toleration;
  t_Rules : list TranslationRule
}.

(** [len(m)] of a Go map *)
Definition len (m : gomap) : nat :=
  match m with None => 0 | Some m => size m end.

(** What package [jobs] calls from package [model], as parameters. *)
Class Pkg : Type := {
  LabelsSelector : Dev → string;
  ToTranslationRule : Dev → Dev → TranslationRule;
  TranslationVersion : string
}.

End Model.

(** ** Package [deployments]: the rule functions [translate] calls

    The package is used through its interface: each function is a
    parameter, taken as a total function on what the pointer it is handed
    reaches: a
    [metav1.Object] lets it rewrite that object's metadata, a [*PodSpec]
    the pod specification; a [*Container] returned by [GetDevContainer]
    points into the [Containers] of the pod specification, so it is
    rendered as an index together with the pod specification.
    [GetDevContainer] returning [None] is the nil pointer. *)
Module Deployments.
Import K8s Model.

Class Pkg : Type := {
  CommonTranslation :
    Translation → ObjectMeta → ObjectMeta → ObjectMeta * ObjectMeta;
  TranslateDevAnnotations : ObjectMeta → gomap → ObjectMeta;
  TranslateDevTolerations : PodSpec → list Toleration → PodSpec;
  TranslatePodAffinity : PodSpec → string → PodSpec;
  GetDevContainer : PodSpec → string → option nat;
  TranslateDevContainer : nat → TranslationRule → PodSpec → PodSpec;
  TranslateOktetoVolumes : PodSpec → TranslationRule → PodSpec;
  TranslatePodSecurityContext :
    PodSpec → option PodSecurityContext → PodSpec;
  TranslateOktetoDevSecret : PodSpec → string → list string → PodSpec;
  TranslateOktetoBinVolumeMounts : nat → PodSpec → PodSpec;
  TranslateOktetoInitBinContainer : PodSpec → PodSpec;
  TranslateOktetoBinVolume : PodSpec → PodSpec
}.

End Deployments.

(** ** Package [jobs] *)
Module Jobs.
Import K8s Model Deployments.

Definition revisionAnnotation : string := "deployment.kubernetes.io/revision".
Definition oktetoVersionAnnotation : string := "dev.okteto.com/version".

(** A call on the cluster API, as a counting mock would record it. *)
Inductive api_call : Type :=
| CallGet (namespace name : string)
| CallList (namespace selector : string)
| CallCreate (namespace : string) (job : Job).

Definition is_create (c : api_call) : bool :=
  match c with CallCreate _ _ => true | _ => false end.

(** The world of the package.  [heap] holds the [batchv1.Job] objects
    reached through pointers, a pointer being an index ([DeepCopy] and
    the client hand out fresh objects whose maps and slices are their
    own, so a cell owns everything below it).  [clock] is what
    [time.Now().Unix()] reads.  [cancelled] is the cancellation signal
    a caller may hold: no function of the package takes a
    [context.Context], so nothing below reads it. *)
Record world (C : Type) : Type := {
  heap : list Job;
  client : C;
  calls : list api_call;
  logs : list string;
  clock : Z;
  cancelled : bool
}.
Global Arguments heap {C} w.
Global Arguments client {C} w.
Global Arguments calls {C} w.
Global Arguments logs {C} w.
Global Arguments clock {C} w.
Global Arguments cancelled {C} w.

Section Package.
Context {C : Type} `{!JobsClient C} `{!Model.Pkg} `{!Deployments.Pkg}.

Definition set_heap (h : list Job) (w : world C) : world C :=
  {| heap := h; client := client w; calls := calls w; logs := logs w;
     clock := clock w; cancelled := cancelled w |}.
Definition set_client (c : C) (w : world C) : world C :=
  {| heap := heap w; client := c; calls := calls w; logs := logs w;
     clock := clock w; cancelled := cancelled w |}.
Definition set_calls (cs : list api_call) (w : world C) : world C :=
  {| heap := heap w; client := client w; calls := cs; logs := logs w;
     clock := clock w; cancelled := cancelled w |}.
Definition set_logs (ls : list string) (w : world C) : world C :=
  {| heap := heap w; client := client w; calls := calls w; logs := ls;
     clock := clock w; cancelled := cancelled w |}.
Definition set_cancelled (b : bool) (w : world C) : world C :=
  {| heap := heap w; client := client w; calls := calls w;
     logs := logs w; clock := clock w; cancelled := b |}.

(** *** Primitive effects *)

(** A fresh object on the heap; the result is the pointer to it. *)
Definition new (j : Job) : M (world C) nat :=
  λ w, (Ok (length (heap w)), set_heap (heap w ++ [j]) w).

(** Reading through the pointer [p]. *)
Definition deref (p : nat) : M (world C) Job :=
  λ w, match heap w !! p with
       | Some j => (Ok j, w)
       | None => (Panic nil_deref, w)
       end.

(** Reading a field through the pointer [p]. *)
Definition field {A} (p : nat) (f : Job → A) : M (world C) A :=
  j ← deref p; mret (f j).

(** An assignment through the pointer [p]: the object it points to
    becomes [f] of it. *)
Definition update (p : nat) (f : Job → Job) : M (world C) unit :=
  j ← deref p; modify (λ w, set_heap (<[p := f j]> (heap w)) w).

(** [m[k] = v] where [m] is the map field [get] of [*p]. *)
Definition map_assign (p : nat) (get : Job → gomap)
    (set : gomap → Job → Job) (k v : string) : M (world C) unit :=
  j ← deref p;
  match get j with
  | None => panic nil_map_write
  | Some m => update p (set (Some (<[k := v]> m)))
  end.

(** [delete(m, k)] where [m] is the map field [get] of [*p]. *)
Definition map_delete (p : nat) (get : Job → gomap)
    (set : gomap → Job → Job) (k : string) : M (world C) unit :=
  j ← deref p;
  match get j with
  | None => mret tt
  | Some m => update p (set (Some (delete k m)))
  end.

(** [time.Now().Unix()] *)
Definition time_Now_Unix : M (world C) Z := gets clock.

(** [log.Infof], [log.Debugf] *)
Definition log (msg : string) : M (world C) unit :=
  modify (λ w, set_logs (logs w ++ [msg]) w).

Definition record (c : api_call) : M (world C) unit :=
  modify (λ w, set_calls (calls w ++ [c]) w).

Definition call {A} (f : C → (A + error) * C) : M (world C) (A + error) :=
  λ w, let '(r, c) := f (client w) in (Ok r, set_client c w).

Definition api_Get (ns name : string) : M (world C) (Job + error) :=
  record (CallGet ns name);; call (Jobs_Get ns name).
Definition api_List (ns sel : string) : M (world C) (list Job + error) :=
  record (CallList ns sel);; call (Jobs_List ns sel).
Definition api_Create (ns : string) (j : Job) : M (world C) (Job + error) :=
  record (CallCreate ns j);; call (Jobs_Create ns j).

(** [old.DeepCopy()], the copy function that Kubernetes generates for
    [batchv1.Job]: it allocates a new object and copies the source into
    it field by field, every map and slice into a new map or slice, a
    nil map into a nil map.  The result shares nothing with the source. *)
Definition DeepCopy (old : nat) : M (world C) nat :=
  j ← deref old; new j.

(** The label and annotation maps of the object and of its template. *)
Definition GetLabels (j : Job) : gomap := Labels (Meta j).
Definition SetLabels (m : gomap) : Job → Job := with_Meta (set_Labels m).
Definition GetAnnotations (j : Job) : gomap := Annotations (Meta j).
Definition SetAnnotations (m : gomap) : Job → Job :=
  with_Meta (set_Annotations m).
Definition Template_GetLabels (j : Job) : gomap := Labels (TMeta j).
Definition Template_SetLabels (m : gomap) : Job → Job :=
  with_TemplateMeta (set_Labels m).

(** *** [get] *)
Definition get (dev : Dev) (namespace : string) : M (world C) nat :=
  if decide (namespace = "") then throw (Errorf "empty namespace")
  else if decide (len (dev_Labels dev) = 0) then
    r ← api_Get namespace (dev_Name dev);
    match r with
    | inr err =>
        log ("error while retrieving job " +:+ namespace +:+ "/" +:+
             dev_Name dev +:+ ": " +:+ Error err);;
        throw err
    | inl j => new j
    end
  else
    r ← api_List namespace (LabelsSelector dev);
    match r with
    | inr err => throw err
    | inl items =>
        if decide (length items = 0) then
          throw (Errorf ("jobs for labels '" +:+ LabelsSelector dev +:+
                         "' not found"))
        else if decide (1 < length items) then
          throw (Errorf ("Found '" +:+ pretty (length items) +:+
                         "' jobs for labels '" +:+ LabelsSelector dev +:+
                         "' instead of 1"))
        else
          match items !! 0 with
          | Some j => new j
          | None => panic index_out_of_range
          end
    end.

(** *** [translate] *)

(** The body of [for _, rule := range t.Rules]. *)
Fixpoint range_Rules (job : nat) (t : Translation)
    (rules : list TranslationRule) : M (world C) unit :=
  match rules with
  | [] => mret tt
  | rule :: rest =>
      j ← deref job;
      match GetDevContainer (TSpec j) (rule_Container rule) with
      | None =>
          throw (Errorf ("Container '" +:+ rule_Container rule +:+
                         "' not found in job '" +:+ Name (Meta j) +:+ "'"))
      | Some devContainer =>
          update job (with_TemplateSpec
                        (TranslateDevContainer devContainer rule));;
          update job (with_TemplateSpec
                        (λ s, TranslateOktetoVolumes s rule));;
          update job (with_TemplateSpec
                        (λ s, TranslatePodSecurityContext s
                                (rule_SecurityContext rule)));;
          update job (with_TemplateSpec
                        (λ s, TranslateOktetoDevSecret s (t_Name t)
                                (rule_Secrets rule)));;
          (if decide (rule_Marker rule ≠ "") then
             update job (with_TemplateSpec
                           (TranslateOktetoBinVolumeMounts devContainer));;
             update job (with_TemplateSpec TranslateOktetoInitBinContainer);;
             update job (with_TemplateSpec TranslateOktetoBinVolume)
           else mret tt);;
          range_Rules job t rest
      end
  end.

Definition translate (old : nat) (t : Translation) : M (world C) nat :=
  job ← DeepCopy old;
  name ← field job (Name ∘ Meta);
  now ← time_Now_Unix;
  update job (with_Meta
                (set_Name ("okteto-" +:+ name +:+ "-" +:+ pretty now)));;
  (* initialize unique values *)
  update job (set_Status JobStatus_zero);;
  update job (with_Meta (set_ResourceVersion ""));;
  name ← field job (Name ∘ Meta);
  map_assign job GetLabels SetLabels "job-name" name;;
  map_delete job GetLabels SetLabels "controller-uid";;
  update job (set_Selector None);;
  name ← field job (Name ∘ Meta);
  map_assign job Template_GetLabels Template_SetLabels "job-name" name;;
  map_delete job Template_GetLabels Template_SetLabels "controller-uid";;
  map_delete job GetAnnotations SetAnnotations revisionAnnotation;;
  update job (λ j, let '(o, p) := CommonTranslation t (Meta j) (TMeta j) in
                   with_TemplateMeta (λ _, p) (with_Meta (λ _, o) j));;
  (* apply okteto manifest overrides *)
  update job (with_TemplateMeta
                (λ m, TranslateDevAnnotations m (t_Annotations t)));;
  update job (with_TemplateSpec
                (λ s, TranslateDevTolerations s (t_Tolerations t)));;
  update job (with_TemplateSpec (λ s, TranslatePodAffinity s (t_Name t)));;
  update job (with_TemplateSpec
                (λ s, set_Tolerations (Tolerations s ++ t_Tolerations t) s));;
  range_Rules job t (t_Rules t);;
  mret job.

(** *** [CreateDevJob] *)
Definition CreateDevJob (job main : Dev) : M (world C) string :=
  log ("creating job from " +:+ dev_Name job);;
  j ← get job (dev_Namespace main);
  let rule := ToTranslationRule job main in
  let t := {| t_Name := dev_Name main;
              t_Interactive := false;
              t_Version := TranslationVersion;
              t_Job := j;
              t_Annotations := dev_Annotations main;
              t_Tolerations := dev_Tolerations main;
              t_Rules := [rule] |} in
  newJob ← translate j t;
  v ← deref newJob;
  r ← api_Create (dev_Namespace main) v;
  match r with
  | inr err => throw (Errorf_w "failed to create job: " err)
  | inl created => mret (Name (Meta created))
  end.


(** *** What the properties are stated with *)

(** [m[k]] with its [ok] flag: reading a Go map, nil or not. *)
Definition map_get (m : gomap) (k : string) : option string :=
  match m with None => None | Some m => m !! k end.

(** The name [translate] gives to the copy of [src] at time [now]. *)
Definition derived_name (src : Job) (now : Z) : string :=
  "okteto-" +:+ Name (Meta src) +:+ "-" +:+ pretty now.

Definition stripped_labels (name : string) (l : smap) : smap :=
  delete "controller-uid" (<["job-name" := name]> l).

(** The copy once its unique values are initialised, for a source whose
    label maps are [l] and [tl]. *)
Definition stripped (src : Job) (name : string) (l tl : smap) : Job :=
  {| Meta := {| Name := name;
                Namespace := Namespace (Meta src);
                ResourceVersion := "";
                Labels := Some (stripped_labels name l);
                Annotations :=
                  delete revisionAnnotation <$> Annotations (Meta src) |};
     Spec := {| Selector := None;
                Template :=
                  {| TemplateMeta :=
                       set_Labels (Some (stripped_labels name tl)) (TMeta src);
                     TemplateSpec := TSpec src |} |};
     Status := JobStatus_zero |}.

(** The pod specification of the template when the loop over the
    rules starts. *)
Definition derived_TSpec (t : Translation) (s : PodSpec) : PodSpec :=
  let s1 := TranslateDevTolerations s (t_Tolerations t) in
  let s2 := TranslatePodAffinity s1 (t_Name t) in
  set_Tolerations (Tolerations s2 ++ t_Tolerations t) s2.

(** The copy when the loop over the rules starts. *)
Definition overridden (t : Translation) (j : Job) : Job :=
  {| Meta := (CommonTranslation t (Meta j) (TMeta j)).1;
     Spec := {| Selector := Selector (Spec j);
                Template :=
                  {| TemplateMeta :=
                       TranslateDevAnnotations
                         (CommonTranslation t (Meta j) (TMeta j)).2
                         (t_Annotations t);
                     TemplateSpec := derived_TSpec t (TSpec j) |} |};
     Status := Status j |}.

(** The error of [translate] for a rule whose container is missing. *)
Definition container_not_found (rule : TranslationRule) (jobName : string)
  : error :=
  Errorf ("Container '" +:+ rule_Container rule +:+
          "' not found in job '" +:+ jobName +:+ "'").

(** The world whose newest object is [j], on top of the objects [pre]. *)
Definition top (pre : list Job) (j : Job) (w : world C) : world C :=
  set_heap (pre ++ [j]) w.

(** The translation [CreateDevJob] builds for the source at [q]. *)
Definition pipeline_Translation (job main : Dev) (q : nat) : Translation :=
  {| t_Name := dev_Name main;
     t_Interactive := false;
     t_Version := TranslationVersion;
     t_Job := q;
     t_Annotations := dev_Annotations main;
     t_Tolerations := dev_Tolerations main;
     t_Rules := [ToTranslationRule job main] |}.

(** A computation is blind to the cancellation signal when setting
    the signal beforehand changes neither what it returns nor what it
    does to the rest of the world. *)
Definition blind {A} (m : M (world C) A) : Prop :=
  ∀ b w, m (set_cancelled b w) = ((m w).1, set_cancelled b (m w).2).

(** *** What the rule functions of package [deployments] may write

    [CommonTranslation] and [TranslateDevAnnotations] are handed the
    metadata that [translate] has just initialised, and they may write
    to it.  [keeps_identity t] says that, on the translation [t], the
    two leave the name, the resource version, the labels [job-name] and
    [controller-uid] and the revision annotation as they find them.  It
    is a condition on [t], not a law of the package: a common pass that
    writes the annotations of [t] over those of the object meets it only
    when [t] carries no revision annotation. *)
Record keeps_identity (t : Translation) : Prop := {
  CommonTranslation_Name o p :
    Name (CommonTranslation t o p).1 = Name o;
  CommonTranslation_ResourceVersion o p :
    ResourceVersion (CommonTranslation t o p).1 = ResourceVersion o;
  CommonTranslation_Labels o p k :
    k = "job-name" ∨ k = "controller-uid" →
    map_get (Labels (CommonTranslation t o p).1) k = map_get (Labels o) k;
  CommonTranslation_Template_Labels o p k :
    k = "job-name" ∨ k = "controller-uid" →
    map_get (Labels (CommonTranslation t o p).2) k = map_get (Labels p) k;
  CommonTranslation_revision o p :
    map_get (Annotations (CommonTranslation t o p).1) revisionAnnotation =
    map_get (Annotations o) revisionAnnotation;
  TranslateDevAnnotations_Labels m k :
    k = "job-name" ∨ k = "controller-uid" →
    map_get (Labels (TranslateDevAnnotations m (t_Annotations t))) k =
    map_get (Labels m) k
}.

(** The identity of a source is gone from [j], which carries [name]. *)
Definition identity_stripped (j : Job) (name : string) : Prop :=
  Name (Meta j) = name ∧
  Status j = JobStatus_zero ∧
  ResourceVersion (Meta j) = "" ∧
  Selector (Spec j) = None ∧
  map_get (Annotations (Meta j)) revisionAnnotation = None ∧
  map_get (Labels (Meta j)) "controller-uid" = None ∧
  map_get (Labels (TMeta j)) "controller-uid" = None ∧
  map_get (Labels (Meta j)) "job-name" = Some name ∧
  map_get (Labels (TMeta j)) "job-name" = Some name.

End Package.
End Jobs.

(** ** Package [ssh]: the tunnel pool *)
Module Ssh.

(** [time.Duration]: nanoseconds. *)
Definition Millisecond : Z := 1000000.
Definition Second : Z := 1000 * Millisecond.

(** A [net.Conn], an [*ssh.Client] and a [context.Context] are handles
    whose state lives in the environment. *)
Definition conn : Type := nat.
Definition ssh_client : Type := nat.
Definition context : Type := nat.

Definition context_Canceled : error := ErrorS "context canceled".

Global Instance error_eq_dec : EqDecision error.
Proof. solve_decision. Defined.

Record pool : Type := {
  ka : Z;
  client : ssh_client;
  stopped : bool
}.

(** What the package does to the outside, in order. *)
Inductive event : Type :=
| EvNewTicker (d : Z)
| EvTick
| EvTickerStop
| EvDial (network address : string) (result : conn + error)
| EvSetKeepAlive (c : conn) (on : bool)
| EvSetKeepAlivePeriod (c : conn) (d : Z)
| EvSendRequest (c : ssh_client) (name : string) (wantReply : bool)
| EvClose (c : ssh_client)
| EvLog (msg : string).

Definition is_send (e : event) : bool :=
  match e with EvSendRequest _ _ _ => true | _ => false end.
Definition is_log (e : event) : bool :=
  match e with EvLog _ => true | _ => false end.
Definition is_dial (e : event) : bool :=
  match e with EvDial _ _ _ => true | _ => false end.

(** The network and the SSH library, over their own state; [None] is a
    nil error. *)
Class Net (N : Type) : Type := {
  DialContext : context → string → string → N → (conn + error) * N;
  SetKeepAlive : conn → bool → N → option error * N;
  SetKeepAlivePeriod : conn → Z → N → option error * N;
  SendRequest : ssh_client → string → bool → N → option error * N;
  Close : ssh_client → N → option error * N
}.

(** [errors.IsClosedNetwork] of package [errors], as a parameter. *)
Class ErrorsPkg : Type := { IsClosedNetwork : error → bool }.

(** The pool [p] shared by the keep-alive goroutine and the callers of
    its methods, the environment, and the trace of events. *)
Record world (N : Type) : Type := {
  p : pool;
  net : N;
  trace : list event
}.
Global Arguments p {N} w.
Global Arguments net {N} w.
Global Arguments trace {N} w.

Section Package.
Context {N : Type} `{!Net N} `{!ErrorsPkg}.

Definition emit (e : event) : M (world N) unit :=
  modify (λ w, {| p := p w; net := net w; trace := trace w ++ [e] |}).

Definition env {A} (f : N → A * N) : M (world N) A :=
  λ w, let '(a, n) := f (net w) in
       (Ok a, {| p := p w; net := n; trace := trace w |}).

Definition log (msg : string) : M (world N) unit := emit (EvLog msg).

(** [time.NewTicker(d)] for a period [d] that is positive (it panics on
    any other), and a receive from its channel *)
Definition time_NewTicker (d : Z) : M (world N) unit := emit (EvNewTicker d).
Definition recv_tick : M (world N) unit := emit EvTick.
Definition ticker_Stop : M (world N) unit := emit EvTickerStop.

(** [d.DialContext(ctx, network, address)] *)
Definition dial (ctx : context) (network address : string)
  : M (world N) (conn + error) :=
  r ← env (DialContext ctx network address);
  emit (EvDial network address r);;
  mret r.

(** *** [getConn] *)

(** [n] iterations of [for i := 0; i < 5; i++] remain. *)
Fixpoint getConn_for (n : nat) (ctx : context) (serverAddr : string)
    (lastErr : option error) : M (world N) (option conn * option error) :=
  match n with
  | 0 => mret (None, lastErr)
  | S n' =>
      r ← dial ctx "tcp" serverAddr;
      match r with
      | inl c => mret (Some c, None)
      | inr err =>
          recv_tick;;
          getConn_for n' ctx serverAddr (Some err)
      end
  end.

Definition getConn (ctx : context) (serverAddr : string) (maxRetries : Z)
  : M (world N) (option conn * option error) :=
  time_NewTicker (100 * Millisecond);;
  getConn_for 5 ctx serverAddr None.

(** *** [getTCPConnection] *)
Definition getTCPConnection (ctx : context) (serverAddr : string)
    (keepAlive : Z) : M (world N) (option conn * option error) :=
  '(c, err) ← getConn ctx serverAddr 3;
  match err with
  | Some e => mret (None, Some e)
  | None =>
      match c with
      | None => panic "interface conversion: interface is nil"
      | Some c =>
          e1 ← (emit (EvSetKeepAlive c true);; env (SetKeepAlive c true));
          match e1 with
          | Some e => mret (None, Some e)
          | None =>
              e2 ← (emit (EvSetKeepAlivePeriod c keepAlive);;
                    env (SetKeepAlivePeriod c keepAlive));
              match e2 with
              | Some e => mret (None, Some e)
              | None => mret (Some c, None)
              end
          end
      end
  end.

(** *** [pool.keepAlive] *)

(** The case a [select] of the loop takes: the context is done, with
    what [ctx.Err()] then returns, or the ticker fired. *)
Inductive selected : Type :=
| ctx_Done (err : option error)
| t_C.

Inductive flow : Type := Continue | Return.

(** One pass of the body of [for { select { ... } }]. *)
Definition keepAlive_select (s : selected) : M (world N) flow :=
  match s with
  | ctx_Done err =>
      match err with
      | Some e =>
          (if decide (e = context_Canceled) then mret tt
           else log ("ssh pool keep alive completed with error: " +:+
                     Error e));;
          mret Return
      | None => mret Return
      end
  | t_C =>
      isStopped ← gets (λ w, stopped (p w));
      if (isStopped : bool) then mret Return
      else
        c ← gets (λ w, client (p w));
        err ← (emit (EvSendRequest c "dev.okteto.com/keepalive" true);;
               env (SendRequest c "dev.okteto.com/keepalive" true));
        match err with
        | Some e => log ("failed to send SSH keepalive: " +:+ Error e)
        | None => mret tt
        end;;
        mret Continue
  end.

(** The loop over the cases its [select]s take; [Continue] when the
    goroutine is back in [select] once they are used up. *)
Fixpoint keepAlive_for (ss : list selected) : M (world N) flow :=
  match ss with
  | [] => mret Continue
  | s :: rest =>
      f ← keepAlive_select s;
      match f with
      | Return => mret Return
      | Continue => keepAlive_for rest
      end
  end.

(** [defer t.Stop()] runs when the loop returns. *)
Definition keepAlive (ss : list selected) : M (world N) flow :=
  d ← gets (λ w, ka (p w));
  time_NewTicker d;;
  f ← keepAlive_for ss;
  match f with
  | Return => ticker_Stop;; mret Return
  | Continue => mret Continue
  end.

(** *** [pool.stop] *)
Definition stop : M (world N) unit :=
  modify (λ w, {| p := {| ka := ka (p w); client := client (p w);
                          stopped := true |};
                  net := net w; trace := trace w |});;
  c ← gets (λ w, client (p w));
  err ← (emit (EvClose c);; env (Close c));
  match err with
  | Some e =>
      if IsClosedNetwork e then mret tt
      else log ("failed to close SSH pool: " +:+ Error e)
  | None => mret tt
  end.

(** *** The handle in use: the goroutine of [keepAlive] beside a caller
    of [stop]

    [startPool] starts [keepAlive] in a goroutine of its own, and [stop]
    runs in the goroutine of its caller.  The two share [p.stopped]:
    the tick case reads it, [stop] writes it, and no lock or channel
    orders the two.  So the schedule may put a step of one goroutine
    between any two steps of the other.  The steps are the accesses to
    what the two share (the field and the client): for the tick case the
    read of [p.stopped] and then the request, for [stop] the write of
    [p.stopped] and then the close.  The accesses take effect in the
    order of the schedule. *)

(** The tick case: [if p.stopped], and what follows it on a pool that
    is not stopped. *)
Definition keepAlive_check : M (world N) bool :=
  gets (λ w, stopped (p w)).

Definition keepAlive_send : M (world N) unit :=
  c ← gets (λ w, client (p w));
  err ← (emit (EvSendRequest c "dev.okteto.com/keepalive" true);;
         env (SendRequest c "dev.okteto.com/keepalive" true));
  match err with
  | Some e => log ("failed to send SSH keepalive: " +:+ Error e)
  | None => mret tt
  end.

(** [stop]: [p.stopped = true], and the rest of it. *)
Definition stop_mark : M (world N) unit :=
  modify (λ w, {| p := {| ka := ka (p w); client := client (p w);
                          stopped := true |};
                  net := net w; trace := trace w |}).

Definition stop_close : M (world N) unit :=
  c ← gets (λ w, client (p w));
  err ← (emit (EvClose c);; env (Close c));
  match err with
  | Some e =>
      if IsClosedNetwork e then mret tt
      else log ("failed to close SSH pool: " +:+ Error e)
  | None => mret tt
  end.

(** Where the goroutine of [keepAlive] is: blocked in its [select],
    between the read of [p.stopped] and the request, or returned. *)
Inductive at_keepAlive : Type :=
| AtSelect
| AtSend
| Returned.

(** Where the caller is: outside [stop], or in it, between the write
    of [p.stopped] and the close. *)
Inductive at_stop : Type :=
| Outside
| AtClose.

(** The step the schedule takes next: the goroutine leaves its [select]
    by the case [s] (and reads [p.stopped] in the tick case), or sends
    its request; the caller enters [stop] and sets [p.stopped], or
    closes the client and leaves [stop]. *)
Inductive action : Type :=
| Select (s : selected)
| Send
| StopMark
| StopClose.

(** A schedule, from where the two goroutines are.  A step that is not
    the next one of its goroutine is passed over. *)
Fixpoint run (acts : list action) (g : at_keepAlive) (c : at_stop)
  : M (world N) (at_keepAlive * at_stop) :=
  match acts with
  | [] => mret (g, c)
  | a :: rest =>
      match a, g, c with
      | Select (ctx_Done err), AtSelect, _ =>
          keepAlive_select (ctx_Done err);;
          ticker_Stop;;
          run rest Returned c
      | Select t_C, AtSelect, _ =>
          isStopped ← keepAlive_check;
          if (isStopped : bool) then ticker_Stop;; run rest Returned c
          else run rest AtSend c
      | Send, AtSend, _ => keepAlive_send;; run rest AtSelect c
      | StopMark, _, Outside => stop_mark;; run rest g AtClose
      | StopClose, _, AtClose => stop_close;; run rest g Outside
      | _, _, _ => run rest g c
      end
  end.

Definition is_Send (a : action) : bool :=
  match a with Send => true | _ => false end.

(** The requests in flight when [p.stopped] is set: the one of a
    goroutine that has read [p.stopped] already, if the schedule lets it
    go on. *)
Definition in_flight (acts : list action) (g : at_keepAlive)
    (c : ssh_client) : list event :=
  match g with
  | AtSend =>
      if existsb is_Send acts
      then [EvSendRequest c "dev.okteto.com/keepalive" true]
      else []
  | _ => []
  end.

(** What a dial that fails leaves in the trace: the dial, then the
    wait for the next tick of the ticker. *)
Definition failed_attempt (serverAddr : string) (e : error) : list event :=
  [EvDial "tcp" serverAddr (inr e); EvTick].

End Package.
End Ssh.

(** ** A cluster, a manifest and rule functions to run the pipeline on

    [fake] is a client in the manner of client-go's fake clientset: canned
    answers, and a count of the creation calls it received.  [manifest]
    and [rules] are instances of the packages [model] and [deployments]
    to run the pipeline on. *)
Module Fixture.
Import K8s Model Deployments Jobs.

Record fake : Type := {
  on_Get : string → string → Job + error;
  on_List : string → string → list Job + error;
  on_Create : string → Job → Job + error;
  created : nat
}.

#[export] Instance fake_client : JobsClient fake := {|
  Jobs_Get ns name c := (on_Get c ns name, c);
  Jobs_List ns sel c := (on_List c ns sel, c);
  Jobs_Create ns j c :=
    (on_Create c ns j,
     {| on_Get := on_Get c; on_List := on_List c; on_Create := on_Create c;
        created := S (created c) |})
|}.

Definition selector_of (m : smap) : string :=
  foldr (λ '(k, v) acc,
           if decide (acc = "") then k +:+ "=" +:+ v
           else k +:+ "=" +:+ v +:+ ", " +:+ acc)
        "" (map_to_list m).

(** Modelled from the spec: the selector of a label set, and the rule of
    a manifest, which targets its container with its image and sets the
    tooling marker. *)
#[export] Instance manifest : Model.Pkg := {|
  LabelsSelector dev := selector_of (default ∅ (dev_Labels dev));
  ToTranslationRule dev main :=
    {| rule_Container := dev_Container dev; rule_Image := dev_Image dev;
       rule_Environment := []; rule_SecurityContext := None;
       rule_Secrets := []; rule_Volumes := [];
       rule_Marker := "okteto-bin" |};
  TranslationVersion := "1.0"
|}.

Definition merge_into (over : gomap) (m : gomap) : gomap :=
  match over with
  | None => m
  | Some o => Some (o ∪ default ∅ m)
  end.

Definition set_Image (img : string) (c : Container) : Container :=
  {| ContainerName := ContainerName c; Image := img; Command := Command c;
     Args := Args c; Env := Env c; VolumeMounts := VolumeMounts c |}.
Definition add_Mount (vm : VolumeMount) (c : Container) : Container :=
  {| ContainerName := ContainerName c; Image := Image c;
     Command := Command c; Args := Args c; Env := Env c;
     VolumeMounts := VolumeMounts c ++ [vm] |}.
Definition with_Containers (f : list Container → list Container)
    (s : PodSpec) : PodSpec :=
  {| Volumes := Volumes s; InitContainers := InitContainers s;
     Containers := f (Containers s); Tolerations := Tolerations s;
     Affinity := Affinity s; SecurityContext := SecurityContext s |}.
Definition has_volume (n : string) (s : PodSpec) : bool :=
  bool_decide (n ∈ VolumeName <$> Volumes s).
Definition add_Volume (v : Volume) (s : PodSpec) : PodSpec :=
  if has_volume (VolumeName v) s then s else
  {| Volumes := Volumes s ++ [v]; InitContainers := InitContainers s;
     Containers := Containers s; Tolerations := Tolerations s;
     Affinity := Affinity s; SecurityContext := SecurityContext s |}.
Definition bin_init : Container :=
  {| ContainerName := "okteto-bin"; Image := "okteto/bin"; Command := [];
     Args := []; Env := [];
     VolumeMounts := [{| MountName := "okteto-bin"; MountPath := "/okteto/bin" |}] |}.

(** Modelled from the spec: the rule functions of package [deployments]
    after the Rule Applier of the design (the common pass merges the
    annotations of the translation into the metadata of the object and
    of the pod template and stamps a version annotation, override maps
    win on key collision, containers are found by name, volumes are keyed
    by name, the tooling volume and init container are added once). *)
#[export] Instance rules : Deployments.Pkg := {|
  CommonTranslation t o p :=
    let common m :=
      set_Annotations
        (Some (<[oktetoVersionAnnotation := t_Version t]>
                 (default ∅ (merge_into (t_Annotations t) (Annotations m)))))
        m in
    (common o, common p);
  TranslateDevAnnotations m a := set_Annotations (merge_into a (Annotations m)) m;
  TranslateDevTolerations s ts := set_Tolerations (Tolerations s ++ ts) s;
  TranslatePodAffinity s name :=
    if decide (name = "") then s else
    {| Volumes := Volumes s; InitContainers := InitContainers s;
       Containers := Containers s; Tolerations := Tolerations s;
       Affinity := Some name; SecurityContext := SecurityContext s |};
  GetDevContainer s name :=
    fst <$> list_find (λ c, ContainerName c = name) (Containers s);
  TranslateDevContainer i rule :=
    with_Containers
      (alter (λ c, if decide (rule_Image rule = "") then c
                   else set_Image (rule_Image rule) c) i);
  TranslateOktetoVolumes s rule :=
    foldr (λ vm, add_Volume {| VolumeName := MountName vm; SecretName := None |})
          s (rule_Volumes rule);
  TranslatePodSecurityContext s sc :=
    match sc with
    | None => s
    | Some _ =>
        {| Volumes := Volumes s; InitContainers := InitContainers s;
           Containers := Containers s; Tolerations := Tolerations s;
           Affinity := Affinity s; SecurityContext := sc |}
    end;
  TranslateOktetoDevSecret s name secrets :=
    foldr (λ sec, add_Volume {| VolumeName := sec; SecretName := Some sec |})
          s secrets;
  TranslateOktetoBinVolumeMounts i :=
    with_Containers
      (alter (add_Mount {| MountName := "okteto-bin"; MountPath := "/var/okteto/bin" |}) i);
  TranslateOktetoInitBinContainer s :=
    if bool_decide ("okteto-bin" ∈ ContainerName <$> InitContainers s) then s
    else
      {| Volumes := Volumes s; InitContainers := InitContainers s ++ [bin_init];
         Containers := Containers s; Tolerations := Tolerations s;
         Affinity := Affinity s; SecurityContext := SecurityContext s |};
  TranslateOktetoBinVolume :=
    add_Volume {| VolumeName := "okteto-bin"; SecretName := None |}
|}.

(** The job [web] of namespace [ns1], with one container [app]. *)
Definition app : Container :=
  {| ContainerName := "app"; Image := "web:1.0"; Command := []; Args := [];
     Env := [("A", "1"); ("B", "2")]; VolumeMounts := [] |}.

Definition web_labels : smap :=
  {[ "job-name" := "web"; "controller-uid" := "7f1c"; "app" := "web" ]}.

Definition web : Job :=
  {| Meta := {| Name := "web"; Namespace := "ns1"; ResourceVersion := "4711";
                Labels := Some web_labels;
                Annotations := Some {[ revisionAnnotation := "3" ]} |};
     Spec := {| Selector := Some {| MatchLabels := Some {[ "controller-uid" := "7f1c" ]} |};
                Template :=
                  {| TemplateMeta :=
                       {| Name := ""; Namespace := ""; ResourceVersion := "";
                          Labels := Some web_labels; Annotations := None |};
                     TemplateSpec :=
                       {| Volumes := []; InitContainers := [];
                          Containers := [app]; Tolerations := [];
                          Affinity := None; SecurityContext := None |} |} |};
     Status := {| Active := 1; Succeeded := 0; Failed := 0 |} |}.

(** The same job as the cluster stores it when it carries no labels. *)
Definition bare : Job :=
  with_TemplateMeta (set_Labels None) (with_Meta (set_Labels None) web).

Definition not_found (name : string) : error :=
  ErrorS ("jobs.batch " +:+ name +:+ " not found").

Definition cluster (listed : list Job) : fake :=
  {| on_Get ns name :=
       if decide (ns = "ns1" ∧ name = "web") then inl web
       else inr (not_found name);
     on_List ns sel := if decide (ns = "ns1") then inl listed else inl [];
     on_Create ns j := inl j;
     created := 0 |}.

Definition start (c : fake) (now : Z) (stop : bool) : world fake :=
  {| heap := []; client := c; calls := []; logs := []; clock := now;
     cancelled := stop |}.

Definition dev (name container : string) (labels : gomap) : Dev :=
  {| dev_Name := name; dev_Namespace := "ns1"; dev_Container := container;
     dev_Image := "dev:latest"; dev_Labels := labels;
     dev_Annotations := None; dev_Tolerations := [] |}.

(** A network that answers dials from a script and then refuses, and
    an SSH client with fixed answers. *)
Record wire : Type := {
  dials : list (Ssh.conn + error);
  on_send : option error;
  on_close : option error
}.

Definition refused : error := ErrorS "connect: connection refused".
Definition closed_network : error :=
  ErrorS "close tcp 10.0.0.1:22: use of closed network connection".

#[export] Instance wire_net : Ssh.Net wire := {|
  Ssh.DialContext ctx network address n :=
    match dials n with
    | [] => (inr refused, n)
    | r :: rest =>
        (r, {| dials := rest; on_send := on_send n; on_close := on_close n |})
    end;
  Ssh.SetKeepAlive c on n := (None, n);
  Ssh.SetKeepAlivePeriod c d n := (None, n);
  Ssh.SendRequest c name wantReply n := (on_send n, n);
  Ssh.Close c n := (on_close n, n)
|}.

#[export] Instance errors_pkg : Ssh.ErrorsPkg := {|
  Ssh.IsClosedNetwork e :=
    match String.index 0 "use of closed network connection" (Error e) with
    | Some _ => true
    | None => false
    end
|}.

Definition handle (n : wire) : Ssh.world wire :=
  {| Ssh.p := {| Ssh.ka := 30 * Ssh.Second; Ssh.client := 1;
                 Ssh.stopped := false |};
     Ssh.net := n; Ssh.trace := [] |}.

(** A world whose heap holds the job [web] at address 0. *)
Definition resolved (now : Z) : world fake :=
  set_heap [web] (start (cluster []) now false).

(** A translation for the session [sess] with one rule, for [container]. *)
Definition session (container : string) : Translation :=
  pipeline_Translation (dev "web" container None) (dev "sess" "app" None) 0.

Definition by_label : Dev := dev "" "app" (Some {[ "app" := "web" ]}).

(** The manifest of the session [sess] with an annotation override for
    the revision, and the translation [CreateDevJob] builds from it for
    the source at address 0. *)
Definition pinned : Dev :=
  {| dev_Name := "sess"; dev_Namespace := "ns1"; dev_Container := "app";
     dev_Image := "dev:latest"; dev_Labels := None;
     dev_Annotations := Some {[ revisionAnnotation := "9" ]};
     dev_Tolerations := [] |}.

Definition pinned_session : Translation :=
  pipeline_Translation (dev "web" "app" None) pinned 0.

End Fixture.

(** ** More of the Go run time and of package [jobs], for the properties
    below *)
Module GoErrors.

(** [errors.Unwrap(err)] *)
Definition Unwrap (e : error) : option error :=
  match e with ErrorS _ => None | ErrorW _ cause => Some cause end.

End GoErrors.

Module JobsCalls.
Import K8s Model Deployments Jobs.

(** The read call [get] issues for a manifest in a namespace: by name
    when the manifest has no labels, by selector otherwise. *)
Definition read_call `{!Model.Pkg} (dev : Dev) (namespace : string) : api_call :=
  if decide (len (dev_Labels dev) = 0) then CallGet namespace (dev_Name dev)
  else CallList namespace (LabelsSelector dev).

(** The calls recorded after the first [n]. *)
Definition calls_since {C} (n : nat) (w : world C) : list api_call :=
  drop n (calls w).

End JobsCalls.

(** ** Go strings and package [strings]

    A Go string is its sequence of bytes; an index is an [int], with -1
    for "not found".  A slice expression whose bounds are out of range
    panics: [slice] then gives [None]. *)
Module Strings.

(** [len(s)] *)
Definition len (s : string) : Z := Z.of_nat (String.length s).

Fixpoint take (n : nat) (s : string) : string :=
  match n, s with
  | S n', String a s' => String a (take n' s')
  | _, _ => ""
  end.

Fixpoint drop (n : nat) (s : string) : string :=
  match n, s with
  | S n', String _ s' => drop n' s'
  | _, _ => s
  end.

(** [s[lo:hi]] *)
Definition slice (s : string) (lo hi : Z) : option string :=
  if decide (0 ≤ lo ∧ lo ≤ hi ∧ hi ≤ len s)%Z
  then Some (take (Z.to_nat (hi - lo)) (drop (Z.to_nat lo) s))
  else None.

(** The index of the first byte [c] of [s], counted from [i]. *)
Fixpoint index_from (c : Ascii.ascii) (s : string) (i : Z) : Z :=
  match s with
  | "" => -1
  | String a s' => if decide (a = c) then i else index_from c s' (i + 1)
  end.

(** [strings.IndexRune(s, r)] for a rune [r] below [utf8.RuneSelf],
    where it is the index of the first byte [r]. *)
Definition IndexRune (s : string) (r : Ascii.ascii) : Z := index_from r s 0.

(** The index of the last place where [substr] starts in [s], counted
    from [i]; [found] when there is none. *)
Fixpoint last_index_from (substr s : string) (i found : Z) : Z :=
  let found' := if String.prefix substr s then i else found in
  match s with
  | "" => found'
  | String _ s' => last_index_from substr s' (i + 1) found'
  end.

(** [strings.LastIndex(s, substr)] *)
Definition LastIndex (s substr : string) : Z :=
  last_index_from substr s 0 (-1).

(** Whether the byte [c] occurs in [s]. *)
Fixpoint mem (c : Ascii.ascii) (s : string) : bool :=
  match s with
  | "" => false
  | String a s' => if decide (a = c) then true else mem c s'
  end.

(** [strings.ContainsAny(s, chars)] for [chars] below [utf8.RuneSelf]. *)
Fixpoint ContainsAny (s chars : string) : bool :=
  match s with
  | "" => false
  | String a s' => mem a chars || ContainsAny s' chars
  end.

End Strings.

(** ** Package [build]: image names *)
Module Build.
Import Model Strings.

(** The constants of package [model] that package [build] reads, as
    parameters. *)
Class Consts : Type := {
  Localhost : string;
  DefaultImage : string
}.

Section Package.
Context `{!Consts}.

(** [GetRepoNameWithoutTag]; [None] is a panic of a slice expression. *)
Definition GetRepoNameWithoutTag (name : string) : option string :=
  let i := IndexRune name "@"%char in
  if decide (i ≠ -1)%Z then slice name 0 i
  else
    let i := IndexRune name "/"%char in
    '(domain, remainder) ←
      (if decide (i = -1)%Z then Some ("", name)
       else
         head ← slice name 0 i;
         if negb (ContainsAny head ".:") && bool_decide (head ≠ Localhost)
         then Some ("", name)
         else
           rest ← slice name (i + 1) (len name);
           Some (head, rest));
    let i := LastIndex remainder ":" in
    if decide (i = -1)%Z then Some name
    else
      repo ← slice remainder 0 i;
      if decide (domain = "") then Some repo
      else Some (domain +:+ "/" +:+ repo).

(** The two parts of [GetRepoNameWithoutTag] after the digest, each by
    itself.  The last part: the tag is cut off the remainder, and the
    domain put back. *)
Definition cut_tag (name domain remainder : string) : option string :=
  let i := LastIndex remainder ":" in
  if decide (i = -1)%Z then Some name
  else
    repo ← slice remainder 0 i;
    if decide (domain = "") then Some repo
    else Some (domain +:+ "/" +:+ repo).

(** The first part: the registry and what follows it. *)
Definition split_domain (name : string) : option (string * string) :=
  let i := IndexRune name "/"%char in
  if decide (i = -1)%Z then Some ("", name)
  else
    head ← slice name 0 i;
    if negb (ContainsAny head ".:") && bool_decide (head ≠ Localhost)
    then Some ("", name)
    else
      rest ← slice name (i + 1) (len name);
      Some (head, rest).

(** [GetImageTag] *)
Definition GetImageTag (image service namespace oktetoRegistryURL : string)
  : option string :=
  if decide (oktetoRegistryURL ≠ "") then
    if decide (image = "" ∨ image = DefaultImage) then
      Some (oktetoRegistryURL +:+ "/" +:+ namespace +:+ "/" +:+ service +:+
            ":okteto")
    else Some image
  else
    imageWithoutTag ← GetRepoNameWithoutTag image;
    Some (imageWithoutTag +:+ ":okteto").

(** [GetDevImageTag]; [dev] is a [*model.Dev], [None] when it is nil.
    The pointer is dereferenced for the arguments of the call of
    [GetImageTag], and not before: on a nil pointer that is a panic,
    [None] as for a slice expression. *)
Definition GetDevImageTag (dev : option Dev)
    (imageTag imageFromDeployment oktetoRegistryURL : string) : option string :=
  if decide (imageTag ≠ "" ∧ imageTag ≠ DefaultImage) then Some imageTag
  else
    d ← dev;
    GetImageTag imageFromDeployment (dev_Name d) (dev_Namespace d)
                oktetoRegistryURL.

End Package.

(** Values for the constants, to run the functions on. *)
Definition okteto_consts : Consts :=
  {| Localhost := "localhost"; DefaultImage := "okteto/dev:latest" |}.

End Build.

(** ** Package [regexp], the part package [build] uses

    The patterns of the package are made of literal bytes, [.] (any
    character but a newline), a negated one-byte class, concatenation,
    [*] and [+], and start with [^].  Matching is by derivatives, byte by
    byte: a character of several bytes has no newline and no space among
    its bytes, so [.] and the class take it byte by byte as they would
    take it whole. *)
Module Regexp.

Inductive re : Type :=
| Empty
| Eps
| Byte (c : ascii)
| AnyChar
| NotByte (c : ascii)
| Cat (r1 r2 : re)
| Alt (r1 r2 : re)
| Star (r : re).

Definition newline : ascii := "010"%char.

(** [r+] *)
Definition Plus (r : re) : re := Cat r (Star r).

(** A literal. *)
Fixpoint Lit (s : string) : re :=
  match s with
  | "" => Eps
  | String c s' => Cat (Byte c) (Lit s')
  end.

Fixpoint nullable (r : re) : bool :=
  match r with
  | Empty => false
  | Eps => true
  | Byte _ => false
  | AnyChar => false
  | NotByte _ => false
  | Cat r1 r2 => nullable r1 && nullable r2
  | Alt r1 r2 => nullable r1 || nullable r2
  | Star _ => true
  end.

Fixpoint deriv (c : ascii) (r : re) : re :=
  match r with
  | Empty => Empty
  | Eps => Empty
  | Byte x => if decide (c = x) then Eps else Empty
  | AnyChar => if decide (c = newline) then Empty else Eps
  | NotByte x => if decide (c = x) then Empty else Eps
  | Cat r1 r2 =>
      if nullable r1 then Alt (Cat (deriv c r1) r2) (deriv c r2)
      else Cat (deriv c r1) r2
  | Alt r1 r2 => Alt (deriv c r1) (deriv c r2)
  | Star r1 => Cat (deriv c r1) (Star r1)
  end.

(** Whether [r] matches some beginning of [s]. *)
Fixpoint matches_prefix (r : re) (s : string) : bool :=
  nullable r ||
  match s with
  | "" => false
  | String c s' => matches_prefix (deriv c r) s'
  end.

(** [regexp.MatchString("^" + r, s)] for a pattern that compiles; the
    error it returns is nil. *)
Definition MatchString (r : re) (s : string) : bool := matches_prefix r s.

(** The strings a pattern matches. *)
Inductive lang : re → string → Prop :=
| lang_Eps : lang Eps ""
| lang_Byte c : lang (Byte c) (String c "")
| lang_AnyChar c : c ≠ newline → lang AnyChar (String c "")
| lang_NotByte x c : c ≠ x → lang (NotByte x) (String c "")
| lang_Cat r1 r2 a b : lang r1 a → lang r2 b → lang (Cat r1 r2) (a +:+ b)
| lang_Alt_l r1 r2 a : lang r1 a → lang (Alt r1 r2) a
| lang_Alt_r r1 r2 a : lang r2 a → lang (Alt r1 r2) a
| lang_Star_nil r : lang (Star r) ""
| lang_Star_cons r a b : lang r a → lang (Star r) b → lang (Star r) (a +:+ b).

End Regexp.

Module StringsReplace.

(** [strings.ReplaceAll(s, old, new)] for a non-empty [old]: the
    occurrences of [old] are taken from the left and do not overlap;
    [skip] bytes of an occurrence remain to be passed over. *)
Fixpoint replace_from (old new : string) (skip : nat) (s : string) : string :=
  match s with
  | "" => ""
  | String a s' =>
      match skip with
      | S k => replace_from old new k s'
      | 0 =>
          if String.prefix old s
          then new +:+ replace_from old new (String.length old - 1) s'
          else String a (replace_from old new 0 s')
      end
  end.

Definition ReplaceAll (s old new : string) : string := replace_from old new 0 s.

(** [s] has [sub] somewhere in it. *)
Definition occurs (sub s : string) : Prop := ∃ a b, s = a +:+ sub +:+ b.

End StringsReplace.

Module BuildCache.
Import Regexp StringsReplace.

(** [^RUN.*--mount=.*type=cache] *)
Definition cache_mount : re :=
  Cat (Lit "RUN")
      (Cat (Star AnyChar)
           (Cat (Lit "--mount=") (Cat (Star AnyChar) (Lit "type=cache")))).

(** [^RUN.*--mount=id=] *)
Definition mount_id_first : re :=
  Cat (Lit "RUN") (Cat (Star AnyChar) (Lit "--mount=id=")).

(** [^RUN.*--mount=[^ ]+,id=] *)
Definition mount_id_later : re :=
  Cat (Lit "RUN")
      (Cat (Star AnyChar)
           (Cat (Lit "--mount=") (Cat (Plus (NotByte " ")) (Lit ",id=")))).

(** [translateCacheHandler] *)
Definition translateCacheHandler (input userID : string) : string :=
  if MatchString cache_mount input then
    if MatchString mount_id_first input then
      ReplaceAll input "--mount=id=" ("--mount=id=" +:+ userID +:+ "-")
    else if MatchString mount_id_later input then
      ReplaceAll input ",id=" (",id=" +:+ userID +:+ "-")
    else
      ReplaceAll input "--mount=" ("--mount=id=" +:+ userID +:+ ",")
  else input.

(** A [RUN] line with a cache mount: [RUN], then [--mount=] and then
    [type=cache] on the same line. *)
Definition cache_run (input : string) : Prop :=
  ∃ x y z,
    input = "RUN" +:+ x +:+ "--mount=" +:+ y +:+ "type=cache" +:+ z ∧
    Strings.mem newline x = false ∧ Strings.mem newline y = false.

End BuildCache.

(** ** The trace of the pool, read *)
Module SshTrace.
Import Ssh.


(** The keep-alive request on the client [c]. *)
Definition keepalive_request (c : ssh_client) : event :=
  EvSendRequest c "dev.okteto.com/keepalive" true.

(** What [getTCPConnection] does to a connection it has dialed. *)
Definition configured (c : conn) (keepAlive : Z) : list event :=
  [EvSetKeepAlive c true; EvSetKeepAlivePeriod c keepAlive].




End SshTrace.

(** ** Package [ssh]: connecting *)
Module SshConnect.
Import Ssh.

(** An [*ssh.ClientConfig] is a handle; so is what [ssh.NewClientConn]
    returns beside its error, the connection with its two channels. *)
Definition client_config : Type := nat.
Definition client_conn : Type := nat.

(** [ssh.NewClientConn], [config.GetTimeout] and [time.Now], over the
    state of the environment.  A duration and a time are integers of
    nanoseconds. *)
Class Lib (N : Type) : Type := {
  NewClientConn :
    conn → string → client_config → N → (client_conn + error) * N;
  GetTimeout : N → Z * N;
  time_Now : N → Z * N
}.

(** The case a [select] of [retryNewClientConn] takes. *)
Inductive chosen : Type :=
| on_ticker
| on_Done.

Definition is_ticker (d : Z) (e : event) : bool :=
  match e with EvNewTicker d' => bool_decide (d' = d) | _ => false end.

(** The error of a cancelled [retryNewClientConn], and the line it logs
    for an attempt that failed. *)
Definition retry_cancelled : error := Errorf "ssh.retryNewClientConn cancelled".
Definition not_ready_log (err : error) : event :=
  EvLog ("ssh is not ready yet: " +:+ Error err).

Section Package.
Context {N : Type} `{!Net N} `{!Lib N}.

(** The body of the loop of [retryNewClientConn] down to the log line:
    [inl] when it returns the connection, [inr] with [err] otherwise.
    [ssh.NewClientConn] reads the address of the connection it is given:
    on a nil connection it panics. *)
Definition attempt (ctx : context) (addr : string) (conf : client_config)
  : M (world N) (client_conn + error) :=
  d ← gets (λ w, ka (p w));
  '(c, err) ← getTCPConnection ctx addr d;
  match err with
  | Some e => mret (inr e)
  | None =>
      match c with
      | None => panic nil_deref
      | Some c => env (NewClientConn c addr conf)
      end
  end.

(** The loop over the cases its [select]s take; [None] when the caller
    is back in [select] once they are used up. *)
Fixpoint retry_for (cs : list chosen) (ctx : context) (addr : string)
    (conf : client_config) (timeout : Z)
  : M (world N) (option (option client_conn * option error)) :=
  r ← attempt ctx addr conf;
  match r with
  | inl clientConn => mret (Some (Some clientConn, None))
  | inr err =>
      log ("ssh is not ready yet: " +:+ Error err);;
      now ← env time_Now;
      if decide (timeout < now)%Z then mret (Some (None, Some err))
      else
        match cs with
        | [] => mret None
        | on_ticker :: cs' => recv_tick;; retry_for cs' ctx addr conf timeout
        | on_Done :: _ =>
            log "ssh.retryNewClientConn cancelled";;
            mret (Some (None, Some (Errorf "ssh.retryNewClientConn cancelled")))
        end
  end.

(** [retryNewClientConn]; the pool [p] is the one of the world. *)
Definition retryNewClientConn (cs : list chosen) (ctx : context)
    (addr : string) (conf : client_config)
  : M (world N) (option (option client_conn * option error)) :=
  time_NewTicker (300 * Millisecond);;
  t ← env GetTimeout;
  let to := (t `quot` 10)%Z in
  now ← env time_Now;
  let timeout := (now + to)%Z in
  log ("waiting for ssh to be ready " +:+ addr);;
  retry_for cs ctx addr conf timeout.

End Package.
End SshConnect.

(** ** More of the fixture: a cluster that is full, networks, a clock *)
Module Scenario.
Import K8s Model Jobs Fixture.

Definition quota : error :=
  ErrorS "jobs.batch is forbidden: exceeded quota".

(** The cluster of the fixture, refusing every creation. *)
Definition full : fake :=
  {| on_Get := on_Get (cluster []); on_List := on_List (cluster []);
     on_Create ns j := inr quota; created := 0 |}.

Definition web_dev : Dev := dev "web" "app" None.
Definition sess : Dev := dev "sess" "app" None.

(** The world after [get] has resolved [web_dev] on [c]. *)
Definition got (c : fake) : world fake :=
  (get web_dev "ns1"
       (log "creating job from web" (start c 1600000000 false)).2).2.

(** The world after [translate] has copied it. *)
Definition translated (c : fake) : world fake :=
  (translate 0 (pipeline_Translation web_dev sess 0) (got c)).2.

(** The copy. *)
Definition copy (c : fake) : Job := default web (heap (translated c) !! 1).

(** A network whose first dial is refused and whose second is accepted,
    and one whose client fails every request. *)
Definition flaky : wire :=
  {| dials := [inr refused; inl 7]; on_send := None; on_close := None |}.
Definition deaf : wire :=
  {| dials := []; on_send := Some (ErrorS "EOF"); on_close := None |}.

(** An SSH library that accepts a connection at the second handshake,
    and a clock that advances by a second at every reading; the state is
    the network and the clock. *)
Record env : Type := {
  wire_of : wire;
  handshakes : nat;
  clock_ns : Z
}.

#[export] Instance env_net : Ssh.Net env := {|
  Ssh.DialContext ctx network address n :=
    let '(r, n') := Ssh.DialContext ctx network address (wire_of n) in
    (r, {| wire_of := n'; handshakes := handshakes n; clock_ns := clock_ns n |});
  Ssh.SetKeepAlive c on n := (None, n);
  Ssh.SetKeepAlivePeriod c d n := (None, n);
  Ssh.SendRequest c name wantReply n := (on_send (wire_of n), n);
  Ssh.Close c n := (on_close (wire_of n), n)
|}.

#[export] Instance env_lib : SshConnect.Lib env := {|
  SshConnect.NewClientConn c addr conf n :=
    (match handshakes n with
     | 0 => inr (ErrorS "ssh: handshake failed")
     | S _ => inl 1
     end,
     {| wire_of := wire_of n; handshakes := S (handshakes n);
        clock_ns := clock_ns n |});
  SshConnect.GetTimeout n := (30 * Ssh.Second, n)%Z;
  SshConnect.time_Now n :=
    (clock_ns n,
     {| wire_of := wire_of n; handshakes := handshakes n;
        clock_ns := clock_ns n + Ssh.Second |})%Z
|}.

Definition station (dials : list (Ssh.conn + error)) : Ssh.world env :=
  {| Ssh.p := {| Ssh.ka := 30 * Ssh.Second; Ssh.client := 0;
                 Ssh.stopped := false |};
     Ssh.net := {| wire_of := {| Fixture.dials := dials; on_send := None;
                                 on_close := None |};
                   handshakes := 0; clock_ns := 0 |};
     Ssh.trace := [] |}.

End Scenario.

(** * Running the monad *)
Module GoFacts.
Section Bind.
Context {W A B : Type} (m : M W A) (k : A → M W B).

Lemma bind_Ok w a w' : m w = (Ok a, w') → (m ≫= k) w = k a w'.
Proof. intros E. unfold mbind, M_bind, bind. by rewrite E. Qed.

Lemma bind_Err w e w' : m w = (Err e, w') → (m ≫= k) w = (Err e, w').
Proof. intros E. unfold mbind, M_bind, bind. by rewrite E. Qed.

Lemma bind_Panic w s w' :
  m w = (Panic s, w') → (m ≫= k) w = (Panic s, w').
Proof. intros E. unfold mbind, M_bind, bind. by rewrite E. Qed.

Lemma bind_same (m' : M W A) w w' : m w = m' w' → (m ≫= k) w = (m' ≫= k) w'.
Proof. intros E. unfold mbind, M_bind, bind. by rewrite E. Qed.
End Bind.
End GoFacts.

(** * Properties of package [jobs] *)
Module JobsFacts.
Import K8s Model Deployments Jobs GoFacts.

Section Facts.
Context {C : Type} `{!JobsClient C} `{!Model.Pkg} `{!Deployments.Pkg}.

Implicit Types (w : world C) (j src : Job) (pre : list Job).

Local Abbreviation blind := (Jobs.blind (C := C)).

Lemma top_top pre pre' j j' w : top pre j (top pre' j' w) = top pre j w.
Proof. reflexivity. Qed.

Lemma heap_top pre j w : heap (top pre j w) = pre ++ [j].
Proof. reflexivity. Qed.

(** *** The primitives on the newest object *)

Lemma deref_top pre j w :
  deref (length pre) (top pre j w) = (Ok j, top pre j w).
Proof.
  unfold deref. rewrite heap_top, list_lookup_middle; done.
Qed.

Lemma update_top pre j f w :
  update (length pre) f (top pre j w) = (Ok tt, top pre (f j) w).
Proof.
  unfold update. erewrite bind_Ok by apply deref_top.
  unfold modify. rewrite heap_top. f_equal. unfold top, set_heap; simpl.
  f_equal. rewrite insert_app_r_alt by lia.
  by replace (length pre - length pre) with 0 by lia.
Qed.

Lemma field_top {A} pre j (f : Job → A) w :
  field (length pre) f (top pre j w) = (Ok (f j), top pre j w).
Proof. unfold field. by erewrite bind_Ok by apply deref_top. Qed.

Lemma map_assign_top pre j get set k v w :
  map_assign (length pre) get set k v (top pre j w) =
  match get j with
  | None => (Panic nil_map_write, top pre j w)
  | Some m => (Ok tt, top pre (set (Some (<[k := v]> m)) j) w)
  end.
Proof.
  unfold map_assign. erewrite bind_Ok by apply deref_top.
  destruct (get j); [apply update_top | done].
Qed.

Lemma map_delete_top pre j get set k w :
  map_delete (length pre) get set k (top pre j w) =
  (Ok tt, top pre (match get j with
                   | None => j
                   | Some m => set (Some (delete k m)) j
                   end) w).
Proof.
  unfold map_delete. erewrite bind_Ok by apply deref_top.
  destruct (get j); [apply update_top | done].
Qed.

Lemma DeepCopy_run old src w :
  heap w !! old = Some src →
  DeepCopy old w = (Ok (length (heap w)), top (heap w) src w).
Proof.
  intros E. unfold DeepCopy.
  erewrite bind_Ok; [reflexivity |]. unfold deref. by rewrite E.
Qed.

Lemma DeepCopy_nil old w :
  heap w !! old = None → DeepCopy old w = (Panic nil_deref, w).
Proof.
  intros E. unfold DeepCopy.
  erewrite bind_Panic; [reflexivity |]. unfold deref. by rewrite E.
Qed.

Ltac step :=
  first [ erewrite bind_Ok by apply deref_top
        | erewrite bind_Ok by apply update_top
        | erewrite bind_Ok by apply field_top
        | erewrite bind_Ok by apply map_delete_top
        | erewrite bind_Ok by reflexivity ];
  cbv beta.

Ltac assign_to m Hm :=
  match goal with
  | |- context [match ?g with Some _ => _ | None => _ end] =>
      replace g with (Some m) by (symmetry; exact Hm)
  end; reflexivity.

(** *** The loop over the rules *)

(** The loop works on the pod specification of the newest object and
    on nothing else; it ends normally or at the first rule whose
    container [GetDevContainer] does not find. *)
Lemma range_Rules_top t rules : ∀ pre j w,
  ∃ r j', range_Rules (length pre) t rules (top pre j w) = (r, top pre j' w)
    ∧ Meta j' = Meta j ∧ TMeta j' = TMeta j
    ∧ Selector (Spec j') = Selector (Spec j) ∧ Status j' = Status j
    ∧ (r = Ok tt ∨
       ∃ rule, rule ∈ rules ∧
               r = Err (container_not_found rule (Name (Meta j)))).
Proof.
  induction rules as [| rule rest IH]; intros pre j w.
  { exists (Ok tt), j. repeat split; auto. }
  cbn [range_Rules]. step.
  destruct (GetDevContainer (TSpec j) (rule_Container rule)) as [dc |] eqn:E.
  2:{ exists (Err (container_not_found rule (Name (Meta j)))), j.
      repeat split; auto. right. exists rule. split; [left | done]. }
  do 4 step.
  match goal with
  | |- context [top pre ?j1 w] =>
      assert (∃ j2, Meta j2 = Meta j ∧ TMeta j2 = TMeta j
                    ∧ Selector (Spec j2) = Selector (Spec j)
                    ∧ Status j2 = Status j ∧
                ∀ k : unit → M (world C) unit,
                  ((if decide (rule_Marker rule ≠ "") then
                      update (length pre)
                        (with_TemplateSpec
                           (TranslateOktetoBinVolumeMounts dc));;
                      update (length pre)
                        (with_TemplateSpec TranslateOktetoInitBinContainer);;
                      update (length pre)
                        (with_TemplateSpec TranslateOktetoBinVolume)
                    else mret tt) ≫= k)
                    (top pre j1 w) = k tt (top pre j2 w))
        as (j2 & M1 & M2 & M3 & M4 & Run)
  end.
  { destruct (decide (rule_Marker rule ≠ "")).
    - eexists. split_and!; [| | | | intros k];
        [| | | | erewrite bind_Ok; [reflexivity |]; do 2 step;
                 apply update_top]; done.
    - eexists. split_and!; [| | | | intros k; by step]; done. }
  rewrite Run.
  destruct (IH pre j2 w) as (r & j' & R & N1 & N2 & N3 & N4 & Res).
  exists r, j'. rewrite R. split_and!; try congruence.
  destruct Res as [-> | (rule' & In' & ->)]; [by left | right].
  exists rule'. split; [by right |]. by rewrite M1.
Qed.

(** The first rule whose container is missing stops the loop at once;
    the object is as it was. *)
Lemma range_Rules_missing t rule rest pre j w :
  GetDevContainer (TSpec j) (rule_Container rule) = None →
  range_Rules (length pre) t (rule :: rest) (top pre j w) =
  (Err (container_not_found rule (Name (Meta j))), top pre j w).
Proof. intros E. cbn [range_Rules]. step. by rewrite E. Qed.

(** *** [translate] up to the loop *)

Lemma overridden_eq t j :
  with_TemplateSpec
    (λ s, set_Tolerations (Tolerations s ++ t_Tolerations t) s)
    (with_TemplateSpec (λ s, TranslatePodAffinity s (t_Name t))
       (with_TemplateSpec (λ s, TranslateDevTolerations s (t_Tolerations t))
          (with_TemplateMeta
             (λ m, TranslateDevAnnotations m (t_Annotations t))
             (let '(o, p) := CommonTranslation t (Meta j) (TMeta j) in
              with_TemplateMeta (λ _, p) (with_Meta (λ _, o) j))))) =
  overridden t j.
Proof.
  unfold overridden. destruct (CommonTranslation t (Meta j) (TMeta j)).
  by destruct j as [m [sel [tm ts]] st].
Qed.

Lemma translate_prefix old t w src l tl :
  heap w !! old = Some src →
  Labels (Meta src) = Some l →
  Labels (TMeta src) = Some tl →
  translate old t w =
  (range_Rules (length (heap w)) t (t_Rules t);; mret (length (heap w)))
    (top (heap w)
         (overridden t (stripped src (derived_name src (clock w)) l tl)) w).
Proof.
  intros Hsrc Hl Htl. unfold translate.
  erewrite bind_Ok by (by apply DeepCopy_run). cbv beta.
  do 6 step.
  erewrite bind_Ok; [| rewrite map_assign_top; assign_to l Hl].
  do 3 step.
  erewrite bind_Ok; [| rewrite map_assign_top; assign_to tl Htl].
  do 7 step.
  rewrite overridden_eq. do 3 f_equal.
  destruct src as [[n ns rv lb an] [sel [[tn tns trv tlb tan] ts]] st].
  cbn in Hl, Htl. subst lb tlb.
  unfold stripped, derived_name, stripped_labels.
  destruct an; reflexivity.
Qed.

(** *** [translate] on a source without labels, or without a source *)

Lemma translate_nil_pointer old t w :
  heap w !! old = None → translate old t w = (Panic nil_deref, w).
Proof.
  intros E. unfold translate. by erewrite bind_Panic by (by apply DeepCopy_nil).
Qed.

Lemma translate_nil_Labels old t w src :
  heap w !! old = Some src →
  Labels (Meta src) = None →
  ∃ j', translate old t w = (Panic nil_map_write, top (heap w) j' w).
Proof.
  intros Hsrc Hl. unfold translate.
  erewrite bind_Ok by (by apply DeepCopy_run). cbv beta.
  do 6 step. eexists.
  erewrite bind_Panic; [reflexivity |].
  rewrite map_assign_top.
  match goal with
  | |- context [match ?g with Some _ => _ | None => _ end] =>
      replace g with (@None smap) by (symmetry; exact Hl)
  end.
  reflexivity.
Qed.

Lemma translate_nil_Template_Labels old t w src l :
  heap w !! old = Some src →
  Labels (Meta src) = Some l →
  Labels (TMeta src) = None →
  ∃ j', translate old t w = (Panic nil_map_write, top (heap w) j' w).
Proof.
  intros Hsrc Hl Htl. unfold translate.
  erewrite bind_Ok by (by apply DeepCopy_run). cbv beta.
  do 6 step.
  erewrite bind_Ok; [| rewrite map_assign_top; assign_to l Hl].
  do 3 step. eexists.
  erewrite bind_Panic; [reflexivity |].
  rewrite map_assign_top.
  match goal with
  | |- context [match ?g with Some _ => _ | None => _ end] =>
      replace g with (@None smap) by (symmetry; exact Htl)
  end.
  reflexivity.
Qed.

(** *** [translate] as a whole

    On a source with both label maps, [translate] leaves a world
    that differs from the one it started in by one new object, the
    copy; the copy has the metadata, selector and status it had when
    the loop over the rules started. *)
Lemma translate_run old t w src l tl :
  heap w !! old = Some src →
  Labels (Meta src) = Some l →
  Labels (TMeta src) = Some tl →
  let j1 := overridden t (stripped src (derived_name src (clock w)) l tl) in
  ∃ r j', translate old t w = (r, top (heap w) j' w)
    ∧ Meta j' = Meta j1 ∧ TMeta j' = TMeta j1
    ∧ Selector (Spec j') = None ∧ Status j' = JobStatus_zero
    ∧ (r = Ok (length (heap w)) ∨
       ∃ rule, rule ∈ t_Rules t ∧
               r = Err (container_not_found rule (Name (Meta j1)))).
Proof.
  intros Hsrc Hl Htl j1.
  rewrite (translate_prefix _ _ _ _ _ _ Hsrc Hl Htl). fold j1.
  destruct (range_Rules_top t (t_Rules t) (heap w) j1 w)
    as (r & j' & R & N1 & N2 & N3 & N4 & Res).
  destruct Res as [-> | (rule & In & ->)].
  - exists (Ok (length (heap w))), j'.
    erewrite bind_Ok by exact R. split_and!; auto.
  - eexists _, j'. erewrite bind_Err by exact R. split_and!; eauto.
Qed.

(** The worlds [translate] can leave: the one it started in, or that
    one with one more object. *)
Lemma translate_world old t w :
  (translate old t w).2 = w ∨
  ∃ j', (translate old t w).2 = top (heap w) j' w.
Proof.
  destruct (heap w !! old) as [src |] eqn:Hsrc.
  2:{ left. by rewrite translate_nil_pointer. }
  right. destruct (Labels (Meta src)) as [l |] eqn:Hl.
  2:{ destruct (translate_nil_Labels old t w src Hsrc Hl) as [j' ->]. eauto. }
  destruct (Labels (TMeta src)) as [tl |] eqn:Htl.
  2:{ destruct (translate_nil_Template_Labels old t w src l Hsrc Hl Htl)
        as [j' ->]. eauto. }
  destruct (translate_run old t w src l tl Hsrc Hl Htl)
    as (r & j' & -> & _). eauto.
Qed.

(** Whatever [translate] returns as a pointer is the new object. *)
Lemma translate_Ok_inv old t w new w' :
  translate old t w = (Ok new, w') →
  ∃ src l tl j',
    heap w !! old = Some src ∧ Labels (Meta src) = Some l
    ∧ Labels (TMeta src) = Some tl
    ∧ new = length (heap w) ∧ w' = top (heap w) j' w
    ∧ Meta j' = Meta (overridden t (stripped src (derived_name src (clock w)) l tl))
    ∧ TMeta j' = TMeta (overridden t (stripped src (derived_name src (clock w)) l tl))
    ∧ Selector (Spec j') = None ∧ Status j' = JobStatus_zero.
Proof.
  intros E.
  destruct (heap w !! old) as [src |] eqn:Hsrc.
  2:{ by rewrite translate_nil_pointer in E. }
  destruct (Labels (Meta src)) as [l |] eqn:Hl.
  2:{ destruct (translate_nil_Labels old t w src Hsrc Hl) as [j' E'].
      congruence. }
  destruct (Labels (TMeta src)) as [tl |] eqn:Htl.
  2:{ destruct (translate_nil_Template_Labels old t w src l Hsrc Hl Htl)
        as [j' E']. congruence. }
  destruct (translate_run old t w src l tl Hsrc Hl Htl)
    as (r & j' & R & N1 & N2 & N3 & N4 & Res).
  rewrite R in E. injection E as -> <-.
  exists src, l, tl, j'. split_and!; auto.
  destruct Res as [Eq | (rule & _ & Eq)]; congruence.
Qed.

(** With every container found, [translate] returns the copy. *)
Lemma translate_Ok old t w src :
  heap w !! old = Some src →
  Labels (Meta src) ≠ None → Labels (TMeta src) ≠ None →
  (∀ s rule, rule ∈ t_Rules t →
             GetDevContainer s (rule_Container rule) ≠ None) →
  (translate old t w).1 = Ok (length (heap w)).
Proof.
  intros Hsrc Hl Htl Found.
  destruct (Labels (Meta src)) as [l |] eqn:El; [| done].
  destruct (Labels (TMeta src)) as [tl |] eqn:Etl; [| done].
  rewrite (translate_prefix _ _ _ _ _ _ Hsrc El Etl).
  generalize (overridden t (stripped src (derived_name src (clock w)) l tl)).
  revert Found. generalize (t_Rules t) as rules.
  induction rules as [| rule rest IH]; intros Found j.
  { by erewrite bind_Ok by reflexivity. }
  unfold mbind at 1, M_bind, bind. cbn [range_Rules]. step.
  destruct (GetDevContainer (TSpec j) (rule_Container rule)) as [dc |] eqn:E.
  2:{ exfalso. eapply Found; [left | exact E]. }
  do 4 step.
  assert (Rest : ∀ rule', rule' ∈ rest →
            ∀ s, GetDevContainer s (rule_Container rule') ≠ None).
  { intros rule' In' s. apply Found. by right. }
  destruct (decide (rule_Marker rule ≠ "")).
  - erewrite bind_Ok;
      [| erewrite bind_Ok by apply update_top; cbv beta;
         erewrite bind_Ok by apply update_top; cbv beta; apply update_top].
    cbv beta. specialize (IH (λ s r In', Rest r In' s)).
    unfold mbind at 1, M_bind, bind in IH. apply IH.
  - step. specialize (IH (λ s r In', Rest r In' s)).
    unfold mbind at 1, M_bind, bind in IH. apply IH.
Qed.

Lemma stripped_labels_job_name name l :
  stripped_labels name l !! "job-name" = Some name.
Proof.
  unfold stripped_labels.
  rewrite lookup_delete_ne by done. apply lookup_insert_eq.
Qed.

Lemma stripped_labels_controller_uid name l :
  stripped_labels name l !! "controller-uid" = None.
Proof. apply lookup_delete_eq. Qed.

Lemma stripped_revision (a : gomap) :
  map_get (delete revisionAnnotation <$> a) revisionAnnotation = None.
Proof. destruct a; [apply lookup_delete_eq | done]. Qed.

(** *** The name of the copy *)

(** On a source with both label maps, [translate] returns the copy or
    the error of a missing container; the copy is the newest object of
    the heap. *)
Lemma translate_cases old t w src :
  heap w !! old = Some src →
  Labels (Meta src) ≠ None →
  Labels (TMeta src) ≠ None →
  ∃ l tl j',
    Labels (Meta src) = Some l ∧ Labels (TMeta src) = Some tl ∧
    let j1 := overridden t (stripped src (derived_name src (clock w)) l tl) in
    Meta j' = Meta j1 ∧ TMeta j' = TMeta j1 ∧
    Selector (Spec j') = None ∧ Status j' = JobStatus_zero ∧
    (translate old t w).2 = top (heap w) j' w ∧
    heap (translate old t w).2 !! length (heap w) = Some j' ∧
    ((translate old t w).1 = Ok (length (heap w)) ∨
     ∃ rule, rule ∈ t_Rules t ∧
             (translate old t w).1 =
             Err (container_not_found rule (Name (Meta j1)))).
Proof.
  intros Hsrc Hl Htl.
  destruct (Labels (Meta src)) as [l |] eqn:El; [| done].
  destruct (Labels (TMeta src)) as [tl |] eqn:Etl; [| done].
  destruct (translate_run old t w src l tl Hsrc El Etl)
    as (r & j' & R & N1 & N2 & N3 & N4 & Res).
  exists l, tl, j'. rewrite R. cbn [fst snd]. split_and!; try done.
  rewrite heap_top. by apply list_lookup_middle.
Qed.

(** C3 (as amended).  On a source with both label maps, the name
    [translate] generates is the prefix [okteto], then the name of the
    source job, then the clock reading in seconds since the epoch, joined
    by dashes; the session name [t_Name t] takes no part in it.  It is the
    name of the copy that [translate] returns, and the name in the error of
    a missing container.  ([CommonTranslation] is taken to leave the name
    of the object alone.) *)
Theorem translate_name old t w src :
  (∀ o p, Name (CommonTranslation t o p).1 = Name o) →
  heap w !! old = Some src →
  Labels (Meta src) ≠ None →
  Labels (TMeta src) ≠ None →
  let name := "okteto-" +:+ Name (Meta src) +:+ "-" +:+ pretty (clock w) in
  (∃ new j,
     (translate old t w).1 = Ok new ∧
     heap (translate old t w).2 !! new = Some j ∧
     Name (Meta j) = name) ∨
  (∃ rule,
     rule ∈ t_Rules t ∧
     (translate old t w).1 = Err (container_not_found rule name)).
Proof.
  intros Keep Hsrc Hl Htl name.
  destruct (translate_cases old t w src Hsrc Hl Htl)
    as (l & tl & j' & _ & _ & N1 & _ & _ & _ & _ & Top & Res).
  cbn zeta in N1, Res. unfold overridden in N1, Res. cbn [Meta] in N1, Res.
  rewrite Keep in Res. cbn [stripped Meta Name] in Res.
  destruct Res as [R | (rule & In & R)].
  - left. exists (length (heap w)), j'. split_and!; [done | done |].
    rewrite N1, Keep. reflexivity.
  - right. exists rule. by split.
Qed.

(** The name of a copy that [translate] returns. *)
Lemma translate_Ok_name old t w new w' :
  (∀ o p, Name (CommonTranslation t o p).1 = Name o) →
  translate old t w = (Ok new, w') →
  ∃ src j,
    heap w !! old = Some src ∧ heap w' !! new = Some j ∧
    Name (Meta j) = derived_name src (clock w).
Proof.
  intros Keep E.
  destruct (translate_Ok_inv _ _ _ _ _ E)
    as (src & l & tl & j' & Hsrc & _ & _ & -> & -> & N1 & _).
  exists src, j'. split_and!; [done | |].
  - rewrite heap_top. by apply list_lookup_middle.
  - rewrite N1. unfold overridden. cbn [Meta]. by rewrite Keep.
Qed.

(** C6.  Two runs of [translate] on the same source with the same
    translation, at clock readings that differ (in whole seconds), give
    copies with different names. *)
Theorem translate_names_differ old t w1 w2 new1 new2 w1' w2' j1 j2 :
  (∀ o p, Name (CommonTranslation t o p).1 = Name o) →
  heap w1 !! old = heap w2 !! old →
  clock w1 ≠ clock w2 →
  translate old t w1 = (Ok new1, w1') →
  translate old t w2 = (Ok new2, w2') →
  heap w1' !! new1 = Some j1 →
  heap w2' !! new2 = Some j2 →
  Name (Meta j1) ≠ Name (Meta j2).
Proof.
  intros Keep Same Diff E1 E2 H1 H2.
  destruct (translate_Ok_name _ _ _ _ _ Keep E1) as (s1 & k1 & S1 & K1 & N1).
  destruct (translate_Ok_name _ _ _ _ _ Keep E2) as (s2 & k2 & S2 & K2 & N2).
  assert (s1 = s2) as <- by congruence.
  assert (k1 = j1) as -> by congruence.
  assert (k2 = j2) as -> by congruence.
  rewrite N1, N2. unfold derived_name. intros Eq. apply Diff.
  do 3 apply String.app_inj in Eq.
  by apply (inj pretty).
Qed.

(** *** The identity of the copy *)

(** What [stripped] makes of a source. *)
Lemma stripped_identity src name l tl :
  identity_stripped (stripped src name l tl) name.
Proof.
  unfold identity_stripped. split_and!; try done.
  - apply stripped_revision.
  - apply stripped_labels_controller_uid.
  - apply stripped_labels_controller_uid.
  - apply stripped_labels_job_name.
  - apply stripped_labels_job_name.
Qed.

(** What the rule functions leave of it, on a translation on which they
    keep the identity. *)
Lemma overridden_identity t j' s name :
  keeps_identity t →
  identity_stripped s name →
  Meta j' = (CommonTranslation t (Meta s) (TMeta s)).1 →
  TMeta j' =
    TranslateDevAnnotations (CommonTranslation t (Meta s) (TMeta s)).2
                            (t_Annotations t) →
  Selector (Spec j') = None →
  Status j' = JobStatus_zero →
  identity_stripped j' name.
Proof.
  intros K (S1 & _ & S3 & _ & S5 & S6 & S7 & S8 & S9) N1 N2 N3 N4.
  unfold identity_stripped. rewrite N1, N2.
  split_and!; try done.
  - by rewrite (CommonTranslation_Name t K).
  - by rewrite (CommonTranslation_ResourceVersion t K).
  - by rewrite (CommonTranslation_revision t K).
  - by rewrite (CommonTranslation_Labels t K) by auto.
  - rewrite (TranslateDevAnnotations_Labels t K) by auto.
    by rewrite (CommonTranslation_Template_Labels t K) by auto.
  - by rewrite (CommonTranslation_Labels t K) by auto.
  - rewrite (TranslateDevAnnotations_Labels t K) by auto.
    by rewrite (CommonTranslation_Template_Labels t K) by auto.
Qed.

(** C4 (as amended).  On a source with both label maps, [translate]
    strips the copy of the identity of the source before it hands it to
    the rule functions: the copy [s] it hands on has the empty status, an
    empty resource version, no revision annotation, a nil selector, no
    [controller-uid] label on the object and on its pod template, and
    the newly generated name as its name and as the [job-name] label of
    both.  It returns a copy or the error of a missing container.  In the
    copy it returns, the status and the selector are as stripped,
    whatever the translation and its rules; the metadata of the object is
    what [CommonTranslation] made of the stripped metadata, and the
    metadata of the pod template what [CommonTranslation] and then
    [TranslateDevAnnotations] made of it.  So the copy returned is
    stripped in full when these two keep the identity on this
    translation, and not whatever the translation: they run after the
    stripping, and what they write stays. *)
Theorem translate_clears_identity old t w src :
  heap w !! old = Some src →
  Labels (Meta src) ≠ None →
  Labels (TMeta src) ≠ None →
  ∃ s,
    identity_stripped s (derived_name src (clock w)) ∧
    ((∃ new j,
        (translate old t w).1 = Ok new ∧
        heap (translate old t w).2 !! new = Some j ∧
        Status j = JobStatus_zero ∧
        Selector (Spec j) = None ∧
        Meta j = (CommonTranslation t (Meta s) (TMeta s)).1 ∧
        TMeta j =
          TranslateDevAnnotations (CommonTranslation t (Meta s) (TMeta s)).2
                                  (t_Annotations t) ∧
        (keeps_identity t →
         identity_stripped j (derived_name src (clock w)))) ∨
     (∃ rule jobName,
        rule ∈ t_Rules t ∧
        (translate old t w).1 = Err (container_not_found rule jobName))).
Proof.
  intros Hsrc Hl Htl.
  destruct (translate_cases old t w src Hsrc Hl Htl)
    as (l & tl & j' & _ & _ & N1 & N2 & N3 & N4 & _ & Top & Res).
  cbn zeta in N1, N2.
  exists (stripped src (derived_name src (clock w)) l tl).
  split; [apply stripped_identity |].
  destruct Res as [R | (rule & In & R)]; [left | right; eauto].
  exists (length (heap w)), j'.
  split_and!; [done | done | done | done | exact N1 | exact N2 |].
  intros K. eapply overridden_identity;
    [exact K | apply stripped_identity | exact N1 | exact N2 | done | done].
Qed.

(** *** The source *)

(** C5.  [translate] never writes to the source: whatever it returns
    (a copy, an error or a panic), the object behind [old] is after
    the call what it was before, and so is every object that existed
    before the call; a pointer it returns is to an object that did
    not exist before, so it is not the source. *)
Theorem translate_keeps_source old t w :
  heap (translate old t w).2 !! old = heap w !! old ∧
  (∀ q j, heap w !! q = Some j → heap (translate old t w).2 !! q = Some j) ∧
  (∀ new, (translate old t w).1 = Ok new →
          new ≠ old ∧ heap w !! new = None).
Proof.
  assert (Old : ∀ q j j', heap w !! q = Some j →
                          heap (top (heap w) j' w) !! q = Some j).
  { intros q j j' E. rewrite heap_top. by apply lookup_app_l_Some. }
  split_and!.
  - destruct (heap w !! old) as [src |] eqn:E.
    + destruct (translate_world old t w) as [-> | [j' ->]]; [done |].
      by apply Old.
    + by rewrite translate_nil_pointer.
  - intros q j E.
    destruct (translate_world old t w) as [-> | [j' ->]]; [done |].
    by apply Old.
  - intros new E.
    destruct (translate old t w) as [r w'] eqn:R. cbn in E. subst r.
    destruct (translate_Ok_inv _ _ _ _ _ R)
      as (src & _ & _ & _ & Hsrc & _ & _ & -> & _).
    split.
    + intros <-. apply lookup_lt_Some in Hsrc. lia.
    + by apply lookup_ge_None.
Qed.

(** *** Sources without labels *)

(** C9.  For a source that exists, [translate] panics with a write to
    a nil map exactly when the label map of the object or that of its
    pod template is nil; with both maps present it returns the copy
    or the error of a missing container, and never panics. *)
Theorem translate_total_iff_labels old t w src :
  heap w !! old = Some src →
  (Labels (Meta src) = None ∨ Labels (TMeta src) = None →
   (translate old t w).1 = Panic nil_map_write) ∧
  (Labels (Meta src) ≠ None → Labels (TMeta src) ≠ None →
   (translate old t w).1 = Ok (length (heap w)) ∨
   ∃ rule jobName,
     rule ∈ t_Rules t ∧
     (translate old t w).1 = Err (container_not_found rule jobName)).
Proof.
  intros Hsrc. split.
  - intros Nil.
    destruct (Labels (Meta src)) as [l |] eqn:Hl.
    + destruct Nil as [| Htl]; [done |].
      by destruct (translate_nil_Template_Labels old t w src l Hsrc Hl Htl)
        as [j' ->].
    + by destruct (translate_nil_Labels old t w src Hsrc Hl) as [j' ->].
  - intros Hl Htl.
    destruct (Labels (Meta src)) as [l |] eqn:El; [| done].
    destruct (Labels (TMeta src)) as [tl |] eqn:Etl; [| done].
    destruct (translate_run old t w src l tl Hsrc El Etl)
      as (r & j' & -> & _ & _ & _ & _ & [-> | (rule & In & ->)]);
      [by left | right; eauto].
Qed.

(** *** [get] *)

(** [get] issues reads only: the creation calls recorded are those
    recorded before. *)
Lemma get_no_create dev ns w :
  filter is_create (calls (get dev ns w).2) = filter is_create (calls w).
Proof.
  unfold get.
  destruct (decide (ns = "")); [done |].
  destruct (decide (len (dev_Labels dev) = 0)).
  - unfold api_Get, record, call, mbind, M_bind, bind, modify. cbn.
    destruct (Jobs_Get ns (dev_Name dev) (client w)) as [[j | err] c]; cbn;
      by rewrite filter_app, app_nil_r.
  - unfold api_List, record, call, mbind, M_bind, bind, modify. cbn.
    destruct (Jobs_List ns (LabelsSelector dev) (client w))
      as [[items | err] c]; cbn.
    2:{ by rewrite filter_app, app_nil_r. }
    destruct (decide (length items = 0));
      [cbn; by rewrite filter_app, app_nil_r |].
    destruct (decide (1 < length items));
      [cbn; by rewrite filter_app, app_nil_r |].
    destruct (items !! 0); cbn; by rewrite filter_app, app_nil_r.
Qed.

(** C1.  A query by labels in a namespace: when the list of matching
    jobs has exactly one element, [get] returns that job; when it is
    empty, [get] returns the error [jobs for labels '<selector>' not
    found]; when it has [N > 1] elements, [get] returns the error
    [Found '<N>' jobs for labels '<selector>' instead of 1] and none
    of the candidates. *)
Theorem get_by_labels dev ns w items c' :
  ns ≠ "" →
  len (dev_Labels dev) ≠ 0 →
  Jobs_List ns (LabelsSelector dev) (client w) = (inl items, c') →
  match items with
  | [] =>
      (get dev ns w).1 =
      Err (Errorf ("jobs for labels '" +:+ LabelsSelector dev +:+
                   "' not found"))
  | [j] =>
      ∃ q, (get dev ns w).1 = Ok q ∧ heap (get dev ns w).2 !! q = Some j
  | _ :: _ :: _ =>
      (get dev ns w).1 =
      Err (Errorf ("Found '" +:+ pretty (length items) +:+
                   "' jobs for labels '" +:+ LabelsSelector dev +:+
                   "' instead of 1"))
  end.
Proof.
  intros Hns Hlen Hlist. unfold get.
  destruct (decide (ns = "")); [done |].
  destruct (decide (len (dev_Labels dev) = 0)); [done |].
  unfold api_List, record, call, mbind, M_bind, bind, modify. cbn.
  rewrite Hlist. cbn.
  destruct items as [| j [| j' rest]]; cbn.
  - done.
  - exists (length (heap w)). split; [done |].
    by apply list_lookup_middle.
  - destruct (decide (1 < S (S (length rest)))); [done | lia].
Qed.

(** *** [CreateDevJob] *)

(** C2.  Once [get] has resolved the source, if the container of the
    rule is not found in the pod template of the copy, [CreateDevJob]
    returns the error [Container '<name>' not found in job '<job>'];
    no creation call is recorded, and the client of the cluster is in
    the state in which [get] left it. *)
Theorem CreateDevJob_missing_container job main w q w1 src :
  let rule := ToTranslationRule job main in
  let t := pipeline_Translation job main q in
  get job (dev_Namespace main)
      (log ("creating job from " +:+ dev_Name job) w).2 = (Ok q, w1) →
  heap w1 !! q = Some src →
  Labels (Meta src) ≠ None →
  Labels (TMeta src) ≠ None →
  GetDevContainer (derived_TSpec t (TSpec src)) (rule_Container rule) = None →
  ∃ jobName w2,
    CreateDevJob job main w = (Err (container_not_found rule jobName), w2) ∧
    filter is_create (calls w2) = filter is_create (calls w) ∧
    calls w2 = calls w1 ∧
    client w2 = client w1.
Proof.
  intros rule t Hget Hsrc Hl Htl Hmiss.
  destruct (Labels (Meta src)) as [l |] eqn:El; [| done].
  destruct (Labels (TMeta src)) as [tl |] eqn:Etl; [| done].
  set (j1 := overridden t (stripped src (derived_name src (clock w1)) l tl)).
  exists (Name (Meta j1)), (top (heap w1) j1 w1).
  split_and!; [| | done | done].
  - unfold CreateDevJob. erewrite bind_Ok by reflexivity. cbv beta.
    erewrite bind_Ok by exact Hget. cbv beta zeta.
    erewrite bind_Err; [reflexivity |].
    fold (pipeline_Translation job main q). fold t.
    rewrite (translate_prefix _ _ _ _ _ _ Hsrc El Etl). fold j1.
    erewrite bind_Err; [reflexivity |].
    unfold t at 1. cbn [t_Rules pipeline_Translation]. fold rule.
    apply range_Rules_missing. exact Hmiss.
  - cbn [calls top set_heap].
    pose proof (get_no_create job (dev_Namespace main)
                  (log ("creating job from " +:+ dev_Name job) w).2) as G.
    rewrite Hget in G. exact G.
Qed.

(** *** Cancellation *)

Lemma blind_ret {A} (a : A) : blind (mret a).
Proof. by intros b w. Qed.

Lemma blind_throw {A} e : blind (@throw (world C) A e).
Proof. by intros b w. Qed.

Lemma blind_panic {A} s : blind (@panic (world C) A s).
Proof. by intros b w. Qed.

Lemma blind_bind {A B} (m : M (world C) A) (k : A → M (world C) B) :
  blind m → (∀ a, blind (k a)) → blind (m ≫= k).
Proof.
  intros Hm Hk b w. unfold mbind, M_bind, bind. rewrite Hm.
  destruct (m w) as [[a | e | s] w1]; cbn; [apply Hk | done | done].
Qed.

Lemma blind_deref q : blind (deref q).
Proof. intros b w. unfold deref. cbn. by destruct (heap w !! q). Qed.

Lemma blind_new j : blind (new j).
Proof. by intros b w. Qed.

Lemma blind_update q f : blind (update q f).
Proof.
  apply blind_bind; [apply blind_deref |]. by intros j b w.
Qed.

Lemma blind_field {A} q (f : Job → A) : blind (field q f).
Proof.
  apply blind_bind; [apply blind_deref |]. intros j. apply blind_ret.
Qed.

Lemma blind_map_assign q g s k v : blind (map_assign q g s k v).
Proof.
  apply blind_bind; [apply blind_deref |]. intros j.
  destruct (g j); [apply blind_update | apply blind_panic].
Qed.

Lemma blind_map_delete q g s k : blind (map_delete q g s k).
Proof.
  apply blind_bind; [apply blind_deref |]. intros j.
  destruct (g j); [apply blind_update | apply blind_ret].
Qed.

Lemma blind_log msg : blind (log msg).
Proof. by intros b w. Qed.

Lemma blind_record c : blind (record c).
Proof. by intros b w. Qed.

Lemma blind_call {A} (f : C → (A + error) * C) : blind (call f).
Proof. intros b w. unfold call. cbn. by destruct (f (client w)). Qed.

Lemma blind_time : blind time_Now_Unix.
Proof. by intros b w. Qed.

Create HintDb blind.
Hint Resolve blind_ret blind_throw blind_panic blind_deref blind_new
  blind_update blind_field blind_map_assign blind_map_delete blind_log
  blind_record blind_call blind_time : blind.

Ltac blind_steps :=
  repeat first
    [ progress auto with blind
    | apply blind_bind; [| intros ?]
    | match goal with
      | |- blind (if ?c then _ else _) => destruct c
      | |- blind (match ?x with _ => _ end) => destruct x
      end ].

Lemma blind_get dev ns : blind (get dev ns).
Proof. unfold get, api_Get, api_List. blind_steps. Qed.

Lemma blind_range_Rules q t rules : blind (range_Rules q t rules).
Proof.
  induction rules as [| rule rest IH]; cbn [range_Rules]; blind_steps.
Qed.

Lemma blind_DeepCopy old : blind (DeepCopy old).
Proof. unfold DeepCopy. blind_steps. Qed.

Lemma blind_translate old t : blind (translate old t).
Proof.
  unfold translate.
  pose proof blind_range_Rules. pose proof blind_DeepCopy.
  blind_steps.
Qed.

(** C7 (as amended).  [CreateDevJob] takes no cancellation signal and
    reads none: with the signal set or not, it returns the same
    result, issues the same calls on the cluster and leaves the same
    heap, log and client. *)
Theorem CreateDevJob_blind_to_cancellation job main b w :
  CreateDevJob job main (set_cancelled b w) =
  ((CreateDevJob job main w).1,
   set_cancelled b (CreateDevJob job main w).2).
Proof.
  revert b w. change (blind (CreateDevJob job main)).
  unfold CreateDevJob, api_Create.
  pose proof blind_get. pose proof blind_translate.
  blind_steps.
Qed.

End Facts.
End JobsFacts.

(** * Properties of package [ssh] *)
Module SshFacts.
Import Ssh GoFacts.

Section Facts.
Context {N : Type} `{!Net N} `{!ErrorsPkg}.

Implicit Types (w : world N) (errs : list error).

(** *** [getConn] *)

Lemma dials_of_failed_attempts serverAddr errs :
  length (filter is_dial (errs ≫= failed_attempt serverAddr)) = length errs.
Proof.
  induction errs as [| e errs IH]; [done |].
  change ((e :: errs) ≫= failed_attempt serverAddr)
    with (failed_attempt serverAddr e ++ (errs ≫= failed_attempt serverAddr)).
  by rewrite filter_app, length_app, IH.
Qed.

(** The loop with [n] iterations left: it dials until a dial succeeds
    or the iterations are used up.  [errs] are the errors of the dials
    that failed, in order. *)
Lemma getConn_for_run n ctx serverAddr : ∀ lastErr w,
  ∃ errs,
    let evs := errs ≫= failed_attempt serverAddr in
    let r := getConn_for n ctx serverAddr lastErr w in
    (∃ c, length errs < n ∧ r.1 = Ok (Some c, None) ∧
          trace r.2 = trace w ++ evs ++ [EvDial "tcp" serverAddr (inl c)]) ∨
    (length errs = n ∧
     r.1 = Ok (None, match last errs with Some e => Some e | None => lastErr end) ∧
     trace r.2 = trace w ++ evs).
Proof.
  induction n as [| n IH]; intros lastErr w.
  { exists []. right. cbn. by rewrite app_nil_r. }
  cbn [getConn_for].
  unfold dial, env, emit, recv_tick, mbind, M_bind, bind, modify. cbn.
  destruct (DialContext ctx "tcp" serverAddr (net w)) as [[c | e] n1] eqn:D;
    cbn.
  { exists []. left. exists c. split_and!; [cbn; lia | done..]. }
  match goal with
  | |- context [getConn_for n ctx serverAddr (Some e) ?w1] =>
      destruct (IH (Some e) w1) as [errs Cases]
  end.
  exists (e :: errs). cbn in Cases. cbn.
  destruct Cases as [(c & Lt & R & T) | (Len & R & T)].
  - left. exists c. split_and!.
    + lia.
    + exact R.
    + rewrite T. by rewrite <- !app_assoc.
  - right. split_and!.
    + lia.
    + rewrite R. destruct errs as [| e' errs']; [done |].
      rewrite last_cons_cons.
      destruct (last (e' :: errs')) eqn:L; [done |].
      by apply last_None in L.
    + rewrite T. by rewrite <- !app_assoc.
Qed.

(** C10.  [getConn] does not look at [maxRetries]: for any two values
    of it the call is the same.  It starts a ticker of 100 ms and dials
    at most five times, waiting for a tick after each dial that fails;
    it returns the connection of the first dial that succeeds, or,
    when five dials have failed, the error of the last one. *)
Theorem getConn_ignores_maxRetries ctx serverAddr m1 m2 w :
  getConn ctx serverAddr m1 w = getConn ctx serverAddr m2 w ∧
  ∃ errs evs,
    let r := getConn ctx serverAddr m1 w in
    trace r.2 = trace w ++ EvNewTicker (100 * Millisecond) :: evs ∧
    (length (filter is_dial evs) ≤ 5)%nat ∧
    ((∃ c, length errs < 5 ∧ r.1 = Ok (Some c, None) ∧
           evs = (errs ≫= failed_attempt serverAddr) ++
                 [EvDial "tcp" serverAddr (inl c)]) ∨
     (∃ e, length errs = 5 ∧ last errs = Some e ∧
           r.1 = Ok (None, Some e) ∧
           evs = errs ≫= failed_attempt serverAddr)).
Proof.
  split; [reflexivity |].
  unfold getConn.
  set (w0 := {| p := p w; net := net w;
                trace := trace w ++ [EvNewTicker (100 * Millisecond)] |}).
  assert (Start : ∀ k : unit → M (world N) (option conn * option error),
            (time_NewTicker (100 * Millisecond) ≫= k) w = k tt w0)
    by (intros k; by erewrite bind_Ok by reflexivity).
  rewrite Start.
  destruct (getConn_for_run 5 ctx serverAddr None w0) as [errs Cases].
  cbn zeta in Cases.
  destruct Cases as [(c & Lt & R & T) | (Len & R & T)].
  - exists errs, ((errs ≫= failed_attempt serverAddr) ++
                  [EvDial "tcp" serverAddr (inl c)]).
    split_and!.
    + rewrite T. cbn [trace w0]. by rewrite <- app_assoc.
    + rewrite filter_app, length_app, dials_of_failed_attempts.
      change (length (filter is_dial [EvDial "tcp" serverAddr (inl c)]))
        with 1. lia.
    + left. exists c. by split_and!.
  - destruct (last errs) as [e |] eqn:L.
    2:{ apply last_None in L. subst errs. done. }
    exists errs, (errs ≫= failed_attempt serverAddr).
    split_and!.
    + rewrite T. cbn [trace w0]. by rewrite <- app_assoc.
    + rewrite dials_of_failed_attempts. lia.
    + right. exists e. by split_and!.
Qed.

(** [getTCPConnection] hands the error of [getConn] on. *)
Lemma getTCPConnection_error ctx serverAddr keepAlive w e :
  (getConn ctx serverAddr 3 w).1 = Ok (None, Some e) →
  (getTCPConnection ctx serverAddr keepAlive w).1 = Ok (None, Some e).
Proof.
  intros E. unfold getTCPConnection.
  destruct (getConn ctx serverAddr 3 w) as [r w1] eqn:R. cbn in E. subst r.
  by erewrite bind_Ok by exact R.
Qed.

(** *** [pool.stop] and [pool.keepAlive] *)

Lemma stop_run w :
  ∃ w', stop w = (Ok tt, w') ∧ stopped (p w') = true ∧
        filter is_send (trace w') = filter is_send (trace w).
Proof.
  unfold stop, env, emit, log, mbind, M_bind, bind, modify, gets. cbn.
  destruct (Close (client (p w)) (net w)) as [[e |] n1]; cbn.
  - destruct (IsClosedNetwork e); cbn; eexists; split_and!;
      try reflexivity; cbn; by rewrite ?filter_app, ?app_nil_r.
  - eexists; split_and!; try reflexivity; cbn.
    by rewrite ?filter_app, ?app_nil_r.
Qed.

(** On a stopped pool a tick makes the loop return, and nothing is
    sent. *)
Lemma keepAlive_select_stopped w :
  stopped (p w) = true → keepAlive_select t_C w = (Ok Return, w).
Proof.
  intros S. unfold keepAlive_select, mbind, M_bind, bind, gets. by rewrite S.
Qed.

Lemma keepAlive_select_stopped_run s w :
  stopped (p w) = true →
  ∃ w', keepAlive_select s w = (Ok Return, w') ∧
        stopped (p w') = true ∧
        filter is_send (trace w') = filter is_send (trace w).
Proof.
  intros S. destruct s as [[e |] |].
  - unfold keepAlive_select, log, emit, mbind, M_bind, bind, modify.
    destruct (decide (e = context_Canceled)); cbn;
      eexists; split_and!; try reflexivity; try done.
    cbn. by rewrite filter_app, app_nil_r.
  - by exists w.
  - exists w. by rewrite keepAlive_select_stopped.
Qed.

(** The steps of the schedule are the bodies of [keepAlive]'s tick case
    and of [stop], cut in two. *)
Lemma keepAlive_select_split w :
  keepAlive_select t_C w =
  (isStopped ← keepAlive_check;
   if (isStopped : bool) then mret Return
   else keepAlive_send;; mret Continue) w.
Proof.
  unfold keepAlive_select, keepAlive_check, keepAlive_send, env, log, emit,
    mbind, M_bind, bind, modify, gets. cbn.
  destruct (stopped (p w)); [done |].
  by destruct (SendRequest (client (p w)) "dev.okteto.com/keepalive" true
                 (net w)) as [[e |] n1].
Qed.

Lemma stop_split w : stop w = (stop_mark;; stop_close) w.
Proof. reflexivity. Qed.

Lemma stop_mark_run w :
  ∃ w', stop_mark w = (Ok tt, w') ∧ stopped (p w') = true ∧
        client (p w') = client (p w) ∧ trace w' = trace w.
Proof. by eexists. Qed.

Lemma stop_close_run w :
  ∃ w', stop_close w = (Ok tt, w') ∧ p w' = p w ∧
        filter is_send (trace w') = filter is_send (trace w).
Proof.
  unfold stop_close, env, emit, log, mbind, M_bind, bind, modify, gets. cbn.
  destruct (Close (client (p w)) (net w)) as [[e |] n1]; cbn.
  - destruct (IsClosedNetwork e); cbn; eexists; split_and!;
      try reflexivity; cbn; by rewrite ?filter_app, ?app_nil_r.
  - eexists; split_and!; try reflexivity; cbn.
    by rewrite ?filter_app, ?app_nil_r.
Qed.

Lemma keepAlive_send_run w :
  ∃ w', keepAlive_send w = (Ok tt, w') ∧ p w' = p w ∧
        filter is_send (trace w') =
        filter is_send (trace w) ++
        [EvSendRequest (client (p w)) "dev.okteto.com/keepalive" true].
Proof.
  unfold keepAlive_send, env, emit, log, mbind, M_bind, bind, modify, gets.
  cbn.
  destruct (SendRequest (client (p w)) "dev.okteto.com/keepalive" true
              (net w)) as [[e |] n1]; cbn.
  - eexists; split_and!; try reflexivity; cbn.
    by rewrite !filter_app, app_nil_r.
  - eexists; split_and!; try reflexivity; cbn.
    by rewrite !filter_app.
Qed.

(** Once [p.stopped] is set, whatever the schedule, the goroutine sends
    at most the request that was in flight: the one whose read of
    [p.stopped] came before. *)
Lemma run_stopped acts : ∀ g c w,
  stopped (p w) = true →
  filter is_send (trace (run acts g c w).2) =
  filter is_send (trace w) ++ in_flight acts g (client (p w)).
Proof.
  induction acts as [| a rest IH]; intros g c w S.
  { cbn. destruct g; by rewrite app_nil_r. }
  assert (Skip : is_Send a = false →
            filter is_send (trace (run rest g c w).2) =
            filter is_send (trace w) ++ in_flight (a :: rest) g (client (p w))).
  { intros NS. rewrite IH by done. unfold in_flight. cbn [existsb].
    by rewrite NS. }
  destruct a as [[err |] | | |].
  - destruct g; [| by apply Skip | by apply Skip]. cbn [run].
    destruct (keepAlive_select_stopped_run (ctx_Done err) w S)
      as (w' & R & S' & T).
    erewrite bind_Ok by exact R. cbv beta.
    unfold ticker_Stop. erewrite bind_Ok by reflexivity. cbv beta.
    rewrite IH by exact S'. cbn. by rewrite filter_app, !app_nil_r.
  - destruct g; [| by apply Skip | by apply Skip]. cbn [run].
    unfold keepAlive_check. erewrite bind_Ok by reflexivity. cbv beta.
    rewrite S. unfold ticker_Stop. erewrite bind_Ok by reflexivity. cbv beta.
    rewrite IH by exact S. cbn. by rewrite filter_app, !app_nil_r.
  - destruct g.
    + change (run (Send :: rest) AtSelect c) with (run rest AtSelect c).
      rewrite IH by done. by destruct c.
    + cbn [run]. destruct (keepAlive_send_run w) as (w' & R & P & T).
      erewrite bind_Ok by exact R. cbv beta.
      rewrite IH by (by rewrite P). cbn. by rewrite T, app_nil_r.
    + change (run (Send :: rest) Returned c) with (run rest Returned c).
      rewrite IH by done. by destruct c.
  - destruct c.
    + assert (E : run (StopMark :: rest) g Outside =
                  (stop_mark;; run rest g AtClose)) by (by destruct g).
      rewrite E. destruct (stop_mark_run w) as (w' & R & S' & Cl & T).
      erewrite bind_Ok by exact R. cbv beta.
      rewrite IH by exact S'. rewrite T, Cl. by destruct g.
    + assert (E : run (StopMark :: rest) g AtClose = run rest g AtClose)
        by (by destruct g).
      rewrite E. by apply Skip.
  - destruct c.
    + assert (E : run (StopClose :: rest) g Outside = run rest g Outside)
        by (by destruct g).
      rewrite E. by apply Skip.
    + assert (E : run (StopClose :: rest) g AtClose =
                  (stop_close;; run rest g Outside)) by (by destruct g).
      rewrite E. destruct (stop_close_run w) as (w' & R & P & T).
      erewrite bind_Ok by exact R. cbv beta.
      rewrite IH by (by rewrite P). rewrite T, P. by destruct g.
Qed.

(** [keepAlive] started on a stopped pool returns at its first tick: a
    ticker is created and stopped, nothing is sent. *)
Lemma keepAlive_stopped ss w :
  stopped (p w) = true →
  keepAlive (t_C :: ss) w =
  (Ok Return,
   {| p := p w; net := net w;
      trace := trace w ++ [EvNewTicker (ka (p w)); EvTickerStop] |}).
Proof.
  intros S. unfold keepAlive.
  do 2 (erewrite bind_Ok by reflexivity). cbv beta.
  erewrite bind_Ok.
  2:{ cbn [keepAlive_for].
      erewrite bind_Ok by (by apply keepAlive_select_stopped). reflexivity. }
  cbv beta iota. unfold ticker_Stop, time_NewTicker, emit, modify.
  erewrite bind_Ok by reflexivity. cbn. by rewrite <- app_assoc.
Qed.

(** What [stop] does achieve.  Once it has set [p.stopped], a tick
    finds the pool stopped and makes the loop return without sending,
    and, whatever the schedule from then on, the only request sent is
    the one in flight.  When closing the client fails with an error
    that [errors.IsClosedNetwork] recognises, [stop] logs nothing; it
    logs the failure for any other error. *)
Lemma stop_bounds_keepalive w acts g :
  let w1 := (stop_mark w).2 in
  stopped (p w1) = true ∧
  keepAlive_select t_C w1 = (Ok Return, w1) ∧
  filter is_send (trace (run acts g AtClose w1).2) =
    filter is_send (trace w) ++ in_flight acts g (client (p w)) ∧
  (stop w).1 = Ok tt ∧
  filter is_log (trace (stop w).2) =
    filter is_log (trace w) ++
    match (Close (client (p w)) (net w)).1 with
    | Some e =>
        if IsClosedNetwork e then []
        else [EvLog ("failed to close SSH pool: " +:+ Error e)]
    | None => []
    end.
Proof.
  cbn zeta. split_and!.
  - done.
  - by apply keepAlive_select_stopped.
  - by rewrite run_stopped.
  - by destruct (stop_run w) as (w' & -> & _).
  - unfold stop, env, emit, log, mbind, M_bind, bind, modify, gets. cbn.
    destruct (Close (client (p w)) (net w)) as [[e |] n1]; cbn.
    + destruct (IsClosedNetwork e); cbn; by rewrite ?filter_app, ?app_nil_r.
    + by rewrite ?filter_app, ?app_nil_r.
Qed.

End Facts.
End SshFacts.

(** * The pipeline and the pool on the fixture *)
Module Examples.
Import K8s Model Deployments Jobs JobsFacts Fixture.

(** The rule functions of the fixture keep the identity on a translation
    whose annotations carry no revision. *)
Lemma rules_keep_identity t :
  map_get (t_Annotations t) revisionAnnotation = None → keeps_identity t.
Proof.
  intros NoRev. split; try reflexivity.
  intros o p. cbn. rewrite lookup_insert_ne by done.
  unfold map_get in NoRev.
  destruct (t_Annotations t) as [a |]; cbn in *.
  - rewrite lookup_union_r by done. by destruct (Annotations o).
  - by destruct (Annotations o).
Qed.

Lemma get_by_labels_witness :
  ∃ q, (get by_label "ns1" (start (cluster [web]) 0 false)).1 = Ok q ∧
       heap (get by_label "ns1" (start (cluster [web]) 0 false)).2 !! q =
       Some web.
Proof.
  apply (get_by_labels by_label "ns1" (start (cluster [web]) 0 false) [web]
           (cluster [web])).
  - done.
  - vm_compute. lia.
  - reflexivity.
Defined.

Lemma CreateDevJob_missing_container_witness :
  ∃ jobName w2,
    CreateDevJob (dev "web" "nope" None) (dev "sess" "app" None)
                 (start (cluster []) 1600000000 false) =
    (Err (container_not_found
            (ToTranslationRule (dev "web" "nope" None) (dev "sess" "app" None))
            jobName), w2) ∧
    filter is_create (calls w2) =
      filter is_create (calls (start (cluster []) 1600000000 false)) ∧
    calls w2 =
      calls (get (dev "web" "nope" None) "ns1"
                 (log "creating job from web"
                      (start (cluster []) 1600000000 false)).2).2 ∧
    client w2 =
      client (get (dev "web" "nope" None) "ns1"
                  (log "creating job from web"
                       (start (cluster []) 1600000000 false)).2).2.
Proof.
  apply (CreateDevJob_missing_container
           (dev "web" "nope" None) (dev "sess" "app" None)
           (start (cluster []) 1600000000 false) 0
           (get (dev "web" "nope" None) "ns1"
                (log "creating job from web"
                     (start (cluster []) 1600000000 false)).2).2
           web).
  - vm_compute. reflexivity.
  - reflexivity.
  - discriminate.
  - discriminate.
  - vm_compute. reflexivity.
Defined.

(** The claim that the name carries the session name fails: the copy
    of [web] made for the session [sess] is named after [web]. *)
Lemma translate_name_is_not_session_name :
  ∃ new w' j,
    translate 0 (session "app") (resolved 1600000000) = (Ok new, w') ∧
    heap w' !! new = Some j ∧
    Name (Meta j) = "okteto-web-1600000000" ∧
    Name (Meta j) ≠
      "okteto-" +:+ t_Name (session "app") +:+ "-" +:+
      pretty (clock (resolved 1600000000)).
Proof.
  eexists _, _, _. split_and!.
  - vm_compute. reflexivity.
  - vm_compute. reflexivity.
  - reflexivity.
  - vm_compute. discriminate.
Qed.

Lemma translate_name_witness :
  (∃ new j,
     (translate 0 (session "app") (resolved 1600000000)).1 = Ok new ∧
     heap (translate 0 (session "app") (resolved 1600000000)).2 !! new =
       Some j ∧
     Name (Meta j) =
       "okteto-" +:+ Name (Meta web) +:+ "-" +:+
       pretty (clock (resolved 1600000000))) ∨
  (∃ rule,
     rule ∈ t_Rules (session "app") ∧
     (translate 0 (session "app") (resolved 1600000000)).1 =
     Err (container_not_found rule
            ("okteto-" +:+ Name (Meta web) +:+ "-" +:+
             pretty (clock (resolved 1600000000))))).
Proof.
  apply (translate_name 0 (session "app") (resolved 1600000000) web).
  - intros o p. reflexivity.
  - reflexivity.
  - discriminate.
  - discriminate.
Defined.

Lemma translate_names_differ_witness :
  Name (Meta (default web
                (heap (translate 0 (session "app") (resolved 1600000000)).2 !! 1))) ≠
  Name (Meta (default web
                (heap (translate 0 (session "app") (resolved 1600000060)).2 !! 1))).
Proof.
  apply (translate_names_differ 0 (session "app")
           (resolved 1600000000) (resolved 1600000060) 1 1
           (translate 0 (session "app") (resolved 1600000000)).2
           (translate 0 (session "app") (resolved 1600000060)).2).
  - intros o p. reflexivity.
  - reflexivity.
  - vm_compute. discriminate.
  - vm_compute. reflexivity.
  - vm_compute. reflexivity.
  - vm_compute. reflexivity.
  - vm_compute. reflexivity.
Defined.

Lemma translate_clears_identity_witness :
  ∃ s,
    identity_stripped s (derived_name web (clock (resolved 1600000000))) ∧
    ((∃ new j,
        (translate 0 (session "app") (resolved 1600000000)).1 = Ok new ∧
        heap (translate 0 (session "app") (resolved 1600000000)).2 !! new =
          Some j ∧
        Status j = JobStatus_zero ∧
        Selector (Spec j) = None ∧
        Meta j = (CommonTranslation (session "app") (Meta s) (TMeta s)).1 ∧
        TMeta j =
          TranslateDevAnnotations
            (CommonTranslation (session "app") (Meta s) (TMeta s)).2
            (t_Annotations (session "app")) ∧
        (keeps_identity (session "app") →
         identity_stripped j
           (derived_name web (clock (resolved 1600000000))))) ∨
     (∃ rule jobName,
        rule ∈ t_Rules (session "app") ∧
        (translate 0 (session "app") (resolved 1600000000)).1 =
        Err (container_not_found rule jobName))).
Proof.
  apply (translate_clears_identity 0 (session "app") (resolved 1600000000) web).
  - reflexivity.
  - discriminate.
  - discriminate.
Defined.

(** The claim that the copy has no revision annotation whatever the
    translation fails: the manifest of [pinned_session] overrides the
    revision annotation, the common pass runs after the stripping and
    merges the override into the metadata of the object, and the copy
    [translate] returns carries the revision [9]. *)
Lemma translate_restores_manifest_revision :
  ∃ new w' j,
    translate 0 pinned_session (resolved 1600000000) = (Ok new, w') ∧
    heap w' !! new = Some j ∧
    map_get (Annotations (Meta web)) revisionAnnotation = Some "3" ∧
    map_get (Annotations (Meta j)) revisionAnnotation = Some "9".
Proof.
  eexists _, _, _. split_and!.
  - vm_compute. reflexivity.
  - vm_compute. reflexivity.
  - reflexivity.
  - vm_compute. reflexivity.
Qed.

Lemma translate_total_iff_labels_witness :
  (Labels (Meta bare) = None ∨ Labels (TMeta bare) = None →
   (translate 0 (session "app")
              (set_heap [bare] (resolved 1600000000))).1 =
   Panic nil_map_write) ∧
  (Labels (Meta bare) ≠ None → Labels (TMeta bare) ≠ None →
   (translate 0 (session "app")
              (set_heap [bare] (resolved 1600000000))).1 = Ok 1 ∨
   ∃ rule jobName,
     rule ∈ t_Rules (session "app") ∧
     (translate 0 (session "app")
                (set_heap [bare] (resolved 1600000000))).1 =
     Err (container_not_found rule jobName)).
Proof.
  apply (translate_total_iff_labels 0 (session "app")
           (set_heap [bare] (resolved 1600000000)) bare).
  reflexivity.
Defined.

(** The claim that a cancelled pipeline returns a cancellation error and
    creates nothing fails: with the signal set from the start,
    [CreateDevJob] resolves [web], creates the copy and returns its
    name. *)
Lemma CreateDevJob_creates_when_cancelled :
  let w := start (cluster []) 1600000000 true in
  let r := CreateDevJob (dev "web" "app" None) (dev "sess" "app" None) w in
  cancelled w = true ∧
  r.1 = Ok "okteto-web-1600000000" ∧
  is_create <$> calls r.2 = [false; true] ∧
  created (client r.2) = 1.
Proof. vm_compute. by split_and!. Qed.

(** *** More runs *)

(** The whole pipeline on [web]: the name returned, the calls issued, and
    the source untouched. *)
Example CreateDevJob_web :
  let r := CreateDevJob (dev "web" "app" None) (dev "sess" "app" None)
                        (start (cluster []) 1600000000 false) in
  r.1 = Ok "okteto-web-1600000000" ∧
  is_create <$> calls r.2 = [false; true] ∧
  heap r.2 !! 0 = Some web ∧
  (Image <$> Containers (TSpec (default web (heap r.2 !! 1)))) = ["dev:latest"].
Proof. vm_compute. by split_and!. Qed.

(** A selector that matches two jobs: the error reports the count. *)
Example CreateDevJob_ambiguous :
  (CreateDevJob by_label (dev "sess" "app" None)
                (start (cluster [web; web]) 1600000000 false)).1 =
  Err (Errorf "Found '2' jobs for labels 'app=web' instead of 1").
Proof. reflexivity. Qed.

(** A job without labels makes [translate] panic. *)
Example translate_bare :
  (translate 0 (session "app") (set_heap [bare] (resolved 1600000000))).1 =
  Panic "assignment to entry in nil map".
Proof. reflexivity. Qed.

(** Two dials refused, the third accepted. *)
Example getConn_third :
  let n := {| dials := [inr refused; inr refused; inl 7];
              on_send := None; on_close := None |} in
  let r := Ssh.getConn 0 "10.0.0.1:22" 3 (handle n) in
  r.1 = Ok (Some 7, None) ∧
  length (filter Ssh.is_dial (Ssh.trace r.2)) = 3.
Proof. vm_compute. by split. Qed.

(** Every dial refused: five dials, the error of the last. *)
Example getConn_refused :
  let n := {| dials := []; on_send := None; on_close := None |} in
  let r := Ssh.getConn 0 "10.0.0.1:22" 1 (handle n) in
  r.1 = Ok (None, Some refused) ∧
  length (filter Ssh.is_dial (Ssh.trace r.2)) = 5.
Proof. vm_compute. by split. Qed.

(** One keep-alive, then [stop] on a connection that is closed already,
    then two more ticks: one request, one close, no log, and the
    goroutine has returned. *)
Example stop_then_ticks :
  Ssh.run [Ssh.Select Ssh.t_C; Ssh.Send; Ssh.StopMark; Ssh.StopClose;
           Ssh.Select Ssh.t_C; Ssh.Select Ssh.t_C]
          Ssh.AtSelect Ssh.Outside
          (handle {| dials := []; on_send := None;
                     on_close := Some closed_network |}) =
  (Ok (Ssh.Returned, Ssh.Outside),
   {| Ssh.p := {| Ssh.ka := 30 * Ssh.Second; Ssh.client := 1;
                  Ssh.stopped := true |};
      Ssh.net := {| dials := []; on_send := None;
                    on_close := Some closed_network |};
      Ssh.trace := [Ssh.EvSendRequest 1 "dev.okteto.com/keepalive" true;
                    Ssh.EvClose 1; Ssh.EvTickerStop] |}).
Proof. reflexivity. Qed.

(** C8 (the failing run).  A keep-alive request is sent after [stop]
    has returned.  The goroutine of [keepAlive] takes a tick and reads
    [p.stopped], which is false; the caller then runs [stop] from its
    first line to its last, setting [p.stopped] and closing the client;
    the goroutine goes on from where it was and sends its request on the
    closed client, and logs that the keep-alive failed.  Nothing orders
    the read of [p.stopped] and the request after it against [stop]. *)
Theorem keepalive_sent_after_stop :
  Ssh.run [Ssh.Select Ssh.t_C; Ssh.StopMark; Ssh.StopClose; Ssh.Send]
          Ssh.AtSelect Ssh.Outside
          (handle {| dials := []; on_send := Some closed_network;
                     on_close := None |}) =
  (Ok (Ssh.AtSelect, Ssh.Outside),
   {| Ssh.p := {| Ssh.ka := 30 * Ssh.Second; Ssh.client := 1;
                  Ssh.stopped := true |};
      Ssh.net := {| dials := []; on_send := Some closed_network;
                    on_close := None |};
      Ssh.trace :=
        [Ssh.EvClose 1;
         Ssh.EvSendRequest 1 "dev.okteto.com/keepalive" true;
         Ssh.EvLog ("failed to send SSH keepalive: " +:+
                    Error closed_network)] |}).
Proof. reflexivity. Qed.

End Examples.

(** * More properties of package [jobs] *)
Module JobsMore.
Import K8s Model Deployments Jobs GoFacts JobsFacts GoErrors JobsCalls.

Section Facts.
Context {C : Type} `{!JobsClient C} `{!Model.Pkg} `{!Deployments.Pkg}.

Implicit Types (w : world C) (j src : Job).

(** *** [get] *)

(** [get] as a whole, by what the cluster answers. *)
Lemma get_run dev ns w :
  get dev ns w =
  if decide (ns = "") then (Err (Errorf "empty namespace"), w)
  else
    let w1 := set_calls (calls w ++ [read_call dev ns]) w in
    if decide (len (dev_Labels dev) = 0) then
      match Jobs_Get ns (dev_Name dev) (client w) with
      | (inl j, c) => (Ok (length (heap w)),
                       set_heap (heap w ++ [j]) (set_client c w1))
      | (inr err, c) =>
          (Err err,
           set_logs (logs w ++ ["error while retrieving job " +:+ ns +:+ "/" +:+
                                dev_Name dev +:+ ": " +:+ Error err])
                    (set_client c w1))
      end
    else
      match Jobs_List ns (LabelsSelector dev) (client w) with
      | (inl [], c) =>
          (Err (Errorf ("jobs for labels '" +:+ LabelsSelector dev +:+
                        "' not found")), set_client c w1)
      | (inl [j], c) =>
          (Ok (length (heap w)), set_heap (heap w ++ [j]) (set_client c w1))
      | (inl items, c) =>
          (Err (Errorf ("Found '" +:+ pretty (length items) +:+
                        "' jobs for labels '" +:+ LabelsSelector dev +:+
                        "' instead of 1")), set_client c w1)
      | (inr err, c) => (Err err, set_client c w1)
      end.
Proof.
  unfold get, read_call.
  destruct (decide (ns = "")); [done |].
  destruct (decide (len (dev_Labels dev) = 0)).
  - unfold api_Get, record, call, mbind, M_bind, bind, modify. cbn.
    by destruct (Jobs_Get ns (dev_Name dev) (client w)) as [[j | err] c].
  - unfold api_List, record, call, mbind, M_bind, bind, modify. cbn.
    destruct (Jobs_List ns (LabelsSelector dev) (client w))
      as [[[| j [| j' rest]] | err] c]; cbn; try done.
    all: destruct (decide (1 < S (S (length rest)))); [done | lia].
Qed.

(** The calls of [get]. *)
Lemma get_calls dev ns w :
  calls (get dev ns w).2 =
  calls w ++ (if decide (ns = "") then [] else [read_call dev ns]).
Proof.
  rewrite get_run.
  destruct (decide (ns = "")); [by rewrite app_nil_r |]. cbn zeta.
  destruct (decide (len (dev_Labels dev) = 0)).
  - by destruct (Jobs_Get ns (dev_Name dev) (client w)) as [[j | err] c].
  - by destruct (Jobs_List ns (LabelsSelector dev) (client w))
      as [[[| j [| j' rest]] | err] c].
Qed.

(** X1.  [get] issues one read call, the one of the mode the manifest
    selects: by name when it has no labels, by selector when it has; on
    an empty namespace it issues none. *)
Theorem get_read_call dev ns w :
  calls (get dev ns w).2 =
  calls w ++ (if decide (ns = "") then [] else [read_call dev ns]).
Proof. apply get_calls. Qed.

(** X2.  A query by name returns the object the cluster answered with, as a
    new object of the heap and nothing logged; an error of the cluster is
    logged and returned as it is. *)
Theorem get_by_name dev ns w r c' :
  ns ≠ "" →
  len (dev_Labels dev) = 0 →
  Jobs_Get ns (dev_Name dev) (client w) = (r, c') →
  client (get dev ns w).2 = c' ∧
  match r with
  | inl j =>
      (get dev ns w).1 = Ok (length (heap w)) ∧
      heap (get dev ns w).2 = heap w ++ [j] ∧
      logs (get dev ns w).2 = logs w
  | inr err =>
      (get dev ns w).1 = Err err ∧
      heap (get dev ns w).2 = heap w ∧
      logs (get dev ns w).2 =
        logs w ++ ["error while retrieving job " +:+ ns +:+ "/" +:+
                   dev_Name dev +:+ ": " +:+ Error err]
  end.
Proof.
  intros Hns Hlen Hget. rewrite get_run.
  destruct (decide (ns = "")); [done |]. cbn zeta.
  destruct (decide (len (dev_Labels dev) = 0)); [| done].
  rewrite Hget. by destruct r.
Qed.

(** Whatever [get] returns, the objects of the heap are what they were;
    a pointer it returns is to a new object. *)
Lemma get_heap dev ns w :
  heap w `prefix_of` heap (get dev ns w).2 ∧
  ∀ q, (get dev ns w).1 = Ok q →
       heap w !! q = None ∧ is_Some (heap (get dev ns w).2 !! q).
Proof.
  rewrite get_run.
  assert (Fresh : ∀ j (w' : world C),
            heap w `prefix_of` heap (set_heap (heap w ++ [j]) w') ∧
            ∀ q, Ok (length (heap w)) = Ok q →
                 heap w !! q = None ∧
                 is_Some (heap (set_heap (heap w ++ [j]) w') !! q)).
  { intros j w'. split; [by apply prefix_app_r |].
    intros q [= <-]. split; [by apply lookup_ge_None |].
    exists j. by apply list_lookup_middle. }
  destruct (decide (ns = "")); [done |]. cbn zeta.
  destruct (decide (len (dev_Labels dev) = 0)).
  - destruct (Jobs_Get ns (dev_Name dev) (client w)) as [[j | err] c];
      [apply Fresh | done].
  - destruct (Jobs_List ns (LabelsSelector dev) (client w))
      as [[[| j [| j' rest]] | err] c]; try done. apply Fresh.
Qed.

(** *** [translate] *)

(** X3.  [translate] works in memory: it issues no call on the cluster, writes
    no log, and leaves the client and the clock alone. *)
Theorem translate_in_memory old t w :
  calls (translate old t w).2 = calls w ∧
  client (translate old t w).2 = client w ∧
  logs (translate old t w).2 = logs w ∧
  clock (translate old t w).2 = clock w.
Proof.
  by destruct (translate_world old t w) as [-> | [j' ->]].
Qed.

(** *** [CreateDevJob] *)

(** [CreateDevJob] as a whole: the log line, [get], [translate], then
    the creation call on what [translate] returned. *)
Lemma CreateDevJob_run job main w :
  CreateDevJob job main w =
  match get job (dev_Namespace main)
            (set_logs (logs w ++ ["creating job from " +:+ dev_Name job]) w) with
  | (Ok q, w1) =>
      match translate q (pipeline_Translation job main q) w1 with
      | (Ok new, w2) =>
          match heap w2 !! new with
          | Some v =>
              let w3 :=
                set_calls (calls w2 ++ [CallCreate (dev_Namespace main) v]) w2 in
              match Jobs_Create (dev_Namespace main) v (client w2) with
              | (inl created, c) => (Ok (Name (Meta created)), set_client c w3)
              | (inr err, c) =>
                  (Err (Errorf_w "failed to create job: " err), set_client c w3)
              end
          | None => (Panic nil_deref, w2)
          end
      | (Err e, w2) => (Err e, w2)
      | (Panic s, w2) => (Panic s, w2)
      end
  | (Err e, w1) => (Err e, w1)
  | (Panic s, w1) => (Panic s, w1)
  end.
Proof.
  unfold CreateDevJob. erewrite bind_Ok by reflexivity. cbv beta.
  destruct (get job (dev_Namespace main) _) as [[q | e | s] w1] eqn:G.
  2:{ by erewrite bind_Err by exact G. }
  2:{ by erewrite bind_Panic by exact G. }
  erewrite bind_Ok by exact G. cbv beta zeta.
  fold (pipeline_Translation job main q).
  destruct (translate q (pipeline_Translation job main q) w1)
    as [[new | e | s] w2] eqn:T.
  2:{ by erewrite bind_Err by exact T. }
  2:{ by erewrite bind_Panic by exact T. }
  erewrite bind_Ok by exact T. cbv beta.
  unfold deref at 1, api_Create, record, call, mbind, M_bind, bind, modify.
  destruct (heap w2 !! new) as [v |]; [| done]. cbn.
  by destruct (Jobs_Create (dev_Namespace main) v (client w2)) as [[cr | err] c].
Qed.

(** X4.  [CreateDevJob] issues at most one read call and then at most one
    creation call, in this order, and nothing else; when it returns a
    name it has issued the creation call. *)
Theorem CreateDevJob_calls job main w :
  ∃ reads creates,
    calls (CreateDevJob job main w).2 = calls w ++ reads ++ creates ∧
    (reads = [] ∨ reads = [read_call job (dev_Namespace main)]) ∧
    (creates = [] ∨
     ∃ v, creates = [CallCreate (dev_Namespace main) v]) ∧
    (∀ name, (CreateDevJob job main w).1 = Ok name → creates ≠ []).
Proof.
  rewrite CreateDevJob_run.
  set (w0 := set_logs _ w).
  pose proof (get_calls job (dev_Namespace main) w0) as G.
  set (reads := if decide (dev_Namespace main = "") then []
                else [read_call job (dev_Namespace main)]) in G.
  assert (Reads : reads = [] ∨ reads = [read_call job (dev_Namespace main)]).
  { unfold reads. destruct (decide (dev_Namespace main = "")); auto. }
  change (calls w0) with (calls w) in G.
  destruct (get job (dev_Namespace main) w0) as [[q | e | s] w1]; cbn in G.
  2,3: exists reads, []; cbn; rewrite G, app_nil_r; split_and!; auto; done.
  assert (T : calls (translate q (pipeline_Translation job main q) w1).2 =
              calls w1)
    by (by destruct (translate_world q (pipeline_Translation job main q) w1)
          as [-> | [j' ->]]).
  destruct (translate q (pipeline_Translation job main q) w1)
    as [[new | e | s] w2]; cbn in T.
  2,3: exists reads, []; cbn; rewrite T, G, app_nil_r; split_and!; auto; done.
  destruct (heap w2 !! new) as [v |].
  2:{ exists reads, []; cbn; rewrite T, G, app_nil_r; split_and!; auto; done. }
  exists reads, [CallCreate (dev_Namespace main) v].
  split_and!; auto.
  - destruct (Jobs_Create (dev_Namespace main) v (client w2))
      as [[cr | err] c]; cbn; by rewrite T, G, <- app_assoc.
  - right. by exists v.
Qed.

(** X5.  Once the source is resolved and translated, [CreateDevJob] submits
    the object [translate] returned, in the namespace of the main
    manifest.  It returns the name of the object the cluster created, or
    an error whose message is [failed to create job: ] followed by the
    message of the error of the cluster, which it wraps. *)
Theorem CreateDevJob_create job main w q w1 new w2 v r c :
  get job (dev_Namespace main)
      (log ("creating job from " +:+ dev_Name job) w).2 = (Ok q, w1) →
  translate q (pipeline_Translation job main q) w1 = (Ok new, w2) →
  heap w2 !! new = Some v →
  Jobs_Create (dev_Namespace main) v (client w2) = (r, c) →
  calls (CreateDevJob job main w).2 =
    calls w2 ++ [CallCreate (dev_Namespace main) v] ∧
  client (CreateDevJob job main w).2 = c ∧
  match r with
  | inl created => (CreateDevJob job main w).1 = Ok (Name (Meta created))
  | inr err =>
      ∃ e, (CreateDevJob job main w).1 = Err e ∧
           Error e = "failed to create job: " +:+ Error err ∧
           Unwrap e = Some err
  end.
Proof.
  intros G T V Cr. rewrite CreateDevJob_run.
  change (set_logs _ w) with (log ("creating job from " +:+ dev_Name job) w).2.
  rewrite G, T, V. cbn zeta. rewrite Cr.
  destruct r as [created | err]; cbn; split_and!; try done.
  by eexists.
Qed.

(** X6.  Every object [CreateDevJob] submits for creation is submitted in
    the namespace of the main manifest and is the copy of the source that
    [get] resolved, whatever the cluster and the manifests: [get] has
    returned a source, and the object submitted has the empty status
    and a nil selector.  It is stripped of the identity of that source in
    full (its name and [job-name] labels are the name derived from this
    source and the clock, and it has no resource version, no revision
    annotation and no [controller-uid] label) when the rule functions
    keep the identity on the translation [CreateDevJob] builds. *)
Theorem CreateDevJob_submits_stripped job main w ns v :
  CallCreate ns v ∈ calls_since (length (calls w)) (CreateDevJob job main w).2 →
  ns = dev_Namespace main ∧
  ∃ q w1 src,
    get job (dev_Namespace main)
        (log ("creating job from " +:+ dev_Name job) w).2 = (Ok q, w1) ∧
    heap w1 !! q = Some src ∧
    Status v = JobStatus_zero ∧
    Selector (Spec v) = None ∧
    (keeps_identity (pipeline_Translation job main q) →
     identity_stripped v (derived_name src (clock w))).
Proof.
  unfold calls_since. rewrite CreateDevJob_run.
  change (set_logs _ w) with (log ("creating job from " +:+ dev_Name job) w).2.
  set (w0 := (log _ w).2).
  pose proof (get_calls job (dev_Namespace main) w0) as G.
  set (reads := if decide (dev_Namespace main = "") then []
                else [read_call job (dev_Namespace main)]) in G.
  change (calls w0) with (calls w) in G.
  assert (Rd : ∀ l, CallCreate ns v ∈
                    drop (length (calls w)) (calls w ++ reads ++ l) →
                    CallCreate ns v ∈ l).
  { intros l. rewrite drop_app_length. unfold reads.
    destruct (decide (dev_Namespace main = "")); [done |].
    unfold read_call.
    destruct (decide (len (dev_Labels job) = 0));
      intros [E | In]%elem_of_cons; done. }
  assert (Rd0 : CallCreate ns v ∈ drop (length (calls w)) (calls w ++ reads) →
                False).
  { intros In. rewrite <- (app_nil_r reads) in In. apply Rd in In.
    by apply elem_of_nil in In. }
  assert (Clock : clock (get job (dev_Namespace main) w0).2 = clock w).
  { rewrite get_run. destruct (decide (dev_Namespace main = "")); [done |].
    cbn zeta. destruct (decide (len (dev_Labels job) = 0)).
    - by destruct (Jobs_Get _ _ _) as [[? | ?] ?].
    - by destruct (Jobs_List _ _ _) as [[[| ? [| ? ?]] | ?] ?]. }
  destruct (get job (dev_Namespace main) w0) as [[q | e | s] w1];
    cbn in G, Clock.
  2,3: cbn; rewrite G; intros In; by apply Rd0 in In.
  assert (T : calls (translate q (pipeline_Translation job main q) w1).2 =
              calls w1)
    by (by destruct (translate_world q (pipeline_Translation job main q) w1)
          as [-> | [j' ->]]).
  destruct (translate q (pipeline_Translation job main q) w1)
    as [[new | e | s] w2] eqn:Tr; cbn in T.
  2,3: cbn; rewrite T, G; intros In; by apply Rd0 in In.
  destruct (translate_Ok_inv _ _ _ _ _ Tr)
    as (src & l & tl & j' & Hsrc & _ & _ & -> & -> & N1 & N2 & N3 & N4).
  rewrite heap_top, list_lookup_middle by done. cbn zeta.
  assert (In3 : CallCreate ns v ∈ [CallCreate (dev_Namespace main) j'] →
                ns = dev_Namespace main ∧
                ∃ q' w1' src',
                  (Ok q, w1) = (Ok q', w1') ∧
                  heap w1' !! q' = Some src' ∧
                  Status v = JobStatus_zero ∧
                  Selector (Spec v) = None ∧
                  (keeps_identity (pipeline_Translation job main q') →
                   identity_stripped v (derived_name src' (clock w)))).
  { intros [= -> ->]%list_elem_of_singleton. split; [done |].
    exists q, w1, src. split_and!; [done | done | done | done |].
    intros K. rewrite <- Clock.
    eapply overridden_identity;
      [exact K | apply stripped_identity | exact N1 | exact N2 | done | done]. }
  destruct (Jobs_Create (dev_Namespace main) j' (client (top (heap w1) j' w1)))
    as [[cr | err] c]; cbn; cbn in T; rewrite G; intros In; apply In3;
    apply Rd; by rewrite <- app_assoc in In.
Qed.

(** X7.  [CreateDevJob] never writes to an object that exists: the objects of
    the heap are after the call what they were before, and the source
    that [get] resolved is after the call what [get] made it. *)
Theorem CreateDevJob_keeps_heap job main w :
  heap w `prefix_of` heap (CreateDevJob job main w).2 ∧
  ∀ q w1,
    get job (dev_Namespace main)
        (log ("creating job from " +:+ dev_Name job) w).2 = (Ok q, w1) →
    heap (CreateDevJob job main w).2 !! q = heap w1 !! q ∧
    is_Some (heap w1 !! q).
Proof.
  rewrite CreateDevJob_run.
  change (set_logs _ w) with (log ("creating job from " +:+ dev_Name job) w).2.
  set (w0 := (log _ w).2).
  pose proof (get_heap job (dev_Namespace main) w0) as (Pre & Fresh).
  destruct (get job (dev_Namespace main) w0) as [[q | e | s] w1];
    cbn in Pre, Fresh; [| done | done].
  destruct (Fresh q eq_refl) as (_ & [src Hsrc]).
  assert (Keep : ∀ w2 : world C,
            w2 = w1 ∨ (∃ j', w2 = top (heap w1) j' w1) →
            heap w1 `prefix_of` heap w2).
  { intros w2 [-> | [j' ->]]; [done |]. by apply prefix_app_r. }
  pose proof (translate_world q (pipeline_Translation job main q) w1) as W.
  destruct (translate q (pipeline_Translation job main q) w1)
    as [[new | e | s] w2]; cbn in W; apply Keep in W.
  - assert (heap w1 `prefix_of`
            heap (match heap w2 !! new with
                  | Some v =>
                      let w3 := set_calls (calls w2 ++
                                  [CallCreate (dev_Namespace main) v]) w2 in
                      match Jobs_Create (dev_Namespace main) v (client w2) with
                      | (inl created, c) =>
                          (Ok (Name (Meta created)), set_client c w3)
                      | (inr err, c) =>
                          (Err (Errorf_w "failed to create job: " err),
                           set_client c w3)
                      end
                  | None => (Panic nil_deref, w2)
                  end).2) as Fin.
    { destruct (heap w2 !! new) as [v |]; [| done]. cbn zeta.
      by destruct (Jobs_Create _ _ _) as [[? | ?] ?]. }
    split; [by etrans |].
    intros q' w1' [= <- <-]. split; [| by eexists].
    rewrite Hsrc. by eapply prefix_lookup_Some.
  - split; [by etrans |].
    intros q' w1' [= <- <-]. split; [| by eexists].
    rewrite Hsrc. by eapply prefix_lookup_Some.
  - split; [by etrans |].
    intros q' w1' [= <- <-]. split; [| by eexists].
    rewrite Hsrc. by eapply prefix_lookup_Some.
Qed.

End Facts.
End JobsMore.

(** * Properties of Go strings *)
Module StringsFacts.
Import Strings.

Implicit Types (s a b : string) (c : ascii) (i f : Z).

Lemma app_String x a b : String x a +:+ b = String x (a +:+ b).
Proof. reflexivity. Qed.

Lemma app_empty_l b : "" +:+ b = b.
Proof. reflexivity. Qed.

Lemma app_assoc a b s : (a +:+ b) +:+ s = a +:+ (b +:+ s).
Proof. induction a as [| x a IH]; [done |]. by rewrite !app_String, IH. Qed.

Lemma app_empty_r a : a +:+ "" = a.
Proof. induction a as [| x a IH]; [done |]. by rewrite app_String, IH. Qed.

Lemma len_app a b : len (a +:+ b) = (len a + len b)%Z.
Proof.
  unfold len. induction a as [| x a IH]; [done |].
  rewrite app_String. cbn [String.length]. lia.
Qed.

Lemma len_nonneg s : (0 ≤ len s)%Z.
Proof. unfold len. lia. Qed.

Lemma len_String x s : len (String x s) = (len s + 1)%Z.
Proof. unfold len. cbn [String.length]. lia. Qed.

Lemma take_app a b : take (String.length a) (a +:+ b) = a.
Proof.
  induction a as [| x a IH]; [by destruct b |].
  rewrite app_String. cbn [String.length take]. by rewrite IH.
Qed.

Lemma drop_app a b : drop (String.length a) (a +:+ b) = b.
Proof. induction a as [| x a IH]; [done |]. exact IH. Qed.

Lemma drop_0 s : drop 0 s = s.
Proof. by destruct s. Qed.

Lemma take_all s : take (String.length s) s = s.
Proof. rewrite <- (app_empty_r s) at 2. apply take_app. Qed.

(** [(a + b)[:len(a)]] and [(a + b)[len(a):]] *)
Lemma slice_prefix a b : slice (a +:+ b) 0 (len a) = Some a.
Proof.
  unfold slice. rewrite len_app.
  destruct (decide _) as [_ | N].
  - unfold len. rewrite Z.sub_0_r, Nat2Z.id.
    change (Z.to_nat 0) with 0%nat. rewrite drop_0. by rewrite take_app.
  - pose proof (len_nonneg a). pose proof (len_nonneg b). lia.
Qed.

Lemma slice_suffix a b : slice (a +:+ b) (len a) (len (a +:+ b)) = Some b.
Proof.
  unfold slice. rewrite len_app.
  destruct (decide _) as [_ | N].
  - replace (len a + len b - len a)%Z with (len b) by lia.
    unfold len. rewrite !Nat2Z.id, drop_app. by rewrite take_all.
  - pose proof (len_nonneg a). pose proof (len_nonneg b). lia.
Qed.

Lemma mem_app c a b : mem c (a +:+ b) = mem c a || mem c b.
Proof.
  induction a as [| x a IH]; [done |]. rewrite app_String. cbn [mem].
  by destruct (decide (x = c)).
Qed.

(** The first occurrence of a byte. *)
Lemma index_from_none c s i : mem c s = false → index_from c s i = (-1)%Z.
Proof.
  revert i. induction s as [| x s IH]; intros i; [done |]. cbn.
  destruct (decide (x = c)); [done |]. apply IH.
Qed.

Lemma index_from_split c s :
  mem c s = true →
  ∃ a b, s = a +:+ String c b ∧ mem c a = false ∧
         ∀ i, index_from c s i = (i + len a)%Z.
Proof.
  induction s as [| x s IH]; [done |]. cbn.
  destruct (decide (x = c)) as [-> | N]; intros M.
  - exists "", s. split_and!; [done | done |]. intros i. unfold len. cbn. lia.
  - destruct (IH M) as (a & b & -> & Ma & Ix).
    exists (String x a), b. split_and!; [done | |].
    + cbn. by destruct (decide (x = c)).
    + intros i. rewrite Ix, len_String. lia.
Qed.

(** The last occurrence of a byte. *)
Lemma prefix_byte c x s :
  String.prefix (String c "") (String x s) = bool_decide (c = x).
Proof.
  cbn. destruct (ascii_dec c x) as [-> | N].
  - rewrite bool_decide_eq_true_2 by done. by destruct s.
  - by rewrite bool_decide_eq_false_2.
Qed.

Lemma last_index_from_none c s i f :
  mem c s = false → last_index_from (String c "") s i f = f.
Proof.
  revert i f. induction s as [| x s IH]; intros i f; [done |].
  cbn [mem last_index_from]. rewrite prefix_byte.
  destruct (decide (x = c)) as [-> | N]; [done |]. intros M.
  rewrite bool_decide_eq_false_2 by congruence. by apply IH.
Qed.

Lemma last_index_from_split c s :
  mem c s = true →
  ∃ a b, s = a +:+ String c b ∧ mem c b = false ∧
         ∀ i f, last_index_from (String c "") s i f = (i + len a)%Z.
Proof.
  induction s as [| x s IH]; [done |]. cbn [mem].
  destruct (mem c s) eqn:M.
  - intros _. destruct (IH eq_refl) as (a & b & -> & Mb & Ix).
    exists (String x a), b. split_and!; [done | done |].
    intros i f. cbn [last_index_from]. rewrite Ix, len_String. lia.
  - destruct (decide (x = c)) as [-> | N]; [intros _ | done].
    exists "", s. split_and!; [done | done |].
    intros i f. cbn [last_index_from]. rewrite prefix_byte.
    rewrite bool_decide_eq_true_2 by done.
    rewrite last_index_from_none by done. unfold len. cbn. lia.
Qed.

Lemma LastIndex_app_byte c a b :
  mem c b = false → LastIndex (a +:+ String c b) (String c "") = len a.
Proof.
  intros Mb. unfold LastIndex.
  assert (G : ∀ i f, last_index_from (String c "") (a +:+ String c b) i f =
                     (i + len a)%Z).
  { induction a as [| x a IH]; intros i f.
    - rewrite app_empty_l. cbn [last_index_from]. rewrite prefix_byte.
      rewrite bool_decide_eq_true_2 by done.
      rewrite last_index_from_none by done. unfold len. cbn. lia.
    - rewrite app_String. cbn [last_index_from]. rewrite IH, len_String. lia. }
  by rewrite G.
Qed.

Lemma IndexRune_app_byte c a b :
  mem c a = false → IndexRune (a +:+ String c b) c = len a.
Proof.
  intros Ma. unfold IndexRune.
  assert (G : ∀ i, index_from c (a +:+ String c b) i = (i + len a)%Z).
  { induction a as [| x a IH]; intros i.
    - rewrite app_empty_l. cbn [index_from].
      destruct (decide (c = c)); [| done]. unfold len. cbn. lia.
    - cbn [mem] in Ma. rewrite app_String. cbn [index_from].
      destruct (decide (x = c)); [done |]. rewrite IH by done.
      rewrite len_String. lia. }
  by rewrite G.
Qed.

End StringsFacts.

(** * Properties of package [build] *)
Module BuildFacts.
Import Model Strings Build StringsFacts.

Section Facts.
Context `{!Consts}.

Implicit Types (name domain remainder repo tag : string).

Lemma GetRepoNameWithoutTag_parts name :
  GetRepoNameWithoutTag name =
  if decide (IndexRune name "@"%char ≠ -1)%Z
  then slice name 0 (IndexRune name "@"%char)
  else '(domain, remainder) ← split_domain name; cut_tag name domain remainder.
Proof. reflexivity. Qed.

Lemma IndexRune_none name c : mem c name = false → IndexRune name c = (-1)%Z.
Proof. apply index_from_none. Qed.

Lemma IndexRune_split name c :
  mem c name = true →
  ∃ a b, name = a +:+ String c b ∧ mem c a = false ∧ IndexRune name c = len a.
Proof.
  intros M. destruct (index_from_split c name M) as (a & b & E & Ma & Ix).
  exists a, b. split_and!; [done.. |]. unfold IndexRune. rewrite Ix. lia.
Qed.

Lemma LastIndex_none s c : mem c s = false → LastIndex s (String c "") = (-1)%Z.
Proof. apply last_index_from_none. Qed.

Lemma LastIndex_split s c :
  mem c s = true →
  ∃ a b, s = a +:+ String c b ∧ mem c b = false ∧
         LastIndex s (String c "") = len a.
Proof.
  intros M. destruct (last_index_from_split c s M) as (a & b & E & Mb & Ix).
  exists a, b. split_and!; [done.. |]. unfold LastIndex. rewrite Ix. lia.
Qed.

(** The registry: either none is split off, or the name is the domain,
    a slash and the remainder. *)
Lemma split_domain_cases name :
  split_domain name = Some ("", name) ∨
  ∃ head rest,
    split_domain name = Some (head, rest) ∧
    name = head +:+ "/" +:+ rest ∧ mem "/"%char head = false ∧
    (ContainsAny head ".:" = true ∨ head = Localhost).
Proof.
  unfold split_domain.
  destruct (mem "/"%char name) eqn:M.
  2:{ left. rewrite IndexRune_none by done. by destruct (decide _). }
  destruct (IndexRune_split _ _ M) as (h & r & -> & Mh & ->).
  pose proof (len_nonneg h).
  destruct (decide (len h = -1)%Z); [lia |].
  rewrite slice_prefix. cbn [mbind option_bind].
  destruct (ContainsAny h ".:") eqn:Any; cbn [negb andb].
  - right. exists h, r.
    change (h +:+ String "/" r) with (h +:+ "/" +:+ r).
    rewrite <- app_assoc.
    replace (len h + 1)%Z with (len (h +:+ "/")) by (by rewrite len_app).
    rewrite slice_suffix, app_assoc. auto.
  - destruct (decide (h = Localhost)) as [E | N].
    + rewrite bool_decide_eq_false_2 by auto. right. exists h, r.
      change (h +:+ String "/" r) with (h +:+ "/" +:+ r).
      rewrite <- app_assoc.
      replace (len h + 1)%Z with (len (h +:+ "/")) by (by rewrite len_app).
      rewrite slice_suffix, app_assoc. auto.
    + rewrite bool_decide_eq_true_2 by done. by left.
Qed.

(** The tag: the remainder up to its last colon. *)
Lemma cut_tag_cases name domain remainder :
  (mem ":"%char remainder = false ∧ cut_tag name domain remainder = Some name) ∨
  ∃ repo tag,
    remainder = repo +:+ ":" +:+ tag ∧ mem ":"%char tag = false ∧
    cut_tag name domain remainder =
    Some (if decide (domain = "") then repo else domain +:+ "/" +:+ repo).
Proof.
  unfold cut_tag.
  destruct (mem ":"%char remainder) eqn:M.
  2:{ left. rewrite LastIndex_none by done. by destruct (decide _). }
  right. destruct (LastIndex_split _ _ M) as (a & b & -> & Mb & ->).
  pose proof (len_nonneg a).
  destruct (decide (len a = -1)%Z); [lia |].
  rewrite slice_prefix. cbn [mbind option_bind].
  exists a, b. split_and!; [done | done |]. by destruct (decide (domain = "")).
Qed.

(** [GetRepoNameWithoutTag] as a whole. *)
Lemma GetRepoNameWithoutTag_spec name :
  Localhost ≠ "" →
  ∃ r rest,
    GetRepoNameWithoutTag name = Some r ∧ name = r +:+ rest ∧
    mem "@"%char r = false.
Proof.
  intros NE. rewrite GetRepoNameWithoutTag_parts.
  destruct (mem "@"%char name) eqn:M.
  { destruct (IndexRune_split _ _ M) as (a & b & -> & Ma & ->).
    pose proof (len_nonneg a).
    destruct (decide (len a ≠ -1)%Z); [| lia].
    rewrite slice_prefix. by exists a, (String "@" b). }
  rewrite IndexRune_none by done.
  destruct (decide (-1 ≠ -1)%Z); [done |].
  assert (Pre : ∀ r rest, name = r +:+ rest → mem "@"%char r = false).
  { intros r rest E. rewrite E, mem_app in M.
    by apply orb_false_elim in M as [? ?]. }
  destruct (split_domain_cases name)
    as [-> | (h & rest & -> & E & Mh & Dom)]; cbn [mbind option_bind].
  - destruct (cut_tag_cases name "" name)
      as [(_ & ->) | (repo & tag & E & _ & ->)].
    + exists name, "". split_and!; [done | by rewrite app_empty_r |].
      apply (Pre name ""). by rewrite app_empty_r.
    + destruct (decide ("" = "")); [| done].
      exists repo, (":" +:+ tag). split_and!; [done | done |]. by eapply Pre.
  - destruct (cut_tag_cases name h rest)
      as [(_ & ->) | (repo & tag & -> & _ & ->)].
    + exists name, "". split_and!; [done | by rewrite app_empty_r |].
      apply (Pre name ""). by rewrite app_empty_r.
    + destruct (decide (h = "")) as [-> | _].
      { destruct Dom as [Any | E']; [done | by subst]. }
      exists (h +:+ "/" +:+ repo), (":" +:+ tag).
      assert (E2 : name = (h +:+ "/" +:+ repo) +:+ ":" +:+ tag)
        by (by rewrite E, !app_assoc).
      split_and!; [done | done |]. by eapply Pre.
Qed.

Lemma first_split_unique c a b a' b' :
  a +:+ String c b = a' +:+ String c b' →
  mem c a = false → mem c a' = false → a = a' ∧ b = b'.
Proof.
  revert a'. induction a as [| x a IH]; intros [| x' a']; rewrite ?app_String,
    ?app_empty_l; cbn [mem]; intros E Ma Ma'.
  - by injection E.
  - injection E as <- _. by destruct (decide (c = c)).
  - injection E as -> _. by destruct (decide (c = c)).
  - injection E as <- E.
    destruct (decide (x = c)); [done |].
    destruct (IH a' E Ma Ma') as [-> ->]. done.
Qed.

Lemma cut_tag_tagged name domain repo tag :
  mem ":"%char tag = false →
  cut_tag name domain (repo +:+ ":" +:+ tag) =
  Some (if decide (domain = "") then repo else domain +:+ "/" +:+ repo).
Proof.
  intros Mt. unfold cut_tag.
  change (repo +:+ ":" +:+ tag) with (repo +:+ String ":" tag).
  rewrite LastIndex_app_byte by done.
  pose proof (len_nonneg repo).
  destruct (decide (len repo = -1)%Z); [lia |].
  rewrite slice_prefix. cbn [mbind option_bind].
  by destruct (decide (domain = "")).
Qed.

Lemma cut_tag_untagged name domain remainder :
  mem ":"%char remainder = false → cut_tag name domain remainder = Some name.
Proof.
  intros M. unfold cut_tag. rewrite LastIndex_none by done.
  by destruct (decide _).
Qed.

Lemma GetRepoNameWithoutTag_no_digest name :
  mem "@"%char name = false →
  GetRepoNameWithoutTag name =
  '(domain, remainder) ← split_domain name; cut_tag name domain remainder.
Proof.
  intros M. rewrite GetRepoNameWithoutTag_parts, IndexRune_none by done.
  by destruct (decide (-1 ≠ -1)%Z).
Qed.

Lemma GetRepoNameWithoutTag_total name : is_Some (GetRepoNameWithoutTag name).
Proof.
  rewrite GetRepoNameWithoutTag_parts.
  destruct (mem "@"%char name) eqn:M.
  { destruct (IndexRune_split _ _ M) as (a & b & -> & Ma & ->).
    pose proof (len_nonneg a).
    destruct (decide (len a ≠ -1)%Z); [| lia].
    rewrite slice_prefix. by eexists. }
  rewrite IndexRune_none by done.
  destruct (decide (-1 ≠ -1)%Z); [done |].
  destruct (split_domain_cases name) as [-> | (h & rest & -> & _)];
    cbn [mbind option_bind].
  - destruct (cut_tag_cases name "" name)
      as [(_ & ->) | (repo & tag & _ & _ & ->)]; by eexists.
  - destruct (cut_tag_cases name h rest)
      as [(_ & ->) | (repo & tag & _ & _ & ->)]; by eexists.
Qed.

Lemma GetRepoNameWithoutTag_tagged_run repo tag :
  Localhost ≠ "" →
  mem "@"%char repo = false →
  mem ":"%char tag = false →
  mem "/"%char tag = false →
  mem "@"%char tag = false →
  GetRepoNameWithoutTag (repo +:+ ":" +:+ tag) = Some repo.
Proof.
  intros NE Mr Mt1 Mt2 Mt3.
  rewrite GetRepoNameWithoutTag_no_digest.
  2:{ change (repo +:+ ":" +:+ tag) with (repo +:+ String ":" tag).
      rewrite mem_app, Mr. cbn [mem orb].
      by destruct (decide (":"%char = "@"%char)). }
  destruct (split_domain_cases (repo +:+ ":" +:+ tag))
    as [-> | (h & rest & -> & E & Mh & Dom)]; cbn [mbind option_bind].
  { rewrite cut_tag_tagged by done. by destruct (decide ("" = "")). }
  destruct (mem "/"%char repo) eqn:Ms.
  - destruct (IndexRune_split _ _ Ms) as (h' & r' & -> & Mh' & _).
    assert (E' : h' +:+ String "/" (r' +:+ ":" +:+ tag) =
                 h +:+ String "/" rest).
    { change (h +:+ String "/" rest) with (h +:+ "/" +:+ rest).
      rewrite <- E. by rewrite !app_assoc. }
    destruct (first_split_unique _ _ _ _ _ E' Mh' Mh) as [-> <-].
    rewrite cut_tag_tagged by done.
    destruct (decide (h = "")) as [-> | _]; [| done].
    destruct Dom as [Any | E'']; [done | by subst].
  - exfalso.
    assert (M : mem "/"%char (repo +:+ ":" +:+ tag) = false).
    { change (repo +:+ ":" +:+ tag) with (repo +:+ String ":" tag).
      rewrite mem_app, Ms. cbn [mem orb].
      by destruct (decide (":"%char = "/"%char)). }
    rewrite E in M. change (h +:+ "/" +:+ rest) with (h +:+ String "/" rest) in M.
    rewrite mem_app in M. cbn [mem] in M.
    destruct (decide ("/"%char = "/"%char)); [| done].
    by rewrite orb_true_r in M.
Qed.

Lemma split_domain_registry head rest :
  mem "/"%char head = false →
  (ContainsAny head ".:" = true ∨ head = Localhost) →
  split_domain (head +:+ "/" +:+ rest) = Some (head, rest).
Proof.
  intros Mh Dom. unfold split_domain.
  change (head +:+ "/" +:+ rest) with (head +:+ String "/" rest).
  rewrite IndexRune_app_byte by done.
  pose proof (len_nonneg head).
  destruct (decide (len head = -1)%Z); [lia |].
  rewrite slice_prefix. cbn [mbind option_bind].
  assert (Cond : negb (ContainsAny head ".:") && bool_decide (head ≠ Localhost)
                 = false).
  { destruct Dom as [-> | ->]; [done |].
    rewrite bool_decide_eq_false_2 by auto. apply andb_false_r. }
  rewrite Cond.
  change (head +:+ String "/" rest) with (head +:+ "/" +:+ rest).
  rewrite <- app_assoc.
  replace (len head + 1)%Z with (len (head +:+ "/")) by (by rewrite len_app).
  by rewrite slice_suffix.
Qed.

(** *** [GetRepoNameWithoutTag] *)

(** X8.  [GetRepoNameWithoutTag] never panics: every slice it takes is within
    bounds.  What it returns is the beginning of the name, and carries no
    digest: it contains no [@]. *)
Theorem GetRepoNameWithoutTag_prefix name :
  Localhost ≠ "" →
  ∃ r rest,
    GetRepoNameWithoutTag name = Some r ∧ name = r +:+ rest ∧
    mem "@"%char r = false.
Proof. apply GetRepoNameWithoutTag_spec. Qed.

(** X9.  Cutting the tag undoes tagging: for a repository without digest and
    a tag without colon, slash or [@], the name of [repo:tag] without its
    tag is [repo], whether or not the repository has a registry, and a
    port in it. *)
Theorem GetRepoNameWithoutTag_tagged repo tag :
  Localhost ≠ "" →
  mem "@"%char repo = false →
  mem ":"%char tag = false →
  mem "/"%char tag = false →
  mem "@"%char tag = false →
  GetRepoNameWithoutTag (repo +:+ ":" +:+ tag) = Some repo.
Proof. apply GetRepoNameWithoutTag_tagged_run. Qed.

(** X10.  Cutting the digest undoes pinning: the name of [name@digest]
    without its tag is [name], whatever the digest and whatever tag or
    registry the name has. *)
Theorem GetRepoNameWithoutTag_digest name digest :
  mem "@"%char name = false →
  GetRepoNameWithoutTag (name +:+ "@" +:+ digest) = Some name.
Proof.
  intros M. rewrite GetRepoNameWithoutTag_parts.
  change (name +:+ "@" +:+ digest) with (name +:+ String "@" digest).
  rewrite IndexRune_app_byte by done.
  pose proof (len_nonneg name).
  destruct (decide (len name ≠ -1)%Z); [| lia].
  apply slice_prefix.
Qed.

(** X11.  A name without tag and digest is returned as it is: a name without
    colon, and also a name whose only colons are in its registry (the port
    of [host:port/path] is not taken for a tag). *)
Theorem GetRepoNameWithoutTag_untagged name :
  mem "@"%char name = false →
  (mem ":"%char name = false ∨
   ∃ head rest,
     name = head +:+ "/" +:+ rest ∧ mem "/"%char head = false ∧
     (ContainsAny head ".:" = true ∨ head = Localhost) ∧
     mem ":"%char rest = false) →
  GetRepoNameWithoutTag name = Some name.
Proof.
  intros M Cases. rewrite GetRepoNameWithoutTag_no_digest by done.
  destruct Cases as [Mc | (h' & r' & -> & Mh' & Dom' & Mr')].
  - destruct (split_domain_cases name)
      as [-> | (h & rest & -> & E & Mh & Dom)]; cbn [mbind option_bind].
    + by apply cut_tag_untagged.
    + apply cut_tag_untagged.
      rewrite E in Mc. rewrite !mem_app in Mc.
      by repeat apply orb_false_elim in Mc as [? Mc].
  - rewrite split_domain_registry by done. cbn [mbind option_bind].
    by apply cut_tag_untagged.
Qed.

(** *** [GetImageTag] and [GetDevImageTag] *)

(** X12.  Without a registry of its own, [GetImageTag] replaces the tag of the
    image by [okteto]. *)
Theorem GetImageTag_retags repo tag service namespace :
  Localhost ≠ "" →
  mem "@"%char repo = false →
  mem ":"%char tag = false →
  mem "/"%char tag = false →
  mem "@"%char tag = false →
  GetImageTag (repo +:+ ":" +:+ tag) service namespace "" =
  Some (repo +:+ ":okteto").
Proof.
  intros. unfold GetImageTag. destruct (decide ("" ≠ "")); [done |].
  by rewrite GetRepoNameWithoutTag_tagged_run.
Qed.

(** X13.  Without a registry of its own, tagging again changes nothing: the
    tag [GetImageTag] gives to an image it has tagged is that tag. *)
Theorem GetImageTag_idempotent image service namespace t :
  Localhost ≠ "" →
  GetImageTag image service namespace "" = Some t →
  GetImageTag t service namespace "" = Some t.
Proof.
  intros NE. unfold GetImageTag. destruct (decide ("" ≠ "")); [done |].
  destruct (GetRepoNameWithoutTag_spec image NE) as (r & rest & -> & _ & Mr).
  cbn [mbind option_bind]. intros [= <-].
  change (r +:+ ":okteto") with (r +:+ ":" +:+ "okteto").
  by rewrite GetRepoNameWithoutTag_tagged_run.
Qed.

(** [GetImageTag] never panics and never returns the empty name. *)
Lemma GetImageTag_nonempty image service namespace url :
  ∃ t, GetImageTag image service namespace url = Some t ∧ t ≠ "".
Proof.
  unfold GetImageTag.
  destruct (decide (url ≠ "")) as [U | _].
  - destruct (decide (image = "" ∨ image = DefaultImage)) as [_ | N].
    + eexists. split; [done |]. by destruct url.
    + exists image. split; [done |]. intros ->. apply N. by left.
  - destruct (GetRepoNameWithoutTag_total image) as [r ->].
    cbn [mbind option_bind]. eexists. split; [done |].
    by destruct r.
Qed.

(** X14.  [GetDevImageTag] panics in one case only: on a nil manifest,
    when the image tag it is given is empty or the default image, for it
    then reads the name and the namespace of the manifest.  In every
    other case it returns a name, and a name it returns is never
    empty. *)
Theorem GetDevImageTag_nil_or_nonempty dev imageTag imageFromDeployment url :
  (GetDevImageTag dev imageTag imageFromDeployment url = None ↔
   dev = None ∧ (imageTag = "" ∨ imageTag = DefaultImage)) ∧
  (∀ t, GetDevImageTag dev imageTag imageFromDeployment url = Some t →
        t ≠ "").
Proof.
  unfold GetDevImageTag.
  destruct (decide (imageTag ≠ "" ∧ imageTag ≠ DefaultImage)) as [[N1 N2] | N].
  { split.
    - split; [done |]. intros (_ & [E | E]); done.
    - by intros t [= <-]. }
  assert (Tag : imageTag = "" ∨ imageTag = DefaultImage).
  { destruct (decide (imageTag = "")) as [E | N1]; [by left |].
    destruct (decide (imageTag = DefaultImage)) as [E | N2]; [by right |].
    exfalso. by apply N. }
  destruct dev as [d |]; cbn [mbind option_bind].
  - destruct (GetImageTag_nonempty imageFromDeployment (dev_Name d)
                (dev_Namespace d) url) as (t & -> & NE).
    split.
    + split; [done |]. by intros [? _].
    + by intros t' [= <-].
  - split; [by split | done].
Qed.

End Facts.
End BuildFacts.

(** * Properties of the patterns *)
Module RegexpFacts.
Import Regexp StringsFacts.

Lemma nullable_lang r : nullable r = true → lang r "".
Proof.
  induction r as [| | c | | c | r1 IH1 r2 IH2 | r1 IH1 r2 IH2 | r IH];
    cbn [nullable]; intros N; try done.
  - constructor.
  - apply andb_prop in N as [N1 N2].
    change "" with ("" +:+ ""). constructor; auto.
  - apply orb_prop in N as [N | N]; [apply lang_Alt_l | apply lang_Alt_r]; auto.
  - constructor.
Qed.

Lemma deriv_lang c r : ∀ s, lang (deriv c r) s → lang r (String c s).
Proof.
  induction r as [| | x | | x | r1 IH1 r2 IH2 | r1 IH1 r2 IH2 | r IH];
    cbn [deriv]; intros s L.
  - inversion L.
  - inversion L.
  - destruct (decide (c = x)) as [-> | N]; inversion L; subst. constructor.
  - destruct (decide (c = newline)) as [-> | N]; inversion L; subst.
    by constructor.
  - destruct (decide (c = x)) as [-> | N]; inversion L; subst.
    by constructor.
  - assert (Left : ∀ s, lang (Cat (deriv c r1) r2) s →
                        lang (Cat r1 r2) (String c s)).
    { intros s' L'. inversion L' as [| | | | ? ? a b La Lb | | | |]; subst.
      rewrite <- app_String. constructor; auto. }
    destruct (nullable r1) eqn:N; [| by apply Left].
    inversion L; subst; [by apply Left |].
    change (String c s) with ("" +:+ String c s).
    constructor; [by apply nullable_lang | auto].
  - inversion L; subst; [apply lang_Alt_l | apply lang_Alt_r]; auto.
  - inversion L as [| | | | ? ? a b La Lb | | | |]; subst.
    rewrite <- app_String. constructor; auto.
Qed.

(** A pattern that matches a beginning of [s] matches, as a language,
    some [a] with [s = a + b]. *)
Lemma matches_prefix_lang s : ∀ r,
  matches_prefix r s = true → ∃ a b, s = a +:+ b ∧ lang r a.
Proof.
  induction s as [| c s IH]; intros r; cbn [matches_prefix]; intros M.
  - rewrite orb_false_r in M. exists "", "". split; [done |].
    by apply nullable_lang.
  - apply orb_prop in M as [N | M].
    + exists "", (String c s). split; [done |]. by apply nullable_lang.
    + destruct (IH _ M) as (a & b & -> & L).
      exists (String c a), b. split; [done |]. by apply deriv_lang.
Qed.

Lemma lang_Lit s a : lang (Lit s) a → a = s.
Proof.
  revert a. induction s as [| c s IH]; intros a L; cbn [Lit] in L.
  - by inversion L.
  - inversion L as [| | | | ? ? x y Lx Ly | | | |]; subst.
    inversion Lx; subst. apply IH in Ly as ->. done.
Qed.

Lemma lang_Cat_inv r1 r2 s :
  lang (Cat r1 r2) s → ∃ a b, s = a +:+ b ∧ lang r1 a ∧ lang r2 b.
Proof. intros L. inversion L; subst. eauto. Qed.

Lemma app_eq_empty a b : a +:+ b = "" → a = "" ∧ b = "".
Proof. destruct a; [by rewrite app_empty_l | by rewrite app_String]. Qed.

Lemma lang_nullable r w : lang r w → w = "" → nullable r = true.
Proof.
  induction 1 as [| c | c N | x c N | r1 r2 a b La IHa Lb IHb
                  | r1 r2 a La IHa | r1 r2 a La IHa | r | r a b La IHa Lb IHb];
    intros E; cbn [nullable]; try done.
  - apply app_eq_empty in E as [-> ->]. by rewrite IHa, IHb.
  - by rewrite IHa.
  - rewrite IHa by done. apply orb_true_r.
Qed.

Lemma lang_deriv r w : lang r w → ∀ c s, w = String c s → lang (deriv c r) s.
Proof.
  induction 1 as [| x | x N | y x N | r1 r2 a b La IHa Lb IHb
                  | r1 r2 a La IHa | r1 r2 a La IHa | r | r a b La IHa Lb IHb];
    intros c s E; cbn [deriv].
  - done.
  - injection E as <- <-. destruct (decide (x = x)); [constructor | done].
  - injection E as <- <-. destruct (decide (x = newline)); [done | constructor].
  - injection E as <- <-. destruct (decide (x = y)); [done | constructor].
  - destruct a as [| x a].
    + rewrite app_empty_l in E. rewrite (lang_nullable _ _ La eq_refl).
      apply lang_Alt_r. by apply IHb.
    + rewrite app_String in E. injection E as -> <-.
      assert (L : lang (Cat (deriv c r1) r2) (a +:+ b))
        by (constructor; [by apply IHa | done]).
      destruct (nullable r1); [by apply lang_Alt_l | done].
  - apply lang_Alt_l. by apply IHa.
  - apply lang_Alt_r. by apply IHa.
  - done.
  - destruct a as [| x a].
    + rewrite app_empty_l in E. by apply (IHb c s).
    + rewrite app_String in E. injection E as -> <-.
      constructor; [by apply IHa | done].
Qed.

(** A pattern matches every string that begins with a string of its
    language. *)
Lemma lang_matches_prefix a : ∀ r b, lang r a → matches_prefix r (a +:+ b) = true.
Proof.
  induction a as [| c a IH]; intros r b L.
  - rewrite app_empty_l.
    destruct b; cbn [matches_prefix];
      by rewrite (lang_nullable _ _ L eq_refl).
  - rewrite app_String. cbn [matches_prefix].
    rewrite (IH (deriv c r) b); [apply orb_true_r |].
    by eapply lang_deriv.
Qed.

End RegexpFacts.

(** * Properties of [strings.ReplaceAll] *)
Module ReplaceFacts.
Import Strings StringsFacts StringsReplace.

Lemma prefix_app old b : String.prefix old (old +:+ b) = true.
Proof.
  induction old as [| c old IH]; [by destruct b |].
  rewrite app_String. cbn [String.prefix].
  destruct (ascii_dec c c); [exact IH | done].
Qed.

Lemma occurs_app_l sub a s : occurs sub s → occurs sub (a +:+ s).
Proof.
  intros (x & y & ->). exists (a +:+ x), y. by rewrite app_assoc.
Qed.

(** When [old] occurs in [s], the result of the replacement has [new]
    in it. *)
Lemma ReplaceAll_occurs s old new :
  occurs old s → old ≠ "" → occurs new (ReplaceAll s old new).
Proof.
  unfold ReplaceAll. intros (a & b & ->) NE. revert b.
  induction a as [| c a IH]; intros b.
  - rewrite app_empty_l. destruct old as [| o old]; [done |].
    rewrite app_String. cbn [replace_from].
    rewrite <- app_String, prefix_app.
    eexists "", _. by rewrite app_empty_l.
  - rewrite app_String. cbn [replace_from].
    destruct (String.prefix old (String c (a +:+ old +:+ b))).
    + eexists "", _. by rewrite app_empty_l.
    + destruct (IH b) as (x & y & E). rewrite E.
      exists (String c x), y. by rewrite app_String.
Qed.

(** Without [old] in it, [s] is left as it is. *)
Lemma prefix_inv old s :
  String.prefix old s = true → ∃ b, s = old +:+ b.
Proof.
  revert s. induction old as [| c old IH]; intros s P.
  - by exists s.
  - destruct s as [| x s]; [done |]. cbn [String.prefix] in P.
    destruct (ascii_dec c x) as [-> | N]; [| done].
    destruct (IH s P) as [b ->]. by exists b.
Qed.

Lemma ReplaceAll_absent s old new :
  ¬ occurs old s → ReplaceAll s old new = s.
Proof.
  unfold ReplaceAll. induction s as [| c s IH]; intros N; [done |].
  cbn [replace_from].
  destruct (String.prefix old (String c s)) eqn:P.
  - exfalso. apply N. apply prefix_inv in P as [b ->].
    exists "", b. by rewrite app_empty_l.
  - rewrite IH; [done |]. intros (x & y & ->). apply N.
    exists (String c x), y. by rewrite app_String.
Qed.

Lemma length_append a b :
  String.length (a +:+ b) = (String.length a + String.length b)%nat.
Proof.
  induction a as [| x a IH]; [done |].
  rewrite app_String. cbn [String.length]. by rewrite IH.
Qed.

(** A replacement by something longer makes the string longer. *)
Lemma replace_from_length old new : ∀ s k,
  old ≠ "" → (String.length old ≤ String.length new)%nat →
  (String.length s ≤ String.length (replace_from old new k s) + k)%nat.
Proof.
  intros s k NE Le. revert k.
  induction s as [| c s IH]; intros k; cbn [replace_from String.length];
    [lia |].
  destruct k as [| k].
  - destruct (String.prefix old (String c s)).
    + rewrite length_append. specialize (IH (String.length old - 1)).
      destruct old; [done |]. cbn [String.length] in *. lia.
    + cbn [String.length]. specialize (IH 0). lia.
  - specialize (IH k). lia.
Qed.

Lemma ReplaceAll_longer s old new :
  occurs old s → old ≠ "" → (String.length old < String.length new)%nat →
  (String.length s < String.length (ReplaceAll s old new))%nat.
Proof.
  unfold ReplaceAll. intros (a & b & ->) NE Lt. revert b.
  assert (Hit : ∀ c s, String.prefix old (String c s) = true →
            (String.length (String c s) <
             String.length (replace_from old new 0 (String c s)))%nat).
  { intros c s P. cbn [replace_from]. rewrite P, length_append.
    pose proof (replace_from_length old new s (String.length old - 1) NE
                  ltac:(lia)).
    destruct old; [done |]. cbn [String.length] in *. lia. }
  induction a as [| c a IH]; intros b.
  - rewrite app_empty_l. destruct old as [| o old]; [done |].
    rewrite app_String. apply Hit. rewrite <- app_String. apply prefix_app.
  - rewrite app_String.
    destruct (String.prefix old (String c (a +:+ old +:+ b))) eqn:P.
    + by apply Hit.
    + cbn [replace_from]. rewrite P. cbn [String.length].
      specialize (IH b). lia.
Qed.

End ReplaceFacts.


(** * Properties of the cache handler *)
Module BuildCacheFacts.
Import Strings Regexp StringsReplace BuildCache StringsFacts RegexpFacts
  ReplaceFacts.

Lemma lang_Star_AnyChar_inv r x :
  lang r x → r = Star AnyChar → mem newline x = false.
Proof.
  induction 1 as [| | | | | | | r | r a b La IHa Lb IHb]; intros E; try done.
  injection E as ->. rewrite mem_app, IHb by done.
  inversion La as [| | c N | | | | | |]; subst. cbn [mem].
  destruct (decide (c = newline)); done.
Qed.

Lemma lang_Star_AnyChar x : mem newline x = false → lang (Star AnyChar) x.
Proof.
  induction x as [| c x IH]; cbn [mem]; intros M; [constructor |].
  destruct (decide (c = newline)); [done |].
  change (String c x) with (String c "" +:+ x).
  constructor; [by constructor | by apply IH].
Qed.

Lemma lang_Lit_refl s : lang (Lit s) s.
Proof.
  induction s as [| c s IH]; [constructor |].
  change (String c s) with (String c "" +:+ s). constructor; [constructor | done].
Qed.

(** What the three patterns match. *)
Lemma cache_mount_sound input :
  MatchString cache_mount input = true → cache_run input.
Proof.
  intros M. apply matches_prefix_lang in M as (a & z & -> & L).
  unfold cache_mount in L.
  apply lang_Cat_inv in L as (r & a1 & -> & ->%lang_Lit & L).
  apply lang_Cat_inv in L as (x & a2 & -> & Lx & L).
  apply lang_Cat_inv in L as (m & a3 & -> & ->%lang_Lit & L).
  apply lang_Cat_inv in L as (y & t & -> & Ly & ->%lang_Lit).
  exists x, y, z. split_and!.
  - by rewrite !app_assoc.
  - by eapply lang_Star_AnyChar_inv.
  - by eapply lang_Star_AnyChar_inv.
Qed.

Lemma cache_mount_complete input :
  cache_run input → MatchString cache_mount input = true.
Proof.
  intros (x & y & z & -> & Mx & My).
  replace ("RUN" +:+ x +:+ "--mount=" +:+ y +:+ "type=cache" +:+ z)
    with (("RUN" +:+ x +:+ "--mount=" +:+ y +:+ "type=cache") +:+ z)
    by (by rewrite !app_assoc).
  apply lang_matches_prefix. unfold cache_mount.
  repeat (constructor; auto using lang_Lit_refl, lang_Star_AnyChar).
Qed.

Lemma mount_id_first_sound input :
  MatchString mount_id_first input = true → occurs "--mount=id=" input.
Proof.
  intros M. apply matches_prefix_lang in M as (a & z & -> & L).
  unfold mount_id_first in L.
  apply lang_Cat_inv in L as (r & a1 & -> & ->%lang_Lit & L).
  apply lang_Cat_inv in L as (x & a2 & -> & Lx & ->%lang_Lit).
  exists ("RUN" +:+ x), z. by rewrite !app_assoc.
Qed.

Lemma mount_id_later_sound input :
  MatchString mount_id_later input = true → occurs ",id=" input.
Proof.
  intros M. apply matches_prefix_lang in M as (a & z & -> & L).
  unfold mount_id_later in L.
  apply lang_Cat_inv in L as (r & a1 & -> & ->%lang_Lit & L).
  apply lang_Cat_inv in L as (x & a2 & -> & Lx & L).
  apply lang_Cat_inv in L as (m & a3 & -> & ->%lang_Lit & L).
  apply lang_Cat_inv in L as (y & t & -> & Ly & ->%lang_Lit).
  exists ("RUN" +:+ x +:+ "--mount=" +:+ y), z. by rewrite !app_assoc.
Qed.

Lemma occurs_middle a sub b s : occurs (a +:+ sub +:+ b) s → occurs sub s.
Proof.
  intros (x & y & ->). exists (x +:+ a), (b +:+ y). by rewrite !app_assoc.
Qed.

(** X15.  [translateCacheHandler] changes the [RUN] lines with a cache mount,
    and no other line. *)
Theorem translateCacheHandler_changes_iff input userID :
  translateCacheHandler input userID ≠ input ↔ cache_run input.
Proof.
  unfold translateCacheHandler. split.
  - intros NE. destruct (MatchString cache_mount input) eqn:M; [| done].
    by apply cache_mount_sound.
  - intros R. rewrite (cache_mount_complete _ R).
    assert (Longer : ∀ old new,
              occurs old input → old ≠ "" →
              (String.length old < String.length new)%nat →
              ReplaceAll input old new ≠ input).
    { intros old new O NE Lt E.
      pose proof (ReplaceAll_longer input old new O NE Lt) as L.
      rewrite E in L. lia. }
    destruct (MatchString mount_id_first input) eqn:M1.
    { apply Longer; [by apply mount_id_first_sound | done |].
      rewrite !length_append. cbn. lia. }
    destruct (MatchString mount_id_later input) eqn:M2.
    { apply Longer; [by apply mount_id_later_sound | done |].
      rewrite !length_append. cbn. lia. }
    apply Longer; [| done |].
    + destruct R as (x & y & z & -> & _).
      exists ("RUN" +:+ x), (y +:+ "type=cache" +:+ z). by rewrite !app_assoc.
    + rewrite !length_append. cbn. lia.
Qed.

(** X16.  The line [translateCacheHandler] returns for a [RUN] line with a
    cache mount has a mount ID that begins with the ID of the user. *)
Theorem translateCacheHandler_user input userID :
  cache_run input →
  occurs ("id=" +:+ userID) (translateCacheHandler input userID).
Proof.
  intros R. unfold translateCacheHandler.
  rewrite (cache_mount_complete _ R).
  destruct (MatchString mount_id_first input) eqn:M1.
  { apply (occurs_middle "--mount=" _ "-").
    apply (ReplaceAll_occurs input "--mount=id=");
      [by apply mount_id_first_sound | done]. }
  destruct (MatchString mount_id_later input) eqn:M2.
  { apply (occurs_middle "," _ "-").
    apply (ReplaceAll_occurs input ",id=");
      [by apply mount_id_later_sound | done]. }
  apply (occurs_middle "--mount=" _ ",").
  apply (ReplaceAll_occurs input "--mount="); [| done].
  destruct R as (x & y & z & -> & _).
  exists ("RUN" +:+ x), (y +:+ "type=cache" +:+ z). by rewrite !app_assoc.
Qed.

End BuildCacheFacts.

(** * More properties of package [ssh] *)
Module SshMore.
Import Ssh GoFacts SshFacts SshTrace.

Section Facts.
Context {N : Type} `{!Net N} `{!ErrorsPkg}.

Implicit Types (w : world N) (errs : list error) (ss : list selected).

Local Ltac reassoc :=
  repeat (rewrite <- app_assoc || rewrite <- app_comm_cons); done.

Local Ltac not_in :=
  let In := fresh "In" in
  intros In; repeat (apply elem_of_cons in In as [In | In]; [done |]);
  by apply elem_of_nil in In.

(** *** [getConn] and [getTCPConnection] *)

Lemma getConn_for_pool n ctx serverAddr : ∀ lastErr w,
  p (getConn_for n ctx serverAddr lastErr w).2 = p w.
Proof.
  induction n as [| n IH]; intros lastErr w; [done |].
  cbn [getConn_for].
  unfold dial, env, emit, recv_tick, mbind, M_bind, bind, modify. cbn.
  destruct (DialContext ctx "tcp" serverAddr (net w)) as [[c | e] n1]; cbn;
    [done |].
  by rewrite IH.
Qed.

(** [getConn] as a whole: the ticker, then the loop. *)
Lemma getConn_run ctx serverAddr maxRetries w :
  ∃ errs,
    let evs := errs ≫= failed_attempt serverAddr in
    let r := getConn ctx serverAddr maxRetries w in
    p r.2 = p w ∧
    ((∃ c, length errs < 5 ∧ r.1 = Ok (Some c, None) ∧
           trace r.2 = trace w ++ EvNewTicker (100 * Millisecond) :: evs ++
                       [EvDial "tcp" serverAddr (inl c)]) ∨
     (∃ e, length errs = 5 ∧ r.1 = Ok (None, Some e) ∧
           trace r.2 = trace w ++ EvNewTicker (100 * Millisecond) :: evs)).
Proof.
  unfold getConn.
  set (w0 := {| p := p w; net := net w;
                trace := trace w ++ [EvNewTicker (100 * Millisecond)] |}).
  assert (Start : ∀ k : unit → M (world N) (option conn * option error),
            (time_NewTicker (100 * Millisecond) ≫= k) w = k tt w0)
    by (intros k; by erewrite bind_Ok by reflexivity).
  rewrite Start.
  destruct (getConn_for_run 5 ctx serverAddr None w0) as [errs Cases].
  exists errs. cbn zeta in *. rewrite getConn_for_pool.
  split; [done |].
  destruct Cases as [(c & Lt & R & T) | (Len & R & T)].
  - left. exists c. split_and!; [done | done |]. rewrite T. cbn [trace w0].
    by rewrite <- app_assoc.
  - right. destruct (last errs) as [e |] eqn:L.
    2:{ apply last_None in L. subst errs. done. }
    exists e. split_and!; [done | done |]. rewrite T. cbn [trace w0].
    by rewrite <- app_assoc.
Qed.

(** [getTCPConnection] as a whole. *)
Lemma getTCPConnection_run ctx serverAddr keepAlive w :
  ∃ errs,
    let evs := errs ≫= failed_attempt serverAddr in
    let r := getTCPConnection ctx serverAddr keepAlive w in
    p r.2 = p w ∧
    ((∃ c, length errs < 5 ∧ r.1 = Ok (Some c, None) ∧
           trace r.2 = trace w ++ EvNewTicker (100 * Millisecond) :: evs ++
                       (EvDial "tcp" serverAddr (inl c) ::
                        configured c keepAlive)) ∨
     (∃ e evs', r.1 = Ok (None, Some e) ∧
           (evs' = [] ∨
            ∃ c, evs' = [EvDial "tcp" serverAddr (inl c);
                         EvSetKeepAlive c true] ∨
                 evs' = EvDial "tcp" serverAddr (inl c) ::
                        configured c keepAlive) ∧
           trace r.2 = trace w ++ EvNewTicker (100 * Millisecond) :: evs ++
                       evs')).
Proof.
  destruct (getConn_run ctx serverAddr 3 w) as [errs Cases].
  exists errs. cbn zeta in *. unfold getTCPConnection.
  destruct (getConn ctx serverAddr 3 w) as [r1 w1] eqn:G. cbn [fst snd] in Cases.
  destruct Cases as (P & [(c & Lt & -> & T) | (e & Len & -> & T)]).
  - erewrite bind_Ok by exact G. cbv beta iota.
    unfold env, emit, mbind, M_bind, bind, modify. cbn.
    destruct (SetKeepAlive c true (net w1)) as [[e1 |] n1]; cbn.
    { split; [done |]. right. exists e1.
      exists [EvDial "tcp" serverAddr (inl c); EvSetKeepAlive c true].
      split_and!; [done | right; exists c; by left |]. rewrite T. reassoc. }
    destruct (SetKeepAlivePeriod c keepAlive n1) as [[e2 |] n2]; cbn.
    { split; [done |]. right. exists e2.
      exists (EvDial "tcp" serverAddr (inl c) :: configured c keepAlive).
      split_and!; [done | right; exists c; by right |]. rewrite T. reassoc. }
    split; [done |]. left. exists c. split_and!; [done | done |].
    rewrite T. reassoc.
  - erewrite bind_Ok by exact G. cbv beta iota. cbn.
    split; [done |]. right. exists e, []. split_and!; [done | by left |].
    by rewrite app_nil_r.
Qed.

(** X17.  [getTCPConnection] does not panic: the connection whose type
    it asserts is never nil.  It returns a connection or an error, never
    both and never neither. *)
Theorem getTCPConnection_result ctx serverAddr keepAlive w :
  (∃ c, (getTCPConnection ctx serverAddr keepAlive w).1 = Ok (Some c, None)) ∨
  (∃ e, (getTCPConnection ctx serverAddr keepAlive w).1 = Ok (None, Some e)).
Proof.
  destruct (getTCPConnection_run ctx serverAddr keepAlive w)
    as (errs & _ & [(c & _ & R & _) | (e & evs' & R & _)]); eauto.
Qed.

(** X18.  A connection [getTCPConnection] returns is the one its only dial
    that succeeded gave, after at most four dials that failed; on it,
    keep-alive has been switched on and its period set to the one asked
    for, in this order, and nothing comes after. *)
Theorem getTCPConnection_configures ctx serverAddr keepAlive w c :
  (getTCPConnection ctx serverAddr keepAlive w).1 = Ok (Some c, None) →
  ∃ errs,
    length errs < 5 ∧
    trace (getTCPConnection ctx serverAddr keepAlive w).2 =
    trace w ++ EvNewTicker (100 * Millisecond) ::
    (errs ≫= failed_attempt serverAddr) ++
    [EvDial "tcp" serverAddr (inl c);
     EvSetKeepAlive c true; EvSetKeepAlivePeriod c keepAlive].
Proof.
  intros R.
  destruct (getTCPConnection_run ctx serverAddr keepAlive w)
    as (errs & _ & [(c' & Lt & R' & T) | (e & evs' & R' & _ & _)]);
    rewrite R in R'; [| done].
  injection R' as ->. by exists errs.
Qed.

(** X19.  [getConn] starts a ticker and never stops it: no path through it,
    and none through [getTCPConnection], releases the ticker. *)
Theorem getTCPConnection_leaves_ticker ctx serverAddr keepAlive w :
  ∃ evs,
    trace (getTCPConnection ctx serverAddr keepAlive w).2 =
      trace w ++ EvNewTicker (100 * Millisecond) :: evs ∧
    EvTickerStop ∉ evs.
Proof.
  assert (Failed : ∀ errs, EvTickerStop ∉ errs ≫= failed_attempt serverAddr).
  { intros errs (e & In & _)%list_elem_of_bind.
    revert In. unfold failed_attempt. not_in. }
  destruct (getTCPConnection_run ctx serverAddr keepAlive w)
    as (errs & _ & [(c & _ & _ & T) | (e & evs' & R & No & T)]).
  - eexists. split; [exact T |].
    intros [In | In]%elem_of_app; [by eapply Failed |].
    revert In. unfold configured. not_in.
  - eexists. split; [exact T |].
    intros [In | In]%elem_of_app; [by eapply Failed |]. revert In.
    destruct No as [-> | (c & [-> | ->])]; unfold configured; not_in.
Qed.

(** *** [pool.keepAlive] *)

(** One pass of the loop. *)
Lemma keepAlive_select_run s w :
  ∃ f w' evs,
    keepAlive_select s w = (Ok f, w') ∧ p w' = p w ∧
    trace w' = trace w ++ evs ∧ (EvTickerStop ∉ evs) ∧
    filter is_send evs =
      match s with
      | t_C => if stopped (p w) then [] else [keepalive_request (client (p w))]
      | ctx_Done _ => []
      end ∧
    f = match s with
        | t_C => if stopped (p w) then Return else Continue
        | ctx_Done _ => Return
        end.
Proof.
  destruct s as [[e |] |].
  - unfold keepAlive_select, log, emit, mbind, M_bind, bind, modify.
    destruct (decide (e = context_Canceled)); cbn.
    + exists Return, w, []. rewrite app_nil_r. split_and!; try done. not_in.
    + eexists Return, _, [_]. split_and!; try done. not_in.
  - exists Return, w, []. rewrite app_nil_r. split_and!; try done. not_in.
  - unfold keepAlive_select, env, log, emit, mbind, M_bind, bind, modify, gets.
    cbn. destruct (stopped (p w)) eqn:S; cbn.
    + exists Return, w, []. rewrite app_nil_r. split_and!; try done. not_in.
    + destruct (SendRequest (client (p w)) "dev.okteto.com/keepalive" true
                  (net w)) as [[e |] n1]; cbn.
      * eexists Continue, _, [_; _].
        split_and!; [done | done | cbn; reassoc | not_in | done | done].
      * eexists Continue, _, [_].
        split_and!; [done | done | done | not_in | done | done].
Qed.



(** One pass, whatever the pool. *)
Lemma keepAlive_for_ticker ss : ∀ w,
  ∃ f w' evs,
    keepAlive_for ss w = (Ok f, w') ∧ p w' = p w ∧
    trace w' = trace w ++ evs ∧ (EvTickerStop ∉ evs).
Proof.
  induction ss as [| s ss IH]; intros w.
  { exists Continue, w, []. rewrite app_nil_r. split_and!; try done. not_in. }
  cbn [keepAlive_for].
  destruct (keepAlive_select_run s w) as (f & w1 & evs & R & P & T & No & _).
  erewrite bind_Ok by exact R. cbv beta.
  destruct f.
  - destruct (IH w1) as (f & w2 & evs2 & R2 & P2 & T2 & No2).
    exists f, w2, (evs ++ evs2). split_and!.
    + done.
    + by rewrite P2.
    + by rewrite T2, T, app_assoc.
    + by intros [In | In]%elem_of_app.
  - by exists Return, w1, evs.
Qed.

(** X21.  On a pool whose period is positive, [keepAlive] starts one
    ticker, of that period, as its first act, and stops it when it
    returns, as its last act, and not before; it never changes the pool.
    ([time.NewTicker] panics on a period that is not positive: the model
    has no such ticker, and the statement is of the pools [time.NewTicker]
    accepts, as the one of [startPool], whose period is 30 seconds.) *)
Theorem keepAlive_releases_ticker ss w :
  (0 < ka (p w))%Z →
  ∃ f evs,
    (keepAlive ss w).1 = Ok f ∧
    p (keepAlive ss w).2 = p w ∧
    trace (keepAlive ss w).2 =
      trace w ++ EvNewTicker (ka (p w)) :: evs ++
      (match f with Return => [EvTickerStop] | Continue => [] end) ∧
    EvTickerStop ∉ evs.
Proof.
  intros _. unfold keepAlive.
  do 2 (erewrite bind_Ok by reflexivity). cbv beta.
  set (w0 := (time_NewTicker (ka (p w)) w).2).
  destruct (keepAlive_for_ticker ss w0) as (f & w1 & evs & R & P & T & No).
  erewrite bind_Ok by exact R. cbv beta.
  exists f, evs. destruct f.
  - split_and!; try done. cbn. rewrite T, app_nil_r. cbn. reassoc.
  - unfold ticker_Stop, emit, modify. erewrite bind_Ok by reflexivity. cbn.
    split_and!; try done. rewrite T. cbn. reassoc.
Qed.





End Facts.
End SshMore.

(** * Properties of [retryNewClientConn] *)
Module SshConnectFacts.
Import Ssh GoFacts SshFacts SshTrace SshMore SshConnect.

Section Facts.
Context {N : Type} `{!Net N} `{!Lib N}.

Implicit Types (w : world N) (cs : list chosen).

Local Ltac reassoc :=
  repeat (rewrite <- app_assoc || rewrite <- app_comm_cons); done.

Local Ltac not_in :=
  let In := fresh "In" in
  intros In; repeat (apply elem_of_cons in In as [In | In]; [done |]);
  by apply elem_of_nil in In.

Lemma filter_is_ticker_cons d e (evs : list event) :
  filter (is_ticker d) (e :: evs) =
  if is_ticker d e then e :: filter (is_ticker d) evs
  else filter (is_ticker d) evs.
Proof. rewrite filter_cons. by destruct (is_ticker d e). Qed.

Local Ltac count :=
  unfold not_ready_log; rewrite ?filter_is_ticker_cons; cbn [is_ticker];
  rewrite ?bool_decide_eq_true_2 by done;
  rewrite ?filter_nil; cbn [length app]; lia.

(** One attempt never panics; it starts one ticker of 100 ms, in
    [getConn], and stops none. *)
Lemma attempt_run ctx addr conf w :
  ∃ r w' evs,
    attempt ctx addr conf w = (Ok r, w') ∧ p w' = p w ∧
    trace w' = trace w ++ EvNewTicker (100 * Millisecond) :: evs ∧
    (EvTickerStop ∉ evs) ∧
    filter (is_ticker (100 * Millisecond)) evs = [].
Proof.
  assert (Failed : ∀ errs,
            (EvTickerStop ∉ errs ≫= failed_attempt addr) ∧
            filter (is_ticker (100 * Millisecond))
                   (errs ≫= failed_attempt addr) = []).
  { intros errs. split.
    - intros (e & In & _)%list_elem_of_bind. revert In.
      unfold failed_attempt. not_in.
    - induction errs as [| e errs IH]; [done |].
      change ((e :: errs) ≫= failed_attempt addr)
        with (failed_attempt addr e ++ (errs ≫= failed_attempt addr)).
      by rewrite filter_app, IH. }
  unfold attempt. erewrite bind_Ok by reflexivity. cbv beta.
  destruct (getTCPConnection_run ctx addr (ka (p w)) w) as [errs Cases].
  cbn zeta in Cases. destruct (Failed errs) as [No Tk].
  destruct (getTCPConnection ctx addr (ka (p w)) w) as [r1 w1] eqn:G.
  cbn [fst snd] in Cases.
  destruct Cases as (P & [(c & Lt & -> & T) | (e & evs' & -> & No' & T)]).
  - erewrite bind_Ok by exact G. cbv beta iota. unfold env.
    destruct (NewClientConn c addr conf (net w1)) as [r n1].
    eexists r, _, _. split_and!; [done | done | exact T | |].
    + intros [In | In]%elem_of_app; [done |]. revert In.
      unfold configured. not_in.
    + by rewrite filter_app, Tk.
  - erewrite bind_Ok by exact G. cbv beta iota.
    eexists (inr e), _, _. split_and!; [done | done | exact T | |].
    + intros [In | In]%elem_of_app; [done |]. revert In.
      destruct No' as [-> | (c & [-> | ->])]; unfold configured; not_in.
    + rewrite filter_app, Tk.
      by destruct No' as [-> | (c & [-> | ->])].
Qed.

(** The loop. *)
Lemma retry_for_run cs ctx addr conf timeout : ∀ w,
  ∃ r w' evs,
    retry_for cs ctx addr conf timeout w = (Ok r, w') ∧ p w' = p w ∧
    trace w' = trace w ++ EvNewTicker (100 * Millisecond) :: evs ∧
    (EvTickerStop ∉ evs) ∧
    (length (filter (is_ticker (100 * Millisecond)) evs) ≤ length cs)%nat ∧
    match r with
    | None => on_Done ∉ cs
    | Some (Some _, None) => True
    | Some (None, Some e) =>
        last evs = Some (not_ready_log e) ∨
        (on_Done ∈ cs ∧ e = retry_cancelled ∧ last evs = Some (EvLog (Error retry_cancelled)))
    | Some _ => False
    end.
Proof.
  induction cs as [| c cs IH]; intros w; cbn [retry_for].
  - destruct (attempt_run ctx addr conf w) as (r & w1 & evs & R & P & T & No & Tk).
    erewrite bind_Ok by exact R. cbv beta.
    destruct r as [cc | err].
    { exists (Some (Some cc, None)), w1, evs. rewrite Tk. by split_and!. }
    unfold log, emit, env, mbind, M_bind, bind, modify. cbn.
    destruct (time_Now (net w1)) as [now n1]. cbn.
    destruct (decide (timeout < now)%Z); cbn.
    + eexists (Some (None, Some err)), _, (evs ++ [not_ready_log err]).
      split_and!; [done | done | cbn; rewrite T; reassoc | | | ].
      * intros [In | In]%elem_of_app; [done |]. revert In. not_in.
      * by rewrite filter_app, Tk.
      * left. apply last_snoc.
    + eexists None, _, (evs ++ [not_ready_log err]).
      split_and!; [done | done | cbn; rewrite T; reassoc | | | ].
      * intros [In | In]%elem_of_app; [done |]. revert In. not_in.
      * by rewrite filter_app, Tk.
      * not_in.
  - destruct (attempt_run ctx addr conf w) as (r & w1 & evs & R & P & T & No & Tk).
    erewrite bind_Ok by exact R. cbv beta.
    destruct r as [cc | err].
    { exists (Some (Some cc, None)), w1, evs. rewrite Tk.
      split_and!; try done. apply Nat.le_0_l. }
    unfold log at 1. unfold emit at 1. erewrite bind_Ok by reflexivity.
    cbv beta. unfold env at 1. cbn [net].
    destruct (time_Now (net w1)) as [now n1] eqn:Now.
    erewrite bind_Ok by (cbn; rewrite Now; reflexivity). cbv beta.
    destruct (decide (timeout < now)%Z).
    { eexists (Some (None, Some err)), _, (evs ++ [not_ready_log err]).
      split_and!; [done | done | cbn; rewrite T; reassoc | | | ].
      * intros [In | In]%elem_of_app; [done |]. revert In. not_in.
      * rewrite filter_app, Tk. count.
      * left. apply last_snoc. }
    destruct c.
    + unfold recv_tick, emit. erewrite bind_Ok by reflexivity. cbv beta.
      match goal with
      | |- context [retry_for cs ctx addr conf timeout ?w2] =>
          destruct (IH w2) as (r & w3 & evs3 & R3 & P3 & T3 & No3 & Le3 & Sh3)
      end.
      eexists r, w3, (evs ++ [not_ready_log err; EvTick] ++
                      EvNewTicker (100 * Millisecond) :: evs3).
      split_and!.
      * exact R3.
      * by rewrite P3.
      * rewrite T3. cbn. rewrite T. reassoc.
      * intros [In | [In | In]%elem_of_app]%elem_of_app; [done | |].
        -- revert In. not_in.
        -- apply elem_of_cons in In as [? | In]; done.
      * rewrite !filter_app, Tk. count.
      * destruct r as [[[cc |] [e |]] |]; try done.
        -- rewrite !last_app, last_cons.
           destruct Sh3 as [-> | (In & -> & ->)]; [by left |].
           right. split_and!; [by right | done | done].
        -- intros [? | In]%elem_of_cons; done.
    + unfold log, emit. erewrite bind_Ok by reflexivity. cbv beta.
      eexists (Some (None, Some retry_cancelled)), _,
        (evs ++ [not_ready_log err; EvLog (Error retry_cancelled)]).
      split_and!; [done | done | cbn; rewrite T; reassoc | | | ].
      * intros [In | In]%elem_of_app; [done |]. revert In. not_in.
      * rewrite filter_app, Tk. count.
      * right. split_and!; [by left | done |].
        by rewrite last_app.
Qed.

(** [retryNewClientConn] as a whole. *)
Lemma retryNewClientConn_run cs ctx addr conf w :
  ∃ r w' evs,
    retryNewClientConn cs ctx addr conf w = (Ok r, w') ∧ p w' = p w ∧
    trace w' = trace w ++
      EvNewTicker (300 * Millisecond) ::
      EvLog ("waiting for ssh to be ready " +:+ addr) ::
      EvNewTicker (100 * Millisecond) :: evs ∧
    (EvTickerStop ∉ evs) ∧
    (length (filter (is_ticker (100 * Millisecond)) evs) ≤ length cs)%nat ∧
    match r with
    | None => on_Done ∉ cs
    | Some (Some _, None) => True
    | Some (None, Some e) =>
        last evs = Some (not_ready_log e) ∨
        (on_Done ∈ cs ∧ e = retry_cancelled ∧ last evs = Some (EvLog (Error retry_cancelled)))
    | Some _ => False
    end.
Proof.
  unfold retryNewClientConn, time_NewTicker, log, emit, env, mbind, M_bind,
    bind, modify. cbn.
  destruct (GetTimeout (net w)) as [t n1]. cbn.
  destruct (time_Now n1) as [now n2]. cbn.
  match goal with
  | |- context [retry_for cs ctx addr conf ?d ?w2] =>
      destruct (retry_for_run cs ctx addr conf d w2)
        as (r & w3 & evs & R & P & T & No & Le & Sh)
  end.
  rewrite R. exists r, w3, evs. split_and!; try done.
  - rewrite T. cbn. reassoc.
Qed.

(** X23.  [retryNewClientConn] does not panic: it never hands a nil
    connection to [ssh.NewClientConn].  Unless it is still waiting, it
    returns a connection or an error, never both and never neither; it is
    still waiting only when its context was not done at any [select].  It
    leaves the pool as it is. *)
Theorem retryNewClientConn_result cs ctx addr conf w :
  p (retryNewClientConn cs ctx addr conf w).2 = p w ∧
  (((retryNewClientConn cs ctx addr conf w).1 = Ok None ∧ on_Done ∉ cs) ∨
   (∃ clientConn,
      (retryNewClientConn cs ctx addr conf w).1 = Ok (Some (Some clientConn, None))) ∨
   (∃ err,
      (retryNewClientConn cs ctx addr conf w).1 = Ok (Some (None, Some err)))).
Proof.
  destruct (retryNewClientConn_run cs ctx addr conf w)
    as (r & w' & evs & -> & P & _ & _ & _ & Sh).
  split; [done |]. cbn [fst].
  destruct r as [[[cc |] [e |]] |]; try done; eauto.
Qed.

(** X24.  [retryNewClientConn] makes its first attempt whatever the timeout is,
    and at most one more for each tick it waited for.  It stops none of
    the tickers it starts, its own and the one of each attempt. *)
Theorem retryNewClientConn_attempts cs ctx addr conf w :
  ∃ evs,
    trace (retryNewClientConn cs ctx addr conf w).2 =
      trace w ++
      EvNewTicker (300 * Millisecond) ::
      EvLog ("waiting for ssh to be ready " +:+ addr) ::
      EvNewTicker (100 * Millisecond) :: evs ∧
    (length (filter (is_ticker (100 * Millisecond)) evs) ≤ length cs)%nat ∧
    EvTickerStop ∉ evs.
Proof.
  destruct (retryNewClientConn_run cs ctx addr conf w)
    as (r & w' & evs & -> & _ & T & No & Le & _).
  by exists evs.
Qed.

(** X25.  An error [retryNewClientConn] returns is one it has just
    logged: the error of its last attempt, when the deadline has passed,
    or, only when its context was done at a [select], the error
    [ssh.retryNewClientConn cancelled], which replaces the error of the
    attempt. *)
Theorem retryNewClientConn_error cs ctx addr conf w e :
  (retryNewClientConn cs ctx addr conf w).1 = Ok (Some (None, Some e)) →
  last (trace (retryNewClientConn cs ctx addr conf w).2) =
    Some (not_ready_log e) ∨
  (on_Done ∈ cs ∧ e = retry_cancelled ∧
   last (trace (retryNewClientConn cs ctx addr conf w).2) =
     Some (EvLog (Error retry_cancelled))).
Proof.
  destruct (retryNewClientConn_run cs ctx addr conf w)
    as (r & w' & evs & -> & _ & T & _ & _ & Sh).
  cbn [fst snd]. intros [= ->]. rewrite T.
  rewrite last_app, !last_cons.
  destruct Sh as [-> | (In & -> & ->)]; [by left | by right].
Qed.

End Facts.
End SshConnectFacts.

(** * The rest of the code on the fixture *)
Module MoreExamples.
Import K8s Model Deployments Jobs Fixture Scenario GoErrors JobsCalls JobsMore.
Import Build BuildFacts StringsReplace BuildCache BuildCacheFacts.

#[local] Existing Instance okteto_consts.

(** *** Package [jobs] *)

Lemma get_by_name_witness :
  client (get web_dev "ns1" (start (cluster []) 0 false)).2 = cluster [] ∧
  (get web_dev "ns1" (start (cluster []) 0 false)).1 = Ok 0 ∧
  heap (get web_dev "ns1" (start (cluster []) 0 false)).2 = [web] ∧
  logs (get web_dev "ns1" (start (cluster []) 0 false)).2 = [].
Proof.
  apply (get_by_name web_dev "ns1" (start (cluster []) 0 false) (inl web)
           (cluster [])).
  - discriminate.
  - reflexivity.
  - reflexivity.
Defined.

(** The cluster is full: the error of the creation call is wrapped. *)
Lemma CreateDevJob_create_witness :
  calls (CreateDevJob web_dev sess (start full 1600000000 false)).2 =
    calls (translated full) ++ [CallCreate "ns1" (copy full)] ∧
  client (CreateDevJob web_dev sess (start full 1600000000 false)).2 =
    (Jobs_Create "ns1" (copy full) (client (translated full))).2 ∧
  ∃ e, (CreateDevJob web_dev sess (start full 1600000000 false)).1 = Err e ∧
       Error e = "failed to create job: " +:+ Error quota ∧
       Unwrap e = Some quota.
Proof.
  apply (CreateDevJob_create web_dev sess (start full 1600000000 false)
           0 (got full) 1 (translated full) (copy full) (inr quota)
           (Jobs_Create "ns1" (copy full) (client (translated full))).2).
  - vm_compute. reflexivity.
  - vm_compute. reflexivity.
  - vm_compute. reflexivity.
  - vm_compute. reflexivity.
Defined.

Lemma CreateDevJob_submits_stripped_witness :
  "ns1" = dev_Namespace sess ∧
  ∃ q w1 src,
    get web_dev (dev_Namespace sess)
        (log ("creating job from " +:+ dev_Name web_dev)
             (start (cluster []) 1600000000 false)).2 = (Ok q, w1) ∧
    heap w1 !! q = Some src ∧
    Status (copy (cluster [])) = JobStatus_zero ∧
    Selector (Spec (copy (cluster []))) = None ∧
    (keeps_identity (pipeline_Translation web_dev sess q) →
     identity_stripped (copy (cluster []))
       (derived_name src (clock (start (cluster []) 1600000000 false)))).
Proof.
  apply (CreateDevJob_submits_stripped
           web_dev sess (start (cluster []) 1600000000 false) "ns1"
           (copy (cluster []))).
  apply (list_elem_of_lookup_2 _ 1). vm_compute. reflexivity.
Defined.

(** On the fixture, the condition holds and the source is [web]. *)
Example CreateDevJob_submits_web :
  keeps_identity (pipeline_Translation web_dev sess 0) ∧
  identity_stripped (copy (cluster [])) "okteto-web-1600000000".
Proof.
  split; [by apply Examples.rules_keep_identity |].
  unfold identity_stripped. vm_compute. by split_and!.
Qed.

(** *** Package [build] *)

Lemma GetRepoNameWithoutTag_prefix_witness :
  ∃ r rest,
    GetRepoNameWithoutTag "localhost:5000/app:v1" = Some r ∧
    "localhost:5000/app:v1" = r +:+ rest ∧
    Strings.mem "@"%char r = false.
Proof.
  apply (GetRepoNameWithoutTag_prefix "localhost:5000/app:v1"). discriminate.
Defined.

Lemma GetRepoNameWithoutTag_tagged_witness :
  GetRepoNameWithoutTag ("registry.example.com:5000/team/app" +:+ ":" +:+ "v1")
  = Some "registry.example.com:5000/team/app".
Proof.
  apply (GetRepoNameWithoutTag_tagged "registry.example.com:5000/team/app" "v1");
    [discriminate | reflexivity..].
Defined.

Lemma GetRepoNameWithoutTag_digest_witness :
  GetRepoNameWithoutTag ("okteto/dev:1.0" +:+ "@" +:+ "sha256:0a1b")
  = Some "okteto/dev:1.0".
Proof.
  apply (GetRepoNameWithoutTag_digest "okteto/dev:1.0" "sha256:0a1b").
  reflexivity.
Defined.

Lemma GetRepoNameWithoutTag_untagged_witness :
  GetRepoNameWithoutTag "localhost:5000/app" = Some "localhost:5000/app".
Proof.
  apply (GetRepoNameWithoutTag_untagged "localhost:5000/app");
    [reflexivity |].
  right. exists "localhost:5000", "app". by split_and!; [| | left |].
Defined.

Lemma GetImageTag_retags_witness :
  GetImageTag ("okteto/app" +:+ ":" +:+ "dev") "app" "ns1" "" =
  Some ("okteto/app" +:+ ":okteto").
Proof.
  apply (GetImageTag_retags "okteto/app" "dev" "app" "ns1");
    [discriminate | reflexivity..].
Defined.

Lemma GetImageTag_idempotent_witness :
  GetImageTag "okteto/app:okteto" "app" "ns1" "" = Some "okteto/app:okteto".
Proof.
  apply (GetImageTag_idempotent "okteto/app:dev" "app" "ns1"
           "okteto/app:okteto"); [discriminate | reflexivity].
Defined.

Lemma translateCacheHandler_user_witness :
  occurs ("id=" +:+ "u1")
    (translateCacheHandler
       "RUN --mount=type=cache,target=/root/.cache go build" "u1").
Proof.
  apply (translateCacheHandler_user
           "RUN --mount=type=cache,target=/root/.cache go build" "u1").
  exists " ", "", ",target=/root/.cache go build". by split_and!.
Defined.

(** *** Package [ssh] *)

Lemma getTCPConnection_configures_witness :
  ∃ errs,
    length errs < 5 ∧
    Ssh.trace (Ssh.getTCPConnection 0 "10.0.0.1:22" (30 * Ssh.Second)
                 (handle flaky)).2 =
    Ssh.trace (handle flaky) ++ Ssh.EvNewTicker (100 * Ssh.Millisecond) ::
    (errs ≫= Ssh.failed_attempt "10.0.0.1:22") ++
    [Ssh.EvDial "tcp" "10.0.0.1:22" (inl 7);
     Ssh.EvSetKeepAlive 7 true; Ssh.EvSetKeepAlivePeriod 7 (30 * Ssh.Second)].
Proof.
  apply (SshMore.getTCPConnection_configures 0 "10.0.0.1:22" (30 * Ssh.Second)
           (handle flaky) 7).
  vm_compute. reflexivity.
Defined.


(** A tick, then the context is done: the ticker of 30 seconds is
    started first and stopped last. *)
Lemma keepAlive_releases_ticker_witness :
  ∃ f evs,
    (Ssh.keepAlive [Ssh.t_C; Ssh.ctx_Done None] (handle deaf)).1 = Ok f ∧
    Ssh.p (Ssh.keepAlive [Ssh.t_C; Ssh.ctx_Done None] (handle deaf)).2 =
      Ssh.p (handle deaf) ∧
    Ssh.trace (Ssh.keepAlive [Ssh.t_C; Ssh.ctx_Done None] (handle deaf)).2 =
      Ssh.trace (handle deaf) ++
      Ssh.EvNewTicker (Ssh.ka (Ssh.p (handle deaf))) :: evs ++
      (match f with
       | Ssh.Return => [Ssh.EvTickerStop]
       | Ssh.Continue => []
       end) ∧
    Ssh.EvTickerStop ∉ evs.
Proof.
  apply (SshMore.keepAlive_releases_ticker [Ssh.t_C; Ssh.ctx_Done None]
           (handle deaf)).
  reflexivity.
Defined.


(** No server, and the context is done at the first [select]. *)
Lemma retryNewClientConn_error_witness :
  last (Ssh.trace (SshConnect.retryNewClientConn [SshConnect.on_Done] 0
                     "10.0.0.1:22" 0 (station [])).2) =
    Some (SshConnect.not_ready_log SshConnect.retry_cancelled) ∨
  (SshConnect.on_Done ∈ [SshConnect.on_Done] ∧
   SshConnect.retry_cancelled = SshConnect.retry_cancelled ∧
   last (Ssh.trace (SshConnect.retryNewClientConn [SshConnect.on_Done] 0
                      "10.0.0.1:22" 0 (station [])).2) =
     Some (Ssh.EvLog (Error SshConnect.retry_cancelled))).
Proof.
  apply (SshConnectFacts.retryNewClientConn_error [SshConnect.on_Done] 0
           "10.0.0.1:22" 0 (station []) SshConnect.retry_cancelled).
  vm_compute. reflexivity.
Defined.

(** *** More runs *)

Example GetRepoNameWithoutTag_runs :
  GetRepoNameWithoutTag <$>
    ["okteto/dev:1.0"; "localhost:5000/app:v1"; "a@sha256:abc"; "a:b:c";
     "localhost:5000"; "busybox"; ""] =
  Some <$> ["okteto/dev"; "localhost:5000/app"; "a"; "a:b"; "localhost";
            "busybox"; ""].
Proof. reflexivity. Qed.

Example GetImageTag_runs :
  GetImageTag "" "api" "ns1" "registry.cloud.okteto.net" =
    Some "registry.cloud.okteto.net/ns1/api:okteto" ∧
  GetImageTag "okteto/dev:latest" "api" "ns1" "registry.cloud.okteto.net" =
    Some "registry.cloud.okteto.net/ns1/api:okteto" ∧
  GetImageTag "me/api:1" "api" "ns1" "registry.cloud.okteto.net" =
    Some "me/api:1" ∧
  GetImageTag "me/api:1" "api" "ns1" "" = Some "me/api:okteto".
Proof. by split_and!. Qed.

(** A nil manifest is read only when no image tag is given. *)
Example GetDevImageTag_runs :
  GetDevImageTag None "" "me/api:1" "" = None ∧
  GetDevImageTag None "okteto/dev:latest" "me/api:1" "" = None ∧
  GetDevImageTag None "me/api:2" "me/api:1" "" = Some "me/api:2" ∧
  GetDevImageTag (Some sess) "" "me/api:1" "" = Some "me/api:okteto" ∧
  GetDevImageTag (Some sess) "" "" "registry.cloud.okteto.net" =
    Some "registry.cloud.okteto.net/ns1/sess:okteto".
Proof. by split_and!. Qed.

(** The three rewritings of the cache handler, and lines it leaves. *)
Example translateCacheHandler_runs :
  (λ line, translateCacheHandler line "u1") <$>
    ["RUN --mount=type=cache,target=/root/.cache go build";
     "RUN --mount=id=1,type=cache,target=/root/.cache go build";
     "RUN --mount=type=cache,id=1,target=/root/.cache go build";
     "RUN go build"; "FROM golang"; "  RUN --mount=type=cache x"] =
  ["RUN --mount=id=u1,type=cache,target=/root/.cache go build";
   "RUN --mount=id=u1-1,type=cache,target=/root/.cache go build";
   "RUN --mount=type=cache,id=u1-1,target=/root/.cache go build";
   "RUN go build"; "FROM golang"; "  RUN --mount=type=cache x"].
Proof. vm_compute. reflexivity. Qed.

(** The handshake fails once: two attempts, a tick in between, and the
    connection of the second. *)
Example retryNewClientConn_second :
  let r := SshConnect.retryNewClientConn [SshConnect.on_ticker] 0
             "10.0.0.1:22" 0 (station [inl 7; inl 8]) in
  r.1 = Ok (Some (Some 1, None)) ∧
  filter Ssh.is_dial (Ssh.trace r.2) =
    [Ssh.EvDial "tcp" "10.0.0.1:22" (inl 7);
     Ssh.EvDial "tcp" "10.0.0.1:22" (inl 8)] ∧
  filter Ssh.is_log (Ssh.trace r.2) =
    [Ssh.EvLog "waiting for ssh to be ready 10.0.0.1:22";
     Ssh.EvLog "ssh is not ready yet: ssh: handshake failed"].
Proof. vm_compute. by split_and!. Qed.

(** No server and no tick left: five dials refused, and the caller waits
    at its [select]. *)
Example retryNewClientConn_waiting :
  let r := SshConnect.retryNewClientConn [] 0 "10.0.0.1:22" 0 (station []) in
  r.1 = Ok None ∧ length (filter Ssh.is_dial (Ssh.trace r.2)) = 5.
Proof. vm_compute. by split. Qed.

End MoreExamples.
